(** * Hsuanwu: rollout storages, environment adapter and the distributed
    actor/learner pipeline.

    A shallow embedding of

    - [hsuanwu/xploit/storage/vanilla_rollout_storage.py]
      (class [VanillaRolloutStorage]),
    - [hsuanwu/xploit/storage/distributed_storage.py]
      (class [DistributedStorage]),
    - [hsuanwu/common/engine/distributed_trainer.py]
      (classes [Environment] and [DistributedTrainer]),
    - [hsuanwu/xploit/storage/decoupled_rollout_storage.py]
      (class [DecoupledRolloutStorage]),
    - [hsuanwu/common/engine/base_policy_trainer.py]
      ([_remake_observation_and_action_space]),

    together with the properties the specification states about them and
    further properties of the code.

    Conventions of the embedding.

    - A Python exception is a value of [exn]; a call that may raise returns
      a [result].
    - [float32] tensors are idealised as real numbers ([R]): rounding,
      infinities and NaN are outside the model.  [int32] tensors are
      integers with their wrap-around written out.
    - A Python list or the leading dimension of a tensor is a [list];
      indexing out of range raises [IndexError] as in Python.  A tensor
      handed in by a caller is taken to have the shape of the place it is
      copied to: the shape errors of [copy_] and of element-wise
      arithmetic are outside the model.
    - Randomness ([torch.randperm]) and the collaborators the code is
      given (the Gym environment, the actor network) are arguments.
    - Processes and threads are modelled by interleaving: a transition
      system with one step per queue operation. *)

From Stdlib Require Import ZArith Reals Lra Lia List Permutation String.
From stdpp Require Import base tactics option list functions strings.

Local Open Scope nat_scope.

(** ** Exceptions and results *)

Inductive exn : Set :=
| NotImplementedError
| AssertionError
| IndexError
| KeyError
| RuntimeError
| TypeError
| ValueError
| ZeroDivisionError.

#[global] Instance exn_eq_dec : EqDecision exn.
Proof. solve_decision. Defined.

Inductive result (A : Type) : Type :=
| Ok (a : A)
| Raise (e : exn).

Arguments Ok {A} a.
Arguments Raise {A} e.

#[global] Instance result_ret : MRet result := fun A a => Ok a.
#[global] Instance result_bind : MBind result := fun A B f m =>
  match m with
  | Ok a => f a
  | Raise e => Raise e
  end.

Definition is_ok {A} (r : result A) : Prop :=
  match r with Ok _ => True | Raise _ => False end.

(** [l[i]] for [0 <= i]. *)
Definition getitem {A} (l : list A) (i : nat) : result A :=
  match l !! i with
  | Some x => Ok x
  | None => Raise IndexError
  end.

(** [l[-1]]. *)
Definition getitem_last {A} (l : list A) : result A :=
  match last l with
  | Some x => Ok x
  | None => Raise IndexError
  end.

(** [l[i] = x] (for a tensor: [l[i].copy_(x)] or [l[i, ...] = x]). *)
Definition setitem {A} (l : list A) (i : nat) (x : A) : result (list A) :=
  if decide (i < length l) then Ok (<[i := x]> l) else Raise IndexError.

(** A [for] loop whose body may raise, threading the loop state. *)
Fixpoint for_each {A S} (body : S -> A -> result S) (xs : list A) (s : S)
  : result S :=
  match xs with
  | [] => Ok s
  | x :: xs' => s' ← body s x; for_each body xs' s'
  end.

(** ** Element-wise arithmetic on frames of real numbers *)

Definition tadd (a b : list R) : list R := zip_with Rplus a b.
Definition tsub (a b : list R) : list R := zip_with Rminus a b.
Definition tmul (a b : list R) : list R := zip_with Rmult a b.
(** scalar [c * a] and [c - a] *)
Definition smul (c : R) (a : list R) : list R := map (Rmult c) a.
Definition ssub (c : R) (a : list R) : list R := map (Rminus c) a.

Definition rsum (xs : list R) : R := foldr Rplus 0%R xs.

(** [Tensor.mean()] over all entries. *)
Definition mean (xs : list R) : R := (rsum xs / INR (length xs))%R.

(** [Tensor.std()]: the sample standard deviation (Bessel's correction). *)
Definition std (xs : list R) : R :=
  let m := mean xs in
  sqrt (rsum (map (fun x => (x - m) * (x - m))%R xs) / (INR (length xs) - 1))%R.

(** ** [VanillaRolloutStorage] *)

Module VanillaRolloutStorage.

(** One environment's entry of an observation or action frame, flattened. *)
Definition array := list R.

(** The storage object.  Fields of trailing shape [(num_envs, 1)] keep one
    real per environment in each frame. *)
Record t : Type := mk {
  _num_steps : nat;
  _num_envs : nat;
  _discount : R;
  _gae_lambda : R;
  _action_dim : nat;
  obs : list (list array);        (* (num_steps, num_envs, *obs_shape) *)
  actions : list (list array);    (* (num_steps, num_envs, action_dim) *)
  rewards : list (list R);         (* (num_steps, num_envs, 1) *)
  terminateds : list (list R);     (* (num_steps + 1, num_envs, 1) *)
  truncateds : list (list R);      (* (num_steps + 1, num_envs, 1) *)
  log_probs : list (list R);       (* (num_steps, num_envs, 1) *)
  values : list (list R);          (* (num_steps, num_envs, 1) *)
  returns : list (list R);         (* (num_steps, num_envs, 1) *)
  advantages : list (list R);      (* (num_steps, num_envs, 1) *)
  _global_step : nat
}.

(** [torch.empty(size=(n, m, ...))]: [n] frames of [m] entries each, with
    whatever the memory holds ([junk]). *)
Definition torch_empty {A} (junk : A) (n m : nat) : list (list A) :=
  replicate n (replicate m junk).

(** [__init__].  [junk] and [junk_t] stand for the uninitialised memory. *)
Definition __init__ (junk : R) (junk_t : array)
    (action_shape : list nat) (action_type : string)
    (num_steps num_envs : nat) (discount gae_lambda : R) : result t :=
  let obs := torch_empty junk_t num_steps num_envs in
  action_dim ←
    (if decide (action_type = "Discrete"%string) then Ok 1
     else if decide (action_type = "Box"%string) then getitem action_shape 0
     else Raise NotImplementedError);
  let actions := torch_empty junk_t num_steps num_envs in
  let rewards := torch_empty junk num_steps num_envs in
  let terminateds := torch_empty junk (num_steps + 1) num_envs in
  let truncateds := torch_empty junk (num_steps + 1) num_envs in
  terminateds ← setitem terminateds 0 (replicate num_envs 0%R);
  truncateds ← setitem truncateds 0 (replicate num_envs 0%R);
  Ok {| _num_steps := num_steps; _num_envs := num_envs;
        _discount := discount; _gae_lambda := gae_lambda;
        _action_dim := action_dim;
        obs := obs; actions := actions; rewards := rewards;
        terminateds := terminateds; truncateds := truncateds;
        log_probs := torch_empty junk num_steps num_envs;
        values := torch_empty junk num_steps num_envs;
        returns := torch_empty junk num_steps num_envs;
        advantages := torch_empty junk num_steps num_envs;
        _global_step := 0 |}.

(** One transition of every environment, as passed to [add]. *)
Record transition : Type := mk_transition {
  tr_obs : list array;
  tr_actions : list array;
  tr_rewards : list R;
  tr_terminateds : list R;
  tr_truncateds : list R;
  tr_log_probs : list R;
  tr_values : list R
}.

(** [add]: write at the cursor, advance it modulo [num_steps]. *)
Definition add (s : t) (x : transition) : result t :=
  let g := _global_step s in
  obs' ← setitem (obs s) g (tr_obs x);
  actions' ← setitem (actions s) g (tr_actions x);
  rewards' ← setitem (rewards s) g (tr_rewards x);
  terminateds' ← setitem (terminateds s) (g + 1) (tr_terminateds x);
  truncateds' ← setitem (truncateds s) (g + 1) (tr_truncateds x);
  log_probs' ← setitem (log_probs s) g (tr_log_probs x);
  values' ← setitem (values s) g (tr_values x);
  if decide (_num_steps s = 0) then Raise ZeroDivisionError
  else
    Ok {| _num_steps := _num_steps s; _num_envs := _num_envs s;
          _discount := _discount s; _gae_lambda := _gae_lambda s;
          _action_dim := _action_dim s;
          obs := obs'; actions := actions'; rewards := rewards';
          terminateds := terminateds'; truncateds := truncateds';
          log_probs := log_probs'; values := values';
          returns := returns s; advantages := advantages s;
          _global_step := (g + 1) mod _num_steps s |}.

(** [reset]: copy the last frame of the two flag fields into frame 0. *)
Definition reset (s : t) : result t :=
  te ← getitem_last (terminateds s);
  terminateds' ← setitem (terminateds s) 0 te;
  tr ← getitem_last (truncateds s);
  truncateds' ← setitem (truncateds s) 0 tr;
  Ok {| _num_steps := _num_steps s; _num_envs := _num_envs s;
        _discount := _discount s; _gae_lambda := _gae_lambda s;
        _action_dim := _action_dim s;
        obs := obs s; actions := actions s; rewards := rewards s;
        terminateds := terminateds'; truncateds := truncateds';
        log_probs := log_probs s; values := values s;
        returns := returns s; advantages := advantages s;
        _global_step := _global_step s |}.

(** The body of the backward loop of [compute_returns_and_advantages];
    the loop state is [(gae, self.advantages)]. *)
Definition gae_step (s : t) (last_values : list R)
    (acc : list R * list (list R)) (step : nat)
  : result (list R * list (list R)) :=
  nn ← (if decide (step = _num_steps s - 1)
        then te ← getitem_last (terminateds s);
             Ok (ssub 1 te, last_values)
        else te ← getitem (terminateds s) (step + 1);
             v ← getitem (values s) (step + 1);
             Ok (ssub 1 te, v));
  let next_non_terminal := nn.1 in
  let next_values := nn.2 in
  r ← getitem (rewards s) step;
  v ← getitem (values s) step;
  let delta :=
    tsub (tadd r (tmul (smul (_discount s) next_values) next_non_terminal)) v in
  let gae :=
    tadd delta
      (tmul (smul (_discount s * _gae_lambda s) next_non_terminal) acc.1) in
  adv ← setitem acc.2 step gae;
  Ok (gae, adv).

(** The loop [for step in reversed(range(num_steps))], started with
    [gae = 0] (a scalar, broadcast over the [num_envs] entries of a frame):
    the advantages before standardisation. *)
Definition gae_pass (s : t) (last_values : list R) : result (list (list R)) :=
  acc ← for_each (gae_step s last_values) (rev (seq 0 (_num_steps s)))
        (replicate (_num_envs s) 0%R, advantages s);
  Ok acc.2.

(** [(advantages - advantages.mean()) / (advantages.std() + 1e-5)] *)
Definition standardize (adv : list (list R)) : list (list R) :=
  let flat := concat adv in
  let m := mean flat in
  let sd := std flat in
  map (map (fun a => ((a - m) / (sd + 1 / 100000))%R)) adv.

Definition compute_returns_and_advantages (s : t) (last_values : list R)
  : result t :=
  adv ← gae_pass s last_values;
  Ok {| _num_steps := _num_steps s; _num_envs := _num_envs s;
        _discount := _discount s; _gae_lambda := _gae_lambda s;
        _action_dim := _action_dim s;
        obs := obs s; actions := actions s; rewards := rewards s;
        terminateds := terminateds s; truncateds := truncateds s;
        log_probs := log_probs s; values := values s;
        returns := zip_with tadd adv (values s);
        advantages := standardize adv;
        _global_step := _global_step s |}.

(** [torch.utils.data.SubsetRandomSampler(indices)]: iterating it yields
    [indices[i]] for [i] in [torch.randperm(len(indices))].  The random
    permutation drawn is the argument [randperm]. *)
Definition subset_random_sampler (indices randperm : list nat) : list nat :=
  map (fun i => nth i indices 0) randperm.

(** [torch.utils.data.BatchSampler(sampler, batch_size, drop_last=True)]:
    indices are collected into [batch]; a batch is yielded when it reaches
    [batch_size]; what is left at the end of the sampler is dropped. *)
Fixpoint batch_sampler (batch_size : nat) (batch sampler : list nat)
  : list (list nat) :=
  match sampler with
  | [] => []
  | idx :: rest =>
      let batch := batch ++ [idx] in
      if decide (length batch = batch_size)
      then batch :: batch_sampler batch_size [] rest
      else batch_sampler batch_size batch rest
  end.

(** The index lists [generator] iterates over: everything before its [for]
    loop.  [BatchSampler] itself refuses a batch size that is not
    positive. *)
Definition generator_indices (s : t) (num_mini_batch : Z)
    (randperm : list nat) : result (list (list nat)) :=
  let batch_size := _num_envs s * _num_steps s in
  if decide (Z.of_nat batch_size >= num_mini_batch)%Z then
    if decide (num_mini_batch = 0)%Z then Raise ZeroDivisionError
    else
      let mini_batch_size := (Z.of_nat batch_size / num_mini_batch)%Z in
      if decide (mini_batch_size <= 0)%Z then Raise ValueError
      else
        Ok (batch_sampler (Z.to_nat mini_batch_size) []
              (subset_random_sampler (seq 0 batch_size) randperm))
  else Raise AssertionError.

(** [x.view(-1, ...)]: the two leading dimensions merged. *)
Definition view {A} (x : list (list A)) : list A := concat x.

(** [x[indices]] for a list of indices. *)
Fixpoint index_select {A} (x : list A) (indices : list nat) : result (list A) :=
  match indices with
  | [] => Ok []
  | i :: rest => a ← getitem x i; r ← index_select x rest; Ok (a :: r)
  end.

(** The tuple yielded for one mini-batch. *)
Record batch : Type := mk_batch {
  batch_obs : list array;
  batch_actions : list array;
  batch_values : list R;
  batch_returns : list R;
  batch_terminateds : list R;
  batch_truncateds : list R;
  batch_old_log_probs : list R;
  adv_targ : list R
}.

(** The body of the [for indices in sampler] loop, up to the [yield]. *)
Definition gather (s : t) (indices : list nat) : result batch :=
  batch_obs ← index_select (view (obs s)) indices;
  batch_actions ← index_select (view (actions s)) indices;
  batch_values ← index_select (view (values s)) indices;
  batch_returns ← index_select (view (returns s)) indices;
  batch_terminateds ← index_select (view (removelast (terminateds s))) indices;
  batch_truncateds ← index_select (view (removelast (truncateds s))) indices;
  batch_old_log_probs ← index_select (view (log_probs s)) indices;
  adv_targ ← index_select (view (advantages s)) indices;
  Ok (mk_batch batch_obs batch_actions batch_values batch_returns
        batch_terminateds batch_truncateds batch_old_log_probs adv_targ).

(** What a consumer of a generator object sees when it runs it to the end:
    the values yielded, then normal exhaustion or an exception. *)
Record outcome : Type := mk_outcome {
  yielded : list batch;
  raised : option exn
}.

Fixpoint run_loop (s : t) (sampler : list (list nat)) : outcome :=
  match sampler with
  | [] => mk_outcome [] None
  | indices :: rest =>
      match gather s indices with
      | Ok b => let o := run_loop s rest in mk_outcome (b :: yielded o) (raised o)
      | Raise e => mk_outcome [] (Some e)
      end
  end.

(** [generator(num_mini_batch)], iterated to the end. *)
Definition generator (s : t) (num_mini_batch : Z) (randperm : list nat)
  : outcome :=
  match generator_indices s num_mini_batch randperm with
  | Ok sampler => run_loop s sampler
  | Raise e => mk_outcome [] (Some e)
  end.

(** The shapes [__init__] allocates. *)
Definition shaped {A} (n m : nat) (x : list (list A)) : Prop :=
  length x = n /\ Forall (fun f => length f = m) x.

Record wf (s : t) : Prop := mk_wf {
  wf_obs : shaped (_num_steps s) (_num_envs s) (obs s);
  wf_actions : shaped (_num_steps s) (_num_envs s) (actions s);
  wf_rewards : shaped (_num_steps s) (_num_envs s) (rewards s);
  wf_terminateds : shaped (_num_steps s + 1) (_num_envs s) (terminateds s);
  wf_truncateds : shaped (_num_steps s + 1) (_num_envs s) (truncateds s);
  wf_log_probs : shaped (_num_steps s) (_num_envs s) (log_probs s);
  wf_values : shaped (_num_steps s) (_num_envs s) (values s);
  wf_returns : shaped (_num_steps s) (_num_envs s) (returns s);
  wf_advantages : shaped (_num_steps s) (_num_envs s) (advantages s)
}.

(** The leading dimensions of the fields [add] and [reset] touch. *)
Definition lengths (s : t) : Prop :=
  length (obs s) = _num_steps s /\
  length (actions s) = _num_steps s /\
  length (rewards s) = _num_steps s /\
  length (terminateds s) = _num_steps s + 1 /\
  length (truncateds s) = _num_steps s + 1 /\
  length (log_probs s) = _num_steps s /\
  length (values s) = _num_steps s.

(** A fill cycle: [add] called once per transition of [xs], in order. *)
Definition add_all (s : t) (xs : list transition) : result t :=
  for_each add xs s.

(** Frame 0 of [after] is frame [T] of [before]. *)
Definition overlaps {A} (T : nat) (before after : list A) : Prop :=
  exists f, before !! T = Some f /\ after !! 0 = Some f.

(** The overlap property as the specification states it for the fields
    [terminated], [truncated] and [obs]: after a fill cycle [xs] and
    [reset], frame 0 is frame [num_steps] of the cycle. *)
Definition overlap_claim (s : t) (xs : list transition) : Prop :=
  forall s1 s2, add_all s xs = Ok s1 -> reset s1 = Ok s2 ->
    overlaps (_num_steps s) (terminateds s1) (terminateds s2) /\
    overlaps (_num_steps s) (truncateds s1) (truncateds s2) /\
    overlaps (_num_steps s) (obs s1) (obs s2).

(** A storage of two steps and one environment, and a fill cycle for it. *)
Definition storage_2x1 : t :=
  {| _num_steps := 2; _num_envs := 1; _discount := 0.99; _gae_lambda := 0.95;
     _action_dim := 1;
     obs := [[[0%R]]; [[0%R]]]; actions := [[[0%R]]; [[0%R]]];
     rewards := [[0%R]; [0%R]];
     terminateds := [[0%R]; [0%R]; [0%R]];
     truncateds := [[0%R]; [0%R]; [0%R]];
     log_probs := [[0%R]; [0%R]]; values := [[0%R]; [0%R]];
     returns := [[0%R]; [0%R]]; advantages := [[0%R]; [0%R]];
     _global_step := 0 |}.

Definition cycle_2x1 : list transition :=
  [ mk_transition [[1%R]] [[0%R]] [0%R] [0%R] [0%R] [0%R] [0%R];
    mk_transition [[2%R]] [[0%R]] [1%R] [1%R] [0%R] [0%R] [0%R] ].

(** A storage of the given shape with every entry zero and the cursor at
    the start of a cycle. *)
Definition blank (num_steps num_envs : nat) : t :=
  {| _num_steps := num_steps; _num_envs := num_envs;
     _discount := 0.99; _gae_lambda := 0.95; _action_dim := 1;
     obs := torch_empty [0%R] num_steps num_envs;
     actions := torch_empty [0%R] num_steps num_envs;
     rewards := torch_empty 0%R num_steps num_envs;
     terminateds := torch_empty 0%R (num_steps + 1) num_envs;
     truncateds := torch_empty 0%R (num_steps + 1) num_envs;
     log_probs := torch_empty 0%R num_steps num_envs;
     values := torch_empty 0%R num_steps num_envs;
     returns := torch_empty 0%R num_steps num_envs;
     advantages := torch_empty 0%R num_steps num_envs;
     _global_step := 0 |}.

(** Index lists that partition the transitions [0 .. n - 1]: no index is
    repeated and none is omitted. *)
Definition partitions (batches : list (list nat)) (n : nat) : Prop :=
  NoDup (concat batches) /\ forall i, i < n -> i ∈ concat batches.

(** Batch completeness as the specification states it. *)
Definition batch_completeness_claim (s : t) (num_mini_batch : Z)
    (randperm : list nat) : Prop :=
  exists batches,
    generator_indices s num_mini_batch randperm = Ok batches /\
    partitions batches (_num_envs s * _num_steps s).

(** The concrete check of the specification: one step, two environments,
    [reward = 1.0], [value = 0.5], the episode terminated at the last
    frame. *)
Definition gae_example : t :=
  {| _num_steps := 1; _num_envs := 2; _discount := 0.99; _gae_lambda := 0.95;
     _action_dim := 1;
     obs := [[[0%R]; [0%R]]]; actions := [[[0%R]; [0%R]]];
     rewards := [[1%R; 1%R]];
     terminateds := [[0%R; 0%R]; [1%R; 1%R]];
     truncateds := [[0%R; 0%R]; [0%R; 0%R]];
     log_probs := [[0%R; 0%R]]; values := [[0.5%R; 0.5%R]];
     returns := [[0%R; 0%R]]; advantages := [[0%R; 0%R]];
     _global_step := 0 |}.

(** The concrete check as the specification states it: after
    [compute_returns_and_advantages], the advantage of the last step is
    [1.0 - 0.5] in every environment. *)
Definition gae_check_claim (s : t) (bootstrap : list R) : Prop :=
  exists s', compute_returns_and_advantages s bootstrap = Ok s' /\
    advantages s' !! (_num_steps s - 1) =
      Some (replicate (_num_envs s) (1 - 0.5)%R).

End VanillaRolloutStorage.

(** ** Tensors of the distributed pipeline

    One timestep of one field of a slot, an entry of an environment frame
    or of a policy output, or one recurrent-state tensor. *)

Inductive tensor : Type :=
| TInts (l : list Z)      (* an integer array (an observation) *)
| TFloat (r : R)          (* a float32 scalar *)
| TInt (z : Z)            (* an integer scalar *)
| TBool (b : bool)        (* a flag *)
| TFloats (l : list R).   (* a float32 array *)

(** A Python number, as [tensor.item()] returns it. *)
Inductive scalar : Type :=
| SInt (z : Z)
| SFloat (r : R)
| SBool (b : bool).

(** [tensor.item()]: only a tensor of one element has one. *)
Definition item (v : tensor) : result scalar :=
  match v with
  | TInt z | TInts [z] => Ok (SInt z)
  | TFloat r | TFloats [r] => Ok (SFloat r)
  | TBool b => Ok (SBool b)
  | TInts _ | TFloats _ => Raise RuntimeError
  end.

(** [[l[i] for i in indices]] *)
Fixpoint getitems {A} (l : list A) (indices : list nat) : result (list A) :=
  match indices with
  | [] => Ok []
  | i :: rest => a ← getitem l i; r ← getitems l rest; Ok (a :: r)
  end.

(** The keys of the [specs] and [storages] dictionaries, in their order. *)
Module Key.

Inductive key : Set :=
| obs | reward | terminated | truncated | episode_return | episode_step
| last_action | policy_logits | baseline | action.

#[global] Instance key_eq_dec : EqDecision key.
Proof. solve_decision. Defined.

Definition keys : list key :=
  [obs; reward; terminated; truncated; episode_return; episode_step;
   last_action; policy_logits; baseline; action].

End Key.

Abbreviation key := Key.key.
Abbreviation keys := Key.keys.

(** ** [DistributedStorage] *)

Module DistributedStorage.

Inductive dtype : Set := uint8 | float32 | bool_ | int32 | int64.

Record spec : Set := mk_spec { size : list nat; dtype_of : dtype }.

(** The [specs] dictionary; building it reads [action_shape[0]]. *)
Definition specs (num_steps : nat) (obs_shape action_shape : list nat)
  : result (key -> spec) :=
  n ← getitem action_shape 0;
  Ok (fun k =>
        match k with
        | Key.obs => mk_spec (num_steps + 1 :: obs_shape) uint8
        | Key.reward => mk_spec [num_steps + 1] float32
        | Key.terminated => mk_spec [num_steps + 1] bool_
        | Key.truncated => mk_spec [num_steps + 1] bool_
        | Key.episode_return => mk_spec [num_steps + 1] float32
        | Key.episode_step => mk_spec [num_steps + 1] int32
        | Key.last_action => mk_spec [num_steps + 1] int64
        | Key.policy_logits => mk_spec [num_steps + 1; n] float32
        | Key.baseline => mk_spec [num_steps + 1] float32
        | Key.action => mk_spec [num_steps + 1] int64
        end).

(** The object.  [storages[key]] is a list of [num_storages] tensors, each
    a list of [num_steps + 1] timesteps. *)
Record t : Type := mk {
  _obs_shape : list nat;
  _action_shape : list nat;
  _num_steps : nat;
  _num_storages : nat;
  _batch_size : nat;
  _action_dim : nat;
  storages : key -> list (list tensor)
}.

(** The branch on [action_type] (lines 48-53). *)
Definition action_type_branch (action_type : string) (action_shape : list nat)
  : result nat :=
  if decide (action_type = "Discrete"%string) then Ok 1
  else if decide (action_type = "Box"%string) then getitem action_shape 0
  else Raise NotImplementedError.

(** [__init__].  The shared-memory segments allocated so far are the list
    [shm] of their specs; [torch.empty] with [share_memory_()] adds one.
    [junk] stands for the uninitialised contents. *)
Definition __init__ (junk : key -> tensor)
    (obs_shape action_shape : list nat) (action_type : string)
    (num_steps num_storages batch_size : nat) (shm : list spec)
  : result t * list spec :=
  match action_type_branch action_type action_shape with
  | Raise e => (Raise e, shm)
  | Ok action_dim =>
      match specs num_steps obs_shape action_shape with
      | Raise e => (Raise e, shm)
      | Ok sp =>
          (Ok {| _obs_shape := obs_shape; _action_shape := action_shape;
                 _num_steps := num_steps; _num_storages := num_storages;
                 _batch_size := batch_size; _action_dim := action_dim;
                 storages := fun k =>
                   replicate num_storages (replicate (num_steps + 1) (junk k)) |},
           shm ++ flat_map (fun _ => map sp keys) (seq 0 num_storages))
      end
  end.

(** The two index queues ([None] on Free is the sentinel). *)
Record queues : Type := mk_queues {
  free_queue : list (option nat);
  full_queue : list nat
}.

(** [[full_queue.get() for _ in range(batch_size)]]; [None] when the queue
    runs empty before that, where the call blocks. *)
Fixpoint get_indices (batch_size : nat) (full : list nat)
  : option (list nat * list nat) :=
  match batch_size with
  | 0 => Some ([], full)
  | S n =>
      match full with
      | [] => None
      | i :: full' =>
          match get_indices n full' with
          | Some (indices, rest) => Some (i :: indices, rest)
          | None => None
          end
      end
  end.

(** The batch: for every key, [torch.stack([storages[key][i] for i in
    indices], dim=1)], a new tensor holding one slot per batch position. *)
Definition torch_stack (tensors : list (list tensor))
  : result (list (list tensor)) :=
  match tensors with
  | [] => Raise RuntimeError    (* a non-empty list is expected *)
  | _ => Ok tensors
  end.

Definition build_batch (storages : key -> list (list tensor))
    (indices : list nat) : result (key -> list (list tensor)) :=
  for_each
    (fun (batch : key -> list (list tensor)) k =>
       slots ← getitems (storages k) indices;
       col ← torch_stack slots;
       Ok (<[k := col]> batch))
    keys (fun _ => []).

(** [zip] over the unpacked [rows]: the tuples of the [j]-th elements, as
    long as every row has one. *)
Fixpoint zip_rows {A} (fuel : nat) (rows : list (list A)) : list (list A) :=
  match fuel with
  | 0 => []
  | S fuel' =>
      match mapM head rows with
      | Some ts => ts :: zip_rows fuel' (map tail rows)
      | None => []
      end
  end.

Definition zip_star {A} (rows : list (list A)) : list (list A) :=
  match rows with
  | [] => []
  | r :: _ => zip_rows (length r) rows
  end.

(** The generator object [sample] returns as [init_actor_states]:

    a generator expression yielding [torch.cat(ts, dim=1)] for [ts] in the
    [zip] of the state tuples [init_actor_state_storages[i]], [i] in
    [indices].

    Creating it evaluates the list of state tuples and builds the [zip]
    iterator; the tuples [ts] it holds are references to the shared state
    tensors, [(i, j)] standing for [init_actor_state_storages[i][j]].  The
    [torch.cat] calls run when the generator is iterated. *)
Record state_generator : Type := mk_generator {
  pending : list (list (nat * nat))
}.

Definition make_state_generator (init_actor_state_storages : list (list tensor))
    (indices : list nat) : result state_generator :=
  states ← getitems init_actor_state_storages indices;
  Ok (mk_generator
        (zip_star
           (zip_with (fun i state => map (pair i) (seq 0 (length state)))
              indices states))).

(** Iterating the generator to its end, against the state buffers as they
    are then: each [torch.cat(ts, dim=1)] reads the tensors [ts] refers
    to, and yields one tensor per batch position. *)
Definition consume (init_actor_state_storages : list (list tensor))
    (g : state_generator) : result (list (list tensor)) :=
  for_each
    (fun out ts =>
       cat ← for_each
               (fun acc (r : nat * nat) =>
                  state ← getitem init_actor_state_storages r.1;
                  tensor ← getitem state r.2;
                  Ok (acc ++ [tensor]))
               ts [];
       Ok (out ++ [cat]))
    (pending g) [].

(** [sample], run without interference; [None] when it blocks.  The
    result is the value returned (or the exception) and the queues
    afterwards.  (The final [.to(device)] moves the batch and leaves its
    values as they are.) *)
Definition sample (batch_size : nat) (q : queues)
    (storages : key -> list (list tensor))
    (init_actor_state_storages : list (list tensor))
  : option (result ((key -> list (list tensor)) * state_generator) * queues) :=
  match get_indices batch_size (full_queue q) with
  | None => None
  | Some (indices, full') =>
      Some
        match build_batch storages indices with
        | Raise e => (Raise e, mk_queues (free_queue q) full')
        | Ok batch =>
            match make_state_generator init_actor_state_storages indices with
            | Raise e => (Raise e, mk_queues (free_queue q) full')
            | Ok init_actor_states =>
                (Ok (batch, init_actor_states),
                 mk_queues (free_queue q ++ map Some indices) full')
            end
        end
  end.

(** The second half of C10 as the specification states it: for
    ["Discrete"] and ["Box"] nothing is raised on the action-type
    branch. *)
Definition never_raises_on_branch (action_type : string)
    (action_shape : list nat) : Prop :=
  action_type = "Discrete"%string \/ action_type = "Box"%string ->
  is_ok (action_type_branch action_type action_shape).

End DistributedStorage.

(** ** [Environment]: the adapter of one Gym-like environment *)

Module Environment.

(** [int32] arithmetic wraps around. *)
Definition wrap32 (z : Z) : Z := ((z + 2 ^ 31) mod 2 ^ 32 - 2 ^ 31)%Z.

(** The [(1, 1)] tensors that hold the episode counters.  They are mutable
    objects: [self.episode_return += reward] changes the tensor in place
    and every reference to it sees the change.  A reference is a cell
    number; [next_float] and [next_int] are the first unused cells. *)
Record heap : Type := mk_heap {
  floats : nat -> R;
  ints : nat -> Z;
  next_float : nat;
  next_int : nat
}.

Definition empty_heap : heap := mk_heap (fun _ => 0%R) (fun _ => 0%Z) 0 0.

(** [torch.zeros(1, 1)] *)
Definition zeros_float (h : heap) : nat * heap :=
  (next_float h,
   mk_heap (<[next_float h := 0%R]> (floats h)) (ints h)
     (S (next_float h)) (next_int h)).

(** [torch.zeros(1, 1, dtype=torch.int32)] *)
Definition zeros_int (h : heap) : nat * heap :=
  (next_int h,
   mk_heap (floats h) (<[next_int h := 0%Z]> (ints h))
     (next_float h) (S (next_int h))).

(** The dictionary [reset] and [step] return.  [episode_return] and
    [episode_step] are references to the adapter's tensors, not copies. *)
Record frame : Type := mk_frame {
  f_obs : list Z;
  f_reward : R;
  f_terminated : bool;     (* a uint8 tensor holding 0 or 1 *)
  f_truncated : bool;
  f_episode_return : nat;  (* cell of [floats] *)
  f_episode_step : nat;    (* cell of [ints] *)
  f_last_action : tensor
}.

Section Adapter.

(** The wrapped environment: its state, [env.reset(seed=...)] and
    [env.step(action)] with the [info] results left out. *)
Variable E : Type.
Variable env_reset : option Z -> E -> list Z * E.
Variable env_step : scalar -> E -> (list Z * R * bool * bool) * E.

Record t : Type := mk {
  env : E;
  episode_return : option nat;
  episode_step : option nat
}.

Definition __init__ (e : E) : t := mk e None None.

(** [_format_obs]: two leading dimensions of size one are added. *)
Definition _format_obs (o : list Z) : list Z := o.

Definition reset (seed : Z) (self : t) (h : heap) : frame * t * heap :=
  let init_reward := 0%R in
  let init_last_action := TInt 0 in
  let '(episode_return, h) := zeros_float h in
  let '(episode_step, h) := zeros_int h in
  let init_terminated := true in
  let init_truncated := true in
  let '(o, e) := env_reset (Some seed) (env self) in
  let o := _format_obs o in
  (mk_frame o init_reward init_terminated init_truncated
     episode_return episode_step init_last_action,
   mk e (Some episode_return) (Some episode_step), h).

Definition step (action : tensor) (self : t) (h : heap)
  : result (frame * t * heap) :=
  a ← item action;
  let '(o, reward, terminated, truncated, e) := env_step a (env self) in
  match episode_step self, episode_return self with
  | Some episode_step, Some episode_return =>
      (* self.episode_step += 1; self.episode_return += reward *)
      let h := mk_heap (floats h)
                 (<[episode_step := wrap32 (ints h episode_step + 1)]> (ints h))
                 (next_float h) (next_int h) in
      let h := mk_heap
                 (<[episode_return := (floats h episode_return + reward)%R]>
                    (floats h))
                 (ints h) (next_float h) (next_int h) in
      if terminated || truncated then
        let '(o, e) := env_reset None e in
        let '(episode_return', h) := zeros_float h in
        let '(episode_step', h) := zeros_int h in
        Ok (mk_frame (_format_obs o) reward terminated truncated
              episode_return episode_step action,
            mk e (Some episode_return') (Some episode_step'), h)
      else
        Ok (mk_frame (_format_obs o) reward terminated truncated
              episode_return episode_step action,
            mk e (Some episode_return) (Some episode_step), h)
  | _, _ => Raise TypeError
  end.

End Adapter.

Arguments env {E} _.
Arguments episode_return {E} _.
Arguments episode_step {E} _.

(** The counters of an adapter are allocated cells. *)
Definition valid {E} (self : t E) (h : heap) : Prop :=
  exists pr ps, episode_return self = Some pr /\ episode_step self = Some ps /\
    pr < next_float h /\ ps < next_int h.

End Environment.

(** ** [DistributedTrainer]: the actor workers and the learner threads *)

Module DistributedTrainer.

(** A dictionary over the keys of the storages ([env_output],
    [actor_output]). *)
Definition dict : Type := key -> option tensor.

(** What every worker and learner shares: the slot pool and the
    recurrent-state buffers, in shared memory. *)
Record shared : Type := mk_shared {
  storages : key -> list (list tensor);
  init_actor_state_storages : list (list tensor)
}.

(** [env_output] as the dictionary of tensors it is; the two counters are
    read through their references. *)
Definition env_dict (h : Environment.heap) (fr : Environment.frame) : dict :=
  fun k =>
    match k with
    | Key.obs => Some (TInts (Environment.f_obs fr))
    | Key.reward => Some (TFloat (Environment.f_reward fr))
    | Key.terminated => Some (TBool (Environment.f_terminated fr))
    | Key.truncated => Some (TBool (Environment.f_truncated fr))
    | Key.episode_return =>
        Some (TFloat (Environment.floats h (Environment.f_episode_return fr)))
    | Key.episode_step =>
        Some (TInt (Environment.ints h (Environment.f_episode_step fr)))
    | Key.last_action => Some (Environment.f_last_action fr)
    | _ => None
    end.

(** Assigning into a storage tensor converts to its dtype; observations are
    kept as [uint8]. *)
Definition cast (k : key) (v : tensor) : tensor :=
  match k, v with
  | Key.obs, TInts l => TInts (map (fun z => z mod 256)%Z l)
  | _, _ => v
  end.

(** [storages[k][idx][t, ...] = v].  What can fail here is the indexing
    of the slot and of the timestep.  By the conventions above [v] is
    taken to fit the frame, and [k], being a [key], is a key of the
    storages: the errors of a tensor of another shape and of an unknown
    key are outside the embedding. *)
Definition write (stg : key -> list (list tensor)) (idx t : nat) (k : key)
    (v : tensor) : result (key -> list (list tensor)) :=
  slot ← getitem (stg k) idx;
  slot' ← setitem slot t (cast k v);
  Ok (<[k := <[idx := slot']> (stg k)]> stg).

(** [for key in d: storages[key][idx][t, ...] = d[key]] *)
Definition write_dict (stg : key -> list (list tensor)) (idx t : nat)
    (d : dict) : result (key -> list (list tensor)) :=
  for_each
    (fun stg k =>
       match d k with
       | Some v => write stg idx t k v
       | None => Ok stg
       end)
    keys stg.

(** [for i, tensor in enumerate(actor_state):
       init_actor_state_storages[idx][i][...] = tensor] *)
Definition write_actor_state (buffers : list (list tensor)) (idx : nat)
    (actor_state : list tensor) : result (list (list tensor)) :=
  for_each
    (fun buffers (it : nat * tensor) =>
       state ← getitem buffers idx;
       state' ← setitem state it.1 it.2;
       Ok (<[idx := state']> buffers))
    (zip (seq 0 (length actor_state)) actor_state) buffers.

(** The frame of a slot: [storages[k][idx][t]]. *)
Definition frame_at (stg : key -> list (list tensor)) (k : key) (idx t : nat)
  : option tensor :=
  slot ← stg k !! idx; slot !! t.

Section Act.

(** The environment of the worker. *)
Variable E : Type.
Variable env_reset : option Z -> E -> list Z * E.
Variable env_step : scalar -> E -> (list Z * R * bool * bool) * E.

(** The actor model: [init_state(batch_size=1)] and [get_action]. *)
Variable init_state : list tensor.
Variable get_action : dict -> list tensor -> dict * list tensor.

(** [cfgs.num_steps] and [cfgs.storage.batch_size]. *)
Variable num_steps : nat.
Variable batch_size : nat.

(** The local variables of [act]. *)
Record actor : Type := mk_actor {
  env : Environment.t E;
  heap : Environment.heap;
  env_output : Environment.frame;
  actor_output : dict;
  actor_state : list tensor
}.

(** What the local variables of a worker put into a frame: [env_output],
    then [actor_output] over it. *)
Definition merged (d1 d2 : dict) : dict :=
  fun k => match d2 k with Some v => Some v | None => d1 k end.

Definition written (a : actor) : dict :=
  merged (env_dict (heap a) (env_output a)) (actor_output a).

(** [act], up to its loop. *)
Definition act_start (gym_env : E) (seed : Z) : actor :=
  let env := Environment.__init__ E gym_env in
  let '(env_output, env, h) :=
    Environment.reset E env_reset seed env Environment.empty_heap in
  let actor_state := init_state in
  let '(actor_output, _) := get_action (env_dict h env_output) actor_state in
  mk_actor env h env_output actor_output actor_state.

(** The body of [for t in range(cfgs.num_steps)]. *)
Definition rollout_step (idx : nat) (st : actor * shared) (t : nat)
  : result (actor * shared) :=
  let '(a, sh) := st in
  let '(actor_output, actor_state) :=
    get_action (env_dict (heap a) (env_output a)) (actor_state a) in
  action ← match actor_output Key.action with
           | Some v => Ok v
           | None => Raise KeyError
           end;
  r ← Environment.step E env_reset env_step action (env a) (heap a);
  let '(env_output, env, h) := r in
  stg ← write_dict (storages sh) idx (t + 1) (env_dict h env_output);
  stg ← write_dict stg idx (t + 1) actor_output;
  Ok (mk_actor env h env_output actor_output actor_state,
      mk_shared stg (init_actor_state_storages sh)).

(** One iteration of [while True] after a real index was dequeued, up to
    [full_queue.put(idx)]. *)
Definition act_body (idx : nat) (st : actor * shared) : result (actor * shared) :=
  let '(a, sh) := st in
  stg ← write_dict (storages sh) idx 0 (env_dict (heap a) (env_output a));
  stg ← write_dict stg idx 0 (actor_output a);
  buffers ← write_actor_state (init_actor_state_storages sh) idx (actor_state a);
  for_each (rollout_step idx) (seq 0 num_steps) (a, mk_shared stg buffers).

(** *** The pipeline as a transition system

    Workers are processes running [act]; learners are threads running
    [sample_and_update], whose [sample] takes the lock, dequeues
    [batch_size] indices from Full, builds the batch and puts the indices
    back onto Free.  Every queue operation is one step; the rollout of a
    worker into the slot it holds is one step. *)

(** Where a worker is in [act]. *)
Inductive wpc : Set :=
| WClaim                  (* at [idx = free_queue.get()] *)
| WFill (idx : nat)       (* holds [idx], before the writes *)
| WPublish (idx : nat)    (* at [full_queue.put(idx)] *)
| WStopped                (* left the loop *)
| WFaulted (idx : nat).   (* an exception escaped while it held [idx] *)

Record worker : Type := mk_worker { w_pc : wpc; w_local : actor }.

(** Where a learner is in [sample_and_update]. *)
Inductive lpc : Set :=
| LIdle                           (* outside [sample] *)
| LCollect (indices : list nat)   (* in the locked comprehension *)
| LRelease (todo : list nat)      (* in [for i in indices: free_queue.put(i)] *)
| LFaulted (indices : list nat).  (* an exception escaped [sample] *)

Record system : Type := mk_system {
  free_queue : list (option nat);
  full_queue : list nat;
  store : shared;
  workers : list worker;
  learners : list lpc;
  lock : bool
}.

Inductive event : Set :=
| EvSentinel                              (* [free_queue.put(None)] in [train] *)
| EvFreeGet (w : nat) (r : option nat)
| EvFill (w idx : nat)
| EvFault (w idx : nat) (e : exn)
| EvFullPut (w idx : nat)
| EvLock (l : nat)
| EvFullGet (l idx : nat)
| EvBatch (l : nat)
| EvBatchFault (l : nat) (e : exn)
| EvFreePut (l idx : nat)
| EvReturn (l : nat).

(** The batch and the state generator of [sample]. *)
Definition sample_build (sh : shared) (indices : list nat)
  : result ((key -> list (list tensor)) * DistributedStorage.state_generator) :=
  batch ← DistributedStorage.build_batch (storages sh) indices;
  g ← DistributedStorage.make_state_generator
         (init_actor_state_storages sh) indices;
  Ok (batch, g).

Inductive step : system -> event -> system -> Prop :=
| step_sentinel s :
    step s EvSentinel
      (mk_system (free_queue s ++ [None]) (full_queue s) (store s)
         (workers s) (learners s) (lock s))
| step_get_index s w a idx q :
    workers s !! w = Some (mk_worker WClaim a) ->
    free_queue s = Some idx :: q ->
    step s (EvFreeGet w (Some idx))
      (mk_system q (full_queue s) (store s)
         (<[w := mk_worker (WFill idx) a]> (workers s)) (learners s) (lock s))
| step_get_sentinel s w a q :
    workers s !! w = Some (mk_worker WClaim a) ->
    free_queue s = None :: q ->
    step s (EvFreeGet w None)
      (mk_system q (full_queue s) (store s)
         (<[w := mk_worker WStopped a]> (workers s)) (learners s) (lock s))
| step_fill s w a idx a' sh' :
    workers s !! w = Some (mk_worker (WFill idx) a) ->
    act_body idx (a, store s) = Ok (a', sh') ->
    step s (EvFill w idx)
      (mk_system (free_queue s) (full_queue s) sh'
         (<[w := mk_worker (WPublish idx) a']> (workers s)) (learners s) (lock s))
| step_fault s w a idx e sh' :
    workers s !! w = Some (mk_worker (WFill idx) a) ->
    act_body idx (a, store s) = Raise e ->
    (* what the worker wrote before the exception is not tracked *)
    step s (EvFault w idx e)
      (mk_system (free_queue s) (full_queue s) sh'
         (<[w := mk_worker (WFaulted idx) a]> (workers s)) (learners s) (lock s))
| step_full_put s w a idx :
    workers s !! w = Some (mk_worker (WPublish idx) a) ->
    step s (EvFullPut w idx)
      (mk_system (free_queue s) (full_queue s ++ [idx]) (store s)
         (<[w := mk_worker WClaim a]> (workers s)) (learners s) (lock s))
| step_lock s l :
    learners s !! l = Some LIdle ->
    lock s = false ->
    step s (EvLock l)
      (mk_system (free_queue s) (full_queue s) (store s) (workers s)
         (<[l := LCollect []]> (learners s)) true)
| step_full_get s l indices idx q :
    learners s !! l = Some (LCollect indices) ->
    length indices < batch_size ->
    full_queue s = idx :: q ->
    step s (EvFullGet l idx)
      (mk_system (free_queue s) q (store s) (workers s)
         (<[l := LCollect (indices ++ [idx])]> (learners s)) (lock s))
| step_batch s l indices r :
    learners s !! l = Some (LCollect indices) ->
    length indices = batch_size ->
    sample_build (store s) indices = Ok r ->
    step s (EvBatch l)
      (mk_system (free_queue s) (full_queue s) (store s) (workers s)
         (<[l := LRelease indices]> (learners s)) false)
| step_batch_fault s l indices e :
    learners s !! l = Some (LCollect indices) ->
    length indices = batch_size ->
    sample_build (store s) indices = Raise e ->
    step s (EvBatchFault l e)
      (mk_system (free_queue s) (full_queue s) (store s) (workers s)
         (<[l := LFaulted indices]> (learners s)) false)
| step_free_put s l idx todo :
    learners s !! l = Some (LRelease (idx :: todo)) ->
    step s (EvFreePut l idx)
      (mk_system (free_queue s ++ [Some idx]) (full_queue s) (store s)
         (workers s) (<[l := LRelease todo]> (learners s)) (lock s))
| step_return s l :
    learners s !! l = Some (LRelease []) ->
    step s (EvReturn l)
      (mk_system (free_queue s) (full_queue s) (store s) (workers s)
         (<[l := LIdle]> (learners s)) (lock s)).

(** Runs of the system, with the events in order. *)
Inductive exec : system -> list event -> system -> Prop :=
| exec_nil s : exec s [] s
| exec_cons s ev s' tr s'' :
    step s ev s' -> exec s' tr s'' -> exec s (ev :: tr) s''.

(** The state [train] sets up: every index [0 .. num_storages - 1] on Free,
    Full empty, every worker at its first [free_queue.get()], every
    learner outside [sample]. *)
Definition initial (num_storages : nat) (sh : shared) (actors : list actor)
    (num_learners : nat) : system :=
  mk_system (map Some (seq 0 num_storages)) [] sh
    (map (mk_worker WClaim) actors) (replicate num_learners LIdle) false.

End Act.

Arguments w_pc {E} _.
Arguments w_local {E} _.
Arguments free_queue {E} _.
Arguments full_queue {E} _.
Arguments store {E} _.
Arguments workers {E} _.
Arguments learners {E} _.
Arguments lock {E} _.

(** *** The transition system, executably

    [apply_event s ev] is the state after the event [ev] when [s] allows
    it.  (For a fault it leaves the storages as they were.) *)

Section Run.

Variable E : Type.
Variable env_reset : option Z -> E -> list Z * E.
Variable env_step : scalar -> E -> (list Z * R * bool * bool) * E.
Variable get_action : dict -> list tensor -> dict * list tensor.
Variable num_steps : nat.
Variable batch_size : nat.

Definition set_worker (s : system E) (w : nat) (pc : wpc) (a : actor E)
  : list (worker E) :=
  <[w := mk_worker E pc a]> (workers s).

Definition apply_event (s : system E) (ev : event) : option (system E) :=
  match ev with
  | EvSentinel =>
      Some (mk_system E (free_queue s ++ [None]) (full_queue s) (store s)
              (workers s) (learners s) (lock s))
  | EvFreeGet w r =>
      match workers s !! w, free_queue s with
      | Some (mk_worker _ WClaim a), r' :: q =>
          if decide (r' = r) then
            Some (mk_system E q (full_queue s) (store s)
                    (set_worker s w
                       match r with Some idx => WFill idx | None => WStopped end
                       a)
                    (learners s) (lock s))
          else None
      | _, _ => None
      end
  | EvFill w idx =>
      match workers s !! w with
      | Some (mk_worker _ (WFill idx') a) =>
          if decide (idx' = idx) then
            match act_body E env_reset env_step get_action num_steps idx
                    (a, store s) with
            | Ok (a', sh') =>
                Some (mk_system E (free_queue s) (full_queue s) sh'
                        (set_worker s w (WPublish idx) a') (learners s) (lock s))
            | Raise _ => None
            end
          else None
      | _ => None
      end
  | EvFault w idx e =>
      match workers s !! w with
      | Some (mk_worker _ (WFill idx') a) =>
          if decide (idx' = idx) then
            match act_body E env_reset env_step get_action num_steps idx
                    (a, store s) with
            | Raise e' =>
                if decide (e' = e) then
                  Some (mk_system E (free_queue s) (full_queue s) (store s)
                          (set_worker s w (WFaulted idx) a) (learners s) (lock s))
                else None
            | Ok _ => None
            end
          else None
      | _ => None
      end
  | EvFullPut w idx =>
      match workers s !! w with
      | Some (mk_worker _ (WPublish idx') a) =>
          if decide (idx' = idx) then
            Some (mk_system E (free_queue s) (full_queue s ++ [idx]) (store s)
                    (set_worker s w WClaim a) (learners s) (lock s))
          else None
      | _ => None
      end
  | EvLock l =>
      match learners s !! l, lock s with
      | Some LIdle, false =>
          Some (mk_system E (free_queue s) (full_queue s) (store s) (workers s)
                  (<[l := LCollect []]> (learners s)) true)
      | _, _ => None
      end
  | EvFullGet l idx =>
      match learners s !! l, full_queue s with
      | Some (LCollect indices), idx' :: q =>
          if decide (length indices < batch_size /\ idx' = idx) then
            Some (mk_system E (free_queue s) q (store s) (workers s)
                    (<[l := LCollect (indices ++ [idx])]> (learners s)) (lock s))
          else None
      | _, _ => None
      end
  | EvBatch l =>
      match learners s !! l with
      | Some (LCollect indices) =>
          if decide (length indices = batch_size) then
            match sample_build (store s) indices with
            | Ok _ =>
                Some (mk_system E (free_queue s) (full_queue s) (store s)
                        (workers s) (<[l := LRelease indices]> (learners s)) false)
            | Raise _ => None
            end
          else None
      | _ => None
      end
  | EvBatchFault l e =>
      match learners s !! l with
      | Some (LCollect indices) =>
          if decide (length indices = batch_size) then
            match sample_build (store s) indices with
            | Raise e' =>
                if decide (e' = e) then
                  Some (mk_system E (free_queue s) (full_queue s) (store s)
                          (workers s) (<[l := LFaulted indices]> (learners s))
                          false)
                else None
            | Ok _ => None
            end
          else None
      | _ => None
      end
  | EvFreePut l idx =>
      match learners s !! l with
      | Some (LRelease (idx' :: todo)) =>
          if decide (idx' = idx) then
            Some (mk_system E (free_queue s ++ [Some idx]) (full_queue s)
                    (store s) (workers s) (<[l := LRelease todo]> (learners s))
                    (lock s))
          else None
      | _ => None
      end
  | EvReturn l =>
      match learners s !! l with
      | Some (LRelease []) =>
          Some (mk_system E (free_queue s) (full_queue s) (store s) (workers s)
                  (<[l := LIdle]> (learners s)) (lock s))
      | _ => None
      end
  end.

Fixpoint run (s : system E) (tr : list event) : option (system E) :=
  match tr with
  | [] => Some s
  | ev :: tr' =>
      match apply_event s ev with
      | Some s' => run s' tr'
      | None => None
      end
  end.

End Run.

(** The indices on Free (the sentinels left out). *)
Definition free_indices {E} (s : system E) : list nat :=
  omap (fun i => i) (free_queue s).

Definition held_by_worker (pc : wpc) : list nat :=
  match pc with
  | WFill idx | WPublish idx => [idx]
  | _ => []
  end.

Definition held_by_learner (pc : lpc) : list nat :=
  match pc with
  | LCollect indices => indices
  | LRelease todo => todo
  | _ => []
  end.

(** The indices held by a worker or a learner. *)
Definition in_flight {E} (s : system E) : list nat :=
  flat_map (fun w => held_by_worker (w_pc w)) (workers s) ++
  flat_map held_by_learner (learners s).

Definition abandoned_by_worker (pc : wpc) : list nat :=
  match pc with
  | WFaulted idx => [idx]
  | _ => []
  end.

Definition abandoned_by_learner (pc : lpc) : list nat :=
  match pc with
  | LFaulted indices => indices
  | _ => []
  end.

(** The indices a worker or learner held when an exception ended it. *)
Definition abandoned {E} (s : system E) : list nat :=
  flat_map (fun w => abandoned_by_worker (w_pc w)) (workers s) ++
  flat_map abandoned_by_learner (learners s).

(** The steps of the protocol proper: no exception. *)
Definition protocol_event (ev : event) : Prop :=
  match ev with
  | EvFault _ _ _ | EvBatchFault _ _ => False
  | _ => True
  end.

(** The worker that performs an event, if one does. *)
Definition worker_of (ev : event) : option nat :=
  match ev with
  | EvFreeGet w _ | EvFill w _ | EvFault w _ _ | EvFullPut w _ => Some w
  | _ => None
  end.

(** What C2 says of the recurrent states [sample] returns: they are
    materialised, so when a worker afterwards claims one of the indices
    [sample] put back onto Free and writes its recurrent state into the
    buffer of that slot, iterating the returned generator still gives
    what it would have given at the time of the call. *)
Definition states_materialized (batch_size : nat)
    (q : DistributedStorage.queues) (sh : shared) : Prop :=
  forall batch g q' idx actor_state buffers',
    DistributedStorage.sample batch_size q (storages sh)
      (init_actor_state_storages sh) = Some (Ok (batch, g), q') ->
    Some idx ∈ DistributedStorage.free_queue q' ->
    write_actor_state (init_actor_state_storages sh) idx actor_state
      = Ok buffers' ->
    DistributedStorage.consume buffers' g =
    DistributedStorage.consume (init_actor_state_storages sh) g.

End DistributedTrainer.

(** ** A small instance of the pipeline

    One environment that never ends its episode, a constant policy, two
    slots of one step, one worker and one learner. *)

Module Toy.
Import DistributedTrainer.

Definition env_reset (seed : option Z) (e : unit) : list Z * unit := ([0%Z], e).

Definition env_step (a : scalar) (e : unit)
  : (list Z * R * bool * bool) * unit :=
  ([match a with SInt z => z | _ => 0%Z end], 1%R, false, false, e).

Definition init_state : list tensor := [TFloats [0%R]].

Definition get_action (env_output : dict) (state : list tensor)
  : dict * list tensor :=
  (fun k =>
     match k with
     | Key.policy_logits => Some (TFloats [0%R; 0%R])
     | Key.baseline => Some (TFloat 0)
     | Key.action => Some (TInt 1)
     | _ => None
     end,
   state).

Definition num_steps : nat := 1.
Definition batch_size : nat := 1.

Definition the_actor : actor unit :=
  act_start unit env_reset init_state get_action tt 0.

Definition pool (num_storages : nat) : shared :=
  mk_shared
    (fun _ => replicate num_storages (replicate (num_steps + 1) (TInt 0)))
    (replicate num_storages init_state).

Definition start : system unit := initial unit 2 (pool 2) [the_actor] 1.

(** The same with a single slot, which the worker fills twice: between
    its two rollouts ([refill_between]) the learner takes the slot and
    gives it back. *)
Definition start1 : system unit := initial unit 1 (pool 1) [the_actor] 1.

Definition refill_between : list event :=
  [EvFullPut 0 0; EvLock 0; EvFullGet 0 0; EvBatch 0; EvFreePut 0 0;
   EvReturn 0; EvFreeGet 0 (Some 0)].

(** A run: the worker fills both slots and publishes them, dequeues the
    sentinel and stops; the learner then takes slot 0 and gives it back. *)
Definition trace : list event :=
  [EvFreeGet 0 (Some 0); EvFill 0 0; EvFullPut 0 0; EvSentinel;
   EvFreeGet 0 (Some 1); EvFill 0 1; EvFullPut 0 1]
  ++ EvFreeGet 0 None
  :: [EvLock 0; EvFullGet 0 0; EvBatch 0; EvFreePut 0 0; EvReturn 0].

End Toy.

(** ** Entries of a rollout field and the GAE equation *)

Module RolloutLayout.
Import VanillaRolloutStorage.

(** [x[t][e]]: the entry of environment [e] in frame [t]. *)
Definition entry {A} (x : list (list A)) (t e : nat) : option A :=
  f ← x !! t; f !! e.

(** What the backward loop of [compute_returns_and_advantages] reads at
    [step] besides the rewards and values of the step itself: the values
    of the next step (the bootstrap values [last_values] at the last step)
    and the advantage of the next step (the initial [gae = 0] at the last
    step). *)
Definition next_values_at (s : t) (last_values : list R) (step : nat)
  : option (list R) :=
  if decide (step = _num_steps s - 1) then Some last_values
  else values s !! (step + 1).

Definition next_gae_at (s : t) (adv : list (list R)) (step : nat)
  : option (list R) :=
  if decide (step = _num_steps s - 1) then Some (replicate (_num_envs s) 0%R)
  else adv !! (step + 1).

(** The equation of generalised advantage estimation at [step], for the
    advantages [adv] before standardisation:
    [delta = rewards + discount * next_values * (1 - terminated) - values],
    [adv = delta + discount * gae_lambda * (1 - terminated) * next_adv]. *)
Definition gae_equation (s : t) (last_values : list R) (adv : list (list R))
    (step : nat) : Prop :=
  exists r v te nv g,
    rewards s !! step = Some r /\ values s !! step = Some v /\
    terminateds s !! (step + 1) = Some te /\
    next_values_at s last_values step = Some nv /\
    next_gae_at s adv step = Some g /\
    adv !! step =
      Some (tadd (tsub (tadd r (tmul (smul (_discount s) nv) (ssub 1 te))) v)
              (tmul (smul (_discount s * _gae_lambda s) (ssub 1 te)) g)).

(** [mini_batch_size = batch_size // num_mini_batch] of [generator], with
    [batch_size = num_envs * num_steps]. *)
Definition mini_batch_size (s : t) (num_mini_batch : Z) : nat :=
  Z.to_nat (Z.of_nat (_num_envs s * _num_steps s) / num_mini_batch).

(** The tuple [b] yielded for a mini-batch has [m] rows: every one of its
    eight tensors has leading dimension [m]. *)
Definition has_rows (b : batch) (m : nat) : Prop :=
  length (batch_obs b) = m /\ length (batch_actions b) = m /\
  length (batch_values b) = m /\ length (batch_returns b) = m /\
  length (batch_terminateds b) = m /\ length (batch_truncateds b) = m /\
  length (batch_old_log_probs b) = m /\ length (adv_targ b) = m.

(** Row [j] of the tuple [b] is the transition of environment [e] at step
    [t] as the storage [s] holds it (the flags: those of frame [t]). *)
Definition row_is (s : t) (b : batch) (j t e : nat) : Prop :=
  batch_obs b !! j = entry (obs s) t e /\
  batch_actions b !! j = entry (actions s) t e /\
  batch_values b !! j = entry (values s) t e /\
  batch_returns b !! j = entry (returns s) t e /\
  batch_terminateds b !! j = entry (terminateds s) t e /\
  batch_truncateds b !! j = entry (truncateds s) t e /\
  batch_old_log_probs b !! j = entry (log_probs s) t e /\
  adv_targ b !! j = entry (advantages s) t e.

End RolloutLayout.

(** ** [DecoupledRolloutStorage]

    [hsuanwu/xploit/storage/decoupled_rollout_storage.py].  The attributes
    [_action_shape] and [_action_type] are those [BaseStorage.__init__]
    has set when the constructor reads them. *)

Module DecoupledRolloutStorage.

(** The tensor operations and the samplers are those of
    [VanillaRolloutStorage]. *)
Local Abbreviation torch_empty := VanillaRolloutStorage.torch_empty.
Local Abbreviation standardize := VanillaRolloutStorage.standardize.
Local Abbreviation batch_sampler := VanillaRolloutStorage.batch_sampler.
Local Abbreviation subset_random_sampler :=
  VanillaRolloutStorage.subset_random_sampler.
Local Abbreviation view := VanillaRolloutStorage.view.
Local Abbreviation index_select := VanillaRolloutStorage.index_select.
Local Abbreviation shaped := VanillaRolloutStorage.shaped.

Definition array := list R.

(** The storage object.  Against [VanillaRolloutStorage], [obs] has one
    frame more and there is the field [adv_preds]; the fields of shape
    [(num_steps, num_envs)] keep one real per environment in each frame. *)
Record t : Type := mk {
  _num_steps : nat;
  _num_envs : nat;
  _discount : R;
  _gae_lambda : R;
  _action_dim : nat;
  obs : list (list array);        (* (num_steps + 1, num_envs, *obs_shape) *)
  actions : list (list array);    (* (num_steps, num_envs[, action_dim]) *)
  rewards : list (list R);         (* (num_steps, num_envs) *)
  terminateds : list (list R);     (* (num_steps + 1, num_envs) *)
  truncateds : list (list R);      (* (num_steps + 1, num_envs) *)
  log_probs : list (list R);       (* (num_steps, num_envs) *)
  values : list (list R);          (* (num_steps, num_envs) *)
  returns : list (list R);         (* (num_steps, num_envs) *)
  advantages : list (list R);      (* (num_steps, num_envs) *)
  adv_preds : list (list R);       (* (num_steps, num_envs) *)
  _global_step : nat
}.

Definition __init__ (junk : R) (junk_t : array)
    (_action_shape : list nat) (_action_type : string)
    (num_steps num_envs : nat) (discount gae_lambda : R) : result t :=
  let obs := torch_empty junk_t (num_steps + 1) num_envs in
  action_dim ←
    (if decide (_action_type = "Discrete"%string) then Ok 1
     else if decide (_action_type = "Box"%string) then getitem _action_shape 0
     else if decide (_action_type = "MultiBinary"%string)
          then getitem _action_shape 0
     else Raise NotImplementedError);
  let actions := torch_empty junk_t num_steps num_envs in
  let rewards := torch_empty junk num_steps num_envs in
  let terminateds :=
    torch_empty junk (num_steps + 1) num_envs in
  let truncateds :=
    torch_empty junk (num_steps + 1) num_envs in
  terminateds ← setitem terminateds 0 (replicate num_envs 0%R);
  truncateds ← setitem truncateds 0 (replicate num_envs 0%R);
  Ok {| _num_steps := num_steps; _num_envs := num_envs;
        _discount := discount; _gae_lambda := gae_lambda;
        _action_dim := action_dim;
        obs := obs; actions := actions; rewards := rewards;
        terminateds := terminateds; truncateds := truncateds;
        log_probs := torch_empty junk num_steps num_envs;
        values := torch_empty junk num_steps num_envs;
        returns := torch_empty junk num_steps num_envs;
        advantages := torch_empty junk num_steps num_envs;
        adv_preds := torch_empty junk num_steps num_envs;
        _global_step := 0 |}.

(** One transition of every environment, as passed to [add].  [tr_values]
    and [tr_adv_preds] are the columns [values[:, 0]] and
    [adv_preds[:, 0]] of the [(num_envs, 1)] tensors handed in. *)
Record transition : Type := mk_transition {
  tr_obs : list array;
  tr_actions : list array;
  tr_rewards : list R;
  tr_terminateds : list R;
  tr_truncateds : list R;
  tr_next_obs : list array;
  tr_log_probs : list R;
  tr_values : list R;
  tr_adv_preds : list R
}.

(** [add]: write at the cursor, the next observation one frame further,
    and advance the cursor modulo [num_steps]. *)
Definition add (s : t) (x : transition) : result t :=
  let g := _global_step s in
  obs' ← setitem (obs s) g (tr_obs x);
  actions' ← setitem (actions s) g (tr_actions x);
  rewards' ← setitem (rewards s) g (tr_rewards x);
  terminateds' ← setitem (terminateds s) (g + 1) (tr_terminateds x);
  truncateds' ← setitem (truncateds s) (g + 1) (tr_truncateds x);
  obs' ← setitem obs' (g + 1) (tr_next_obs x);
  log_probs' ← setitem (log_probs s) g (tr_log_probs x);
  values' ← setitem (values s) g (tr_values x);
  adv_preds' ← setitem (adv_preds s) g (tr_adv_preds x);
  if decide (_num_steps s = 0) then Raise ZeroDivisionError
  else
    Ok {| _num_steps := _num_steps s; _num_envs := _num_envs s;
          _discount := _discount s; _gae_lambda := _gae_lambda s;
          _action_dim := _action_dim s;
          obs := obs'; actions := actions'; rewards := rewards';
          terminateds := terminateds'; truncateds := truncateds';
          log_probs := log_probs'; values := values';
          returns := returns s; advantages := advantages s;
          adv_preds := adv_preds';
          _global_step := (g + 1) mod _num_steps s |}.

(** [update]: copy the last frame of the two flag fields into frame 0. *)
Definition update (s : t) : result t :=
  te ← getitem_last (terminateds s);
  terminateds' ← setitem (terminateds s) 0 te;
  tr ← getitem_last (truncateds s);
  truncateds' ← setitem (truncateds s) 0 tr;
  Ok {| _num_steps := _num_steps s; _num_envs := _num_envs s;
        _discount := _discount s; _gae_lambda := _gae_lambda s;
        _action_dim := _action_dim s;
        obs := obs s; actions := actions s; rewards := rewards s;
        terminateds := terminateds'; truncateds := truncateds';
        log_probs := log_probs s; values := values s;
        returns := returns s; advantages := advantages s;
        adv_preds := adv_preds s;
        _global_step := _global_step s |}.

(** The body of the backward loop of [compute_returns_and_advantages];
    [last_values] is the column [last_values[:, 0]]. *)
Definition gae_step (s : t) (last_values : list R)
    (acc : list R * list (list R)) (step : nat)
  : result (list R * list (list R)) :=
  nn ← (if decide (step = _num_steps s - 1)
        then te ← getitem_last (terminateds s);
             Ok (ssub 1 te, last_values)
        else te ← getitem (terminateds s) (step + 1);
             v ← getitem (values s) (step + 1);
             Ok (ssub 1 te, v));
  let next_non_terminal := nn.1 in
  let next_values := nn.2 in
  r ← getitem (rewards s) step;
  v ← getitem (values s) step;
  let delta :=
    tsub (tadd r (tmul (smul (_discount s) next_values) next_non_terminal)) v in
  let gae :=
    tadd delta
      (tmul (smul (_discount s * _gae_lambda s) next_non_terminal) acc.1) in
  adv ← setitem acc.2 step gae;
  Ok (gae, adv).

Definition compute_returns_and_advantages (s : t) (last_values : list R)
  : result t :=
  acc ← for_each (gae_step s last_values) (rev (seq 0 (_num_steps s)))
        (replicate (_num_envs s) 0%R, advantages s);
  let adv := acc.2 in
  Ok {| _num_steps := _num_steps s; _num_envs := _num_envs s;
        _discount := _discount s; _gae_lambda := _gae_lambda s;
        _action_dim := _action_dim s;
        obs := obs s; actions := actions s; rewards := rewards s;
        terminateds := terminateds s; truncateds := truncateds s;
        log_probs := log_probs s; values := values s;
        returns := zip_with tadd adv (values s);
        advantages := standardize adv;
        adv_preds := adv_preds s;
        _global_step := _global_step s |}.

(** The index lists [sample] iterates over: everything before its [for]
    loop, with the samplers of [torch.utils.data]. *)
Definition sample_indices (s : t) (num_mini_batch : Z)
    (randperm : list nat) : result (list (list nat)) :=
  let batch_size := _num_envs s * _num_steps s in
  if decide (Z.of_nat batch_size >= num_mini_batch)%Z then
    if decide (num_mini_batch = 0)%Z then Raise ZeroDivisionError
    else
      let mini_batch_size := (Z.of_nat batch_size / num_mini_batch)%Z in
      if decide (mini_batch_size <= 0)%Z then Raise ValueError
      else
        Ok (batch_sampler (Z.to_nat mini_batch_size) []
              (subset_random_sampler
                 (seq 0 batch_size) randperm))
  else Raise AssertionError.

(** The tuple yielded for one mini-batch. *)
Record batch : Type := mk_batch {
  batch_obs : list array;
  batch_actions : list array;
  batch_values : list R;
  batch_adv_preds : list R;
  batch_returns : list R;
  batch_terminateds : list R;
  batch_truncateds : list R;
  batch_old_log_probs : list R;
  adv_targ : list R
}.

(** The body of the [for indices in sampler] loop, up to the [yield]. *)
Definition gather (s : t) (indices : list nat) : result batch :=
  batch_obs ← index_select (view (removelast (obs s))) indices;
  batch_actions ← index_select (view (actions s)) indices;
  batch_values ← index_select (view (values s)) indices;
  batch_adv_preds ← index_select (view (adv_preds s)) indices;
  batch_returns ← index_select (view (returns s)) indices;
  batch_terminateds ← index_select (view (removelast (terminateds s))) indices;
  batch_truncateds ← index_select (view (removelast (truncateds s))) indices;
  batch_old_log_probs ← index_select (view (log_probs s)) indices;
  adv_targ ← index_select (view (advantages s)) indices;
  Ok (mk_batch batch_obs batch_actions batch_values batch_adv_preds
        batch_returns batch_terminateds batch_truncateds batch_old_log_probs
        adv_targ).

(** What a consumer of the generator object sees when it runs it to the
    end. *)
Record outcome : Type := mk_outcome {
  yielded : list batch;
  raised : option exn
}.

Fixpoint run_loop (s : t) (sampler : list (list nat)) : outcome :=
  match sampler with
  | [] => mk_outcome [] None
  | indices :: rest =>
      match gather s indices with
      | Ok b => let o := run_loop s rest in mk_outcome (b :: yielded o) (raised o)
      | Raise e => mk_outcome [] (Some e)
      end
  end.

(** [sample(num_mini_batch)], iterated to the end. *)
Definition sample (s : t) (num_mini_batch : Z) (randperm : list nat)
  : outcome :=
  match sample_indices s num_mini_batch randperm with
  | Ok sampler => run_loop s sampler
  | Raise e => mk_outcome [] (Some e)
  end.

(** The shapes [__init__] allocates. *)
Record wf (s : t) : Prop := mk_wf {
  wf_obs : shaped (_num_steps s + 1) (_num_envs s) (obs s);
  wf_actions : shaped (_num_steps s) (_num_envs s) (actions s);
  wf_rewards : shaped (_num_steps s) (_num_envs s) (rewards s);
  wf_terminateds : shaped (_num_steps s + 1) (_num_envs s) (terminateds s);
  wf_truncateds : shaped (_num_steps s + 1) (_num_envs s) (truncateds s);
  wf_log_probs : shaped (_num_steps s) (_num_envs s) (log_probs s);
  wf_values : shaped (_num_steps s) (_num_envs s) (values s);
  wf_returns : shaped (_num_steps s) (_num_envs s) (returns s);
  wf_advantages : shaped (_num_steps s) (_num_envs s) (advantages s);
  wf_adv_preds : shaped (_num_steps s) (_num_envs s) (adv_preds s)
}.

(** The leading dimensions of the fields [add] and [update] touch. *)
Definition lengths (s : t) : Prop :=
  length (obs s) = _num_steps s + 1 /\
  length (actions s) = _num_steps s /\
  length (rewards s) = _num_steps s /\
  length (terminateds s) = _num_steps s + 1 /\
  length (truncateds s) = _num_steps s + 1 /\
  length (log_probs s) = _num_steps s /\
  length (values s) = _num_steps s /\
  length (adv_preds s) = _num_steps s.

(** A fill cycle: [add] called once per transition of [xs], in order. *)
Definition add_all (s : t) (xs : list transition) : result t :=
  for_each add xs s.

(** The fields the two rollout storages have in common, as a
    [VanillaRolloutStorage] ([obs] without its last frame). *)
Definition as_vanilla (s : t) : VanillaRolloutStorage.t :=
  {| VanillaRolloutStorage._num_steps := _num_steps s;
     VanillaRolloutStorage._num_envs := _num_envs s;
     VanillaRolloutStorage._discount := _discount s;
     VanillaRolloutStorage._gae_lambda := _gae_lambda s;
     VanillaRolloutStorage._action_dim := _action_dim s;
     VanillaRolloutStorage.obs := removelast (obs s);
     VanillaRolloutStorage.actions := actions s;
     VanillaRolloutStorage.rewards := rewards s;
     VanillaRolloutStorage.terminateds := terminateds s;
     VanillaRolloutStorage.truncateds := truncateds s;
     VanillaRolloutStorage.log_probs := log_probs s;
     VanillaRolloutStorage.values := values s;
     VanillaRolloutStorage.returns := returns s;
     VanillaRolloutStorage.advantages := advantages s;
     VanillaRolloutStorage._global_step := _global_step s |}.

(** A storage of the given shape with every entry zero and the cursor at
    the start of a cycle. *)
Definition blank (num_steps num_envs : nat) : t :=
  {| _num_steps := num_steps; _num_envs := num_envs;
     _discount := 0.99; _gae_lambda := 0.95; _action_dim := 1;
     obs := torch_empty [0%R] (num_steps + 1) num_envs;
     actions := torch_empty [0%R] num_steps num_envs;
     rewards := torch_empty 0%R num_steps num_envs;
     terminateds := torch_empty 0%R (num_steps + 1) num_envs;
     truncateds := torch_empty 0%R (num_steps + 1) num_envs;
     log_probs := torch_empty 0%R num_steps num_envs;
     values := torch_empty 0%R num_steps num_envs;
     returns := torch_empty 0%R num_steps num_envs;
     advantages := torch_empty 0%R num_steps num_envs;
     adv_preds := torch_empty 0%R num_steps num_envs;
     _global_step := 0 |}.

End DecoupledRolloutStorage.

(** ** The learning-rate schedule of [DistributedTrainer.__init__] *)

Module LrSchedule.

(** [lr_lambda(epoch)], the closure handed to [LambdaLR]; the three
    configuration values and [epoch] are Python integers, the quotient is
    a float. *)
Definition lr_lambda (num_steps num_learners num_train_steps : Z) (epoch : Z)
  : result R :=
  let progress := Z.min (epoch * num_steps * num_learners) num_train_steps in
  if decide (num_train_steps = 0)%Z then Raise ZeroDivisionError
  else Ok (1 - IZR progress / IZR num_train_steps)%R.

End LrSchedule.

(** ** [BasePolicyTrainer._remake_observation_and_action_space] *)

Module BasePolicyTrainer.

(** The action space handed to the trainer, by the name of its class: a
    [Discrete] space of [n] actions, a [Box] of vectors with its bounds
    [low] and [high] (arrays of the shape of the space, here of rank one),
    or an object of another class. *)
Inductive action_space : Type :=
| Discrete (n : nat)
| Box (low high : list R)
| OtherSpace.

(** The dictionary built for the action space. *)
Record new_action_space : Type := mk_new_action_space {
  shape : list nat;
  type : string;
  range : R * R
}.

Definition _remake_observation_and_action_space
    (observation_shape : list nat) (a : action_space)
  : result (list nat * new_action_space) :=
  let new_observation_space := observation_shape in
  new ← match a with
        | Discrete n =>
            Ok (mk_new_action_space [n] "Discrete"
                  (0%R, IZR (Z.of_nat n - 1)))
        | Box low high =>
            l ← getitem low 0;
            h ← getitem high 0;
            Ok (mk_new_action_space [length low] "Box" (l, h))
        | OtherSpace => Raise NotImplementedError
        end;
  Ok (new_observation_space, new).

End BasePolicyTrainer.

(** ** Runs of the environment adapter *)

Module Episode.
Import Environment.

Section Steps.
Variable E : Type.
Variable env_reset : option Z -> E -> list Z * E.
Variable env_step : scalar -> E -> (list Z * R * bool * bool) * E.

(** [step] called once per action of [actions], in order: the frames
    returned, and the adapter and the heap afterwards. *)
Fixpoint steps (actions : list tensor) (self : t E) (h : heap)
  : result (list frame * t E * heap) :=
  match actions with
  | [] => Ok ([], self, h)
  | a :: rest =>
      r ← step E env_reset env_step a self h;
      let '(fr, self, h) := r in
      r' ← steps rest self h;
      let '(frs, self, h) := r' in
      Ok (fr :: frs, self, h)
  end.

End Steps.

End Episode.

(** ** Shapes and counters of the pipeline state *)

Module Pool.
Import DistributedTrainer.

(** The pool as [DistributedStorage.__init__] and [train] allocate it:
    [S] slots of [T + 1] timesteps for every key, and [S] recurrent-state
    tuples of [L] tensors. *)
Definition storages_shaped (S T : nat) (stg : key -> list (list tensor))
  : Prop :=
  forall k, length (stg k) = S /\ Forall (fun slot => length slot = T + 1) (stg k).

Definition buffers_shaped (S L : nat) (buffers : list (list tensor)) : Prop :=
  length buffers = S /\ Forall (fun st => length st = L) buffers.

Definition shaped (S T L : nat) (sh : shared) : Prop :=
  storages_shaped S T (storages sh) /\
  buffers_shaped S L (init_actor_state_storages sh).

(** A policy whose output always has an action of one element and whose
    recurrent state keeps its [L] tensors. *)
Definition policy_ok (get_action : dict -> list tensor -> dict * list tensor)
    (L : nat) : Prop :=
  forall d st,
    (exists v, (get_action d st).1 Key.action = Some v /\ is_ok (item v)) /\
    (length st = L -> length (get_action d st).2 = L).

(** A worker whose adapter has been reset and whose recurrent state has
    [L] tensors. *)
Definition actor_ok {E} (L : nat) (a : actor E) : Prop :=
  is_Some (Environment.episode_return (env E a)) /\
  is_Some (Environment.episode_step (env E a)) /\
  length (actor_state E a) = L.

(** Counting: the workers that left their loop, the sentinels on Free,
    the sentinels put, and the learners inside the locked comprehension. *)
Definition stopped (pc : wpc) : list unit :=
  match pc with WStopped => [()] | _ => [] end.

Definition num_stopped {E} (s : system E) : nat :=
  length (flat_map (fun w => stopped (w_pc w)) (workers s)).

Definition sentinel (x : option nat) : list unit :=
  match x with None => [()] | Some _ => [] end.

Definition num_sentinels {E} (s : system E) : nat :=
  length (flat_map sentinel (free_queue s)).

Definition sentinel_event (ev : event) : list unit :=
  match ev with EvSentinel => [()] | _ => [] end.

Definition collecting (pc : lpc) : list unit :=
  match pc with LCollect _ => [()] | _ => [] end.

Definition num_collecting {E} (s : system E) : nat :=
  length (flat_map collecting (learners s)).

End Pool.

(** * Properties *)

(** ** Results and Python lists *)

Lemma bind_Ok {A B} (m : result A) (f : A -> result B) (b : B) :
  m ≫= f = Ok b <-> exists a, m = Ok a /\ f a = Ok b.
Proof.
  destruct m as [a|e]; simpl; split.
  - intros H. by exists a.
  - by intros (a' & [= ->] & H).
  - discriminate.
  - by intros (a' & [=] & _).
Qed.

Lemma setitem_Ok {A} (l : list A) i x :
  i < length l -> setitem l i x = Ok (<[i := x]> l).
Proof. intros H. unfold setitem. by rewrite decide_True. Qed.

Lemma setitem_inv {A} (l l' : list A) i x :
  setitem l i x = Ok l' -> i < length l /\ l' = <[i := x]> l.
Proof. unfold setitem. case_decide; [|discriminate]. by intros [= <-]. Qed.

Lemma getitem_Ok {A} (l : list A) i x : l !! i = Some x -> getitem l i = Ok x.
Proof. unfold getitem. by intros ->. Qed.

Lemma getitem_inv {A} (l : list A) i x : getitem l i = Ok x -> l !! i = Some x.
Proof. unfold getitem. destruct (l !! i); [by intros [= ->] | discriminate]. Qed.

Lemma getitem_last_inv {A} (l : list A) x :
  getitem_last l = Ok x -> l !! (length l - 1) = Some x.
Proof.
  unfold getitem_last. rewrite last_lookup.
  replace (pred (length l)) with (length l - 1) by lia.
  destruct (l !! _); [by intros [= ->] | discriminate].
Qed.

Lemma getitem_last_Ok {A} (l : list A) n :
  length l = S n -> exists x, getitem_last l = Ok x /\ l !! n = Some x.
Proof.
  intros Hlen. unfold getitem_last. rewrite last_lookup, Hlen. simpl.
  destruct (lookup_lt_is_Some_2 l n) as [x Hx]; [lia|].
  exists x. by rewrite Hx.
Qed.

(** ** [VanillaRolloutStorage]: the fill cycle and [reset] *)

Module RolloutCycle.
Import VanillaRolloutStorage.

Lemma wf_lengths s : wf s -> lengths s.
Proof.
  intros [[? _] [? _] [? _] [? _] [? _] [? _] [? _] _ _].
  by unfold lengths.
Qed.

Lemma shaped_torch_empty {A} (junk : A) n m : shaped n m (torch_empty junk n m).
Proof.
  split; unfold torch_empty.
  - by rewrite length_replicate.
  - apply Forall_replicate. by rewrite length_replicate.
Qed.

(** The constructor, when it succeeds, gives a storage of the shapes the
    properties below assume: [num_steps] frames of [obs] and of the other
    fields, [num_steps + 1] frames of the two flag fields, frame 0 of
    these zeroed, and the cursor at 0. *)
Lemma init_wf junk junk_t action_shape action_type num_steps num_envs
    discount gae_lambda s :
  __init__ junk junk_t action_shape action_type num_steps num_envs
    discount gae_lambda = Ok s ->
  wf s /\ _global_step s = 0 /\
  _num_steps s = num_steps /\ _num_envs s = num_envs /\
  terminateds s !! 0 = Some (replicate num_envs 0%R) /\
  truncateds s !! 0 = Some (replicate num_envs 0%R).
Proof.
  unfold __init__. intros H.
  apply bind_Ok in H as (action_dim & _ & H).
  apply bind_Ok in H as (te & Hte & H).
  apply bind_Ok in H as (tr & Htr & [= <-]).
  apply setitem_inv in Hte as [Hlte ->], Htr as [Hltr ->]. simpl.
  assert (forall x : list (list R),
            shaped (num_steps + 1) num_envs x ->
            shaped (num_steps + 1) num_envs (<[0 := replicate num_envs 0%R]> x))
    as Hins.
  { intros x [Hx1 Hx2]. split; [by rewrite length_insert|].
    apply Forall_insert; [done|]. by rewrite length_replicate. }
  split; [|split; [done|split; [done|split; [done|]]]].
  - split; simpl; try apply shaped_torch_empty;
      apply Hins, shaped_torch_empty.
  - split; by apply list_lookup_insert_eq.
Qed.

(** [add] succeeds whenever the cursor is in range, and writes at the
    cursor (flags: one frame further). *)
Lemma add_spec s x :
  lengths s -> _global_step s < _num_steps s ->
  exists s', add s x = Ok s' /\ lengths s' /\
    _num_steps s' = _num_steps s /\
    _global_step s' = (_global_step s + 1) mod _num_steps s /\
    obs s' = <[_global_step s := tr_obs x]> (obs s) /\
    terminateds s' = <[_global_step s + 1 := tr_terminateds x]> (terminateds s) /\
    truncateds s' = <[_global_step s + 1 := tr_truncateds x]> (truncateds s).
Proof.
  intros (Ho & Ha & Hr & Hte & Htr & Hl & Hv) Hg.
  unfold add.
  rewrite !setitem_Ok by lia. simpl.
  rewrite decide_False by lia.
  eexists. split; [reflexivity|]. simpl.
  unfold lengths. simpl. rewrite !length_insert. tauto.
Qed.

(** A run of [add]s that stays within the cycle: every call succeeds, and
    the flags of the last transition end up in the frame after the last
    position written. *)
Lemma add_all_spec xs : forall s,
  lengths s -> _global_step s + length xs <= _num_steps s ->
  exists s', add_all s xs = Ok s' /\ lengths s' /\
    _num_steps s' = _num_steps s /\
    length (obs s') = _num_steps s /\
    (forall x, last xs = Some x ->
       terminateds s' !! (_global_step s + length xs) = Some (tr_terminateds x) /\
       truncateds s' !! (_global_step s + length xs) = Some (tr_truncateds x)).
Proof.
  induction xs as [|x xs IH]; intros s Hl Hg; simpl in *.
  - exists s. split; [done|]. split; [done|]. split; [done|].
    split; [by destruct Hl|]. intros x [=].
  - destruct (add_spec s x Hl) as (s1 & Hadd & Hl1 & HT & Hg1 & _ & Hte & Htr); [lia|].
    unfold add_all. simpl. rewrite Hadd. simpl.
    pose proof Hl as (_ & _ & _ & Hlte & Hltr & _).
    destruct xs as [|y ys].
    + simpl. exists s1. split; [done|]. split; [done|]. split; [done|].
      split; [destruct Hl1 as [-> _]; done|].
      intros z [= <-]. rewrite Hte, Htr.
      split; apply list_lookup_insert_eq; lia.
    + assert (_global_step s1 = _global_step s + 1) as Hg1'.
      { rewrite Hg1. apply Nat.mod_small. simpl in Hg. lia. }
      destruct (IH s1 Hl1) as (s' & Hall & Hl' & HT' & Ho' & Hlast).
      { rewrite HT, Hg1'. simpl in *. lia. }
      exists s'. split; [exact Hall|]. split; [exact Hl'|].
      split; [congruence|]. split; [congruence|].
      intros z Hz. rewrite Hg1' in Hlast.
      replace (_global_step s + 1 + length (y :: ys))
        with (_global_step s + S (length (y :: ys))) in Hlast by lia.
      apply Hlast. exact Hz.
Qed.

(** [reset] succeeds and copies frame [num_steps] of the two flag fields
    into frame 0; it touches nothing else. *)
Lemma reset_spec s :
  lengths s ->
  exists s', reset s = Ok s' /\
    overlaps (_num_steps s) (terminateds s) (terminateds s') /\
    overlaps (_num_steps s) (truncateds s) (truncateds s') /\
    obs s' = obs s /\
    (0 < _num_steps s ->
       terminateds s' !! _num_steps s = terminateds s !! _num_steps s /\
       truncateds s' !! _num_steps s = truncateds s !! _num_steps s).
Proof.
  intros (Ho & Ha & Hr & Hte & Htr & Hl & Hv).
  destruct (getitem_last_Ok (terminateds s) (_num_steps s)) as (te & Ete & Lte); [lia|].
  destruct (getitem_last_Ok (truncateds s) (_num_steps s)) as (tr & Etr & Ltr); [lia|].
  unfold reset. rewrite Ete. simpl. rewrite setitem_Ok by lia. simpl.
  rewrite Etr. simpl. rewrite setitem_Ok by lia. simpl.
  eexists. split; [reflexivity|]. simpl.
  split; [|split; [|split]].
  - exists te. split; [done|]. apply list_lookup_insert_eq. lia.
  - exists tr. split; [done|]. apply list_lookup_insert_eq. lia.
  - done.
  - intros HT. rewrite !list_lookup_insert_ne by lia. done.
Qed.

Lemma wf_storage_2x1 : wf storage_2x1.
Proof. split; (split; [reflexivity | repeat constructor]). Qed.

Lemma cycle_2x1_run :
  exists s1 s2, add_all storage_2x1 cycle_2x1 = Ok s1 /\ reset s1 = Ok s2 /\
    obs s1 = [[[1%R]]; [[2%R]]] /\ obs s2 = [[[1%R]]; [[2%R]]].
Proof.
  eexists. eexists. split; [|split].
  - cbn. reflexivity.
  - cbn. reflexivity.
  - cbn. split; reflexivity.
Qed.

(** C7, as the specification states it, fails: after the fill cycle
    [cycle_2x1] and [reset], the two flag fields overlap, but [obs] has no
    frame [num_steps] at all (and its frame 0 is still the first
    observation of the cycle, not the last one). *)
Lemma reset_overlap_obs_counterexample :
  ~ overlap_claim storage_2x1 cycle_2x1.
Proof.
  intros H.
  destruct cycle_2x1_run as (s1 & s2 & H1 & H2 & Ho1 & Ho2).
  destruct (H s1 s2 H1 H2) as (_ & _ & f & Hf & _).
  rewrite Ho1 in Hf. discriminate Hf.
Qed.

(** C7 (as amended): after a full fill cycle of [num_steps] calls of [add]
    followed by [reset], frame 0 of [terminateds] and of [truncateds]
    equals frame [num_steps] of the cycle just completed, which holds the
    flags of the last transition added; [obs] has only the frames
    [0 .. num_steps - 1] and [reset] leaves it as the cycle wrote it. *)
Theorem reset_overlap_flags s xs :
  wf s -> _global_step s = 0 -> length xs = _num_steps s ->
  exists s1 s2, add_all s xs = Ok s1 /\ reset s1 = Ok s2 /\
    overlaps (_num_steps s) (terminateds s1) (terminateds s2) /\
    overlaps (_num_steps s) (truncateds s1) (truncateds s2) /\
    (forall x, last xs = Some x ->
       terminateds s2 !! 0 = Some (tr_terminateds x) /\
       truncateds s2 !! 0 = Some (tr_truncateds x)) /\
    obs s2 = obs s1 /\ obs s2 !! _num_steps s = None.
Proof.
  intros Hwf Hg Hlen. apply wf_lengths in Hwf.
  destruct (add_all_spec xs s Hwf) as (s1 & Hadd & Hl1 & HT & Ho & Hlast); [lia|].
  destruct (reset_spec s1 Hl1) as (s2 & Hreset & Ote & Otr & Hobs & _).
  rewrite HT in Ote, Otr.
  exists s1, s2. split; [done|]. split; [done|]. split; [done|]. split; [done|].
  split; [|split; [done|]].
  - intros x Hx. destruct (Hlast x Hx) as [Hte Htr].
    rewrite Hg, Hlen in Hte, Htr. simpl in Hte, Htr.
    destruct Ote as (f & Hf & ->), Otr as (f' & Hf' & ->). split; congruence.
  - rewrite Hobs. apply lookup_ge_None. lia.
Qed.

(** An instance: the storage of two steps and its fill cycle. *)
Lemma reset_overlap_flags_witness :
  exists s1 s2, add_all storage_2x1 cycle_2x1 = Ok s1 /\ reset s1 = Ok s2 /\
    overlaps 2 (terminateds s1) (terminateds s2) /\
    overlaps 2 (truncateds s1) (truncateds s2) /\
    (forall x, last cycle_2x1 = Some x ->
       terminateds s2 !! 0 = Some (tr_terminateds x) /\
       truncateds s2 !! 0 = Some (tr_truncateds x)) /\
    obs s2 = obs s1 /\ obs s2 !! 2 = None.
Proof.
  apply (reset_overlap_flags storage_2x1 cycle_2x1).
  - exact wf_storage_2x1.
  - reflexivity.
  - reflexivity.
Defined.

End RolloutCycle.

(** ** [VanillaRolloutStorage.generator]: the mini-batch sampler *)

Module RolloutSampling.
Import VanillaRolloutStorage.

Lemma subset_random_sampler_range n p :
  Forall (fun i => i < n) p -> subset_random_sampler (seq 0 n) p = p.
Proof.
  intros H. unfold subset_random_sampler.
  induction H as [|i p Hi _ IH]; simpl; [done|].
  rewrite IH. f_equal.
  erewrite nth_lookup_Some; [reflexivity|]. by apply lookup_seq_lt.
Qed.

Lemma randperm_range n p : Permutation p (seq 0 n) -> Forall (fun i => i < n) p.
Proof.
  intros Hp. apply Forall_forall. intros i Hi.
  rewrite Hp in Hi. apply elem_of_seq in Hi. lia.
Qed.

(** [BatchSampler] cuts its input into batches of exactly [bs] indices and
    drops a remainder shorter than [bs]. *)
Lemma batch_sampler_spec bs l : forall batch,
  0 < bs -> length batch < bs ->
  exists rest,
    batch ++ l = concat (batch_sampler bs batch l) ++ rest /\
    length rest < bs /\
    Forall (fun b => length b = bs) (batch_sampler bs batch l).
Proof.
  induction l as [|i l IH]; intros batch Hbs Hb; simpl.
  - exists batch. by rewrite app_nil_r.
  - case_decide as Hfull.
    + destruct (IH [] Hbs) as (rest & Heq & Hrest & Hall); [simpl; lia|].
      exists rest. simpl in Heq. split; [|split; [done|]].
      * simpl. rewrite <- app_assoc, <- Heq. by rewrite <- app_assoc.
      * by constructor.
    + destruct (IH (batch ++ [i]) Hbs) as (rest & Heq & Hrest & Hall).
      { rewrite length_app in *. simpl in *. lia. }
      exists rest. split; [|done]. rewrite <- Heq. by rewrite <- app_assoc.
Qed.

Lemma length_concat_uniform {A} (ls : list (list A)) bs :
  Forall (fun b => length b = bs) ls -> length (concat ls) = bs * length ls.
Proof.
  induction 1 as [|b ls Hb _ IH]; simpl; [lia|].
  rewrite length_app, IH, Hb. lia.
Qed.

(** The number of batches and of indices kept. *)
Lemma batch_sampler_count bs l :
  0 < bs ->
  length (batch_sampler bs [] l) = length l / bs /\
  length (concat (batch_sampler bs [] l)) = length l - length l mod bs.
Proof.
  intros Hbs.
  destruct (batch_sampler_spec bs l [] Hbs) as (rest & Heq & Hrest & Hall);
    [simpl; lia|].
  simpl in Heq. apply (f_equal length) in Heq.
  rewrite length_app, (length_concat_uniform _ bs Hall) in Heq.
  rewrite (length_concat_uniform _ bs Hall).
  assert (length l / bs = length (batch_sampler bs [] l)) as Hq.
  { symmetry. apply (Nat.div_unique _ _ _ (length rest)); [done|lia]. }
  split; [done|].
  pose proof (Nat.div_mod_eq (length l) bs). rewrite <- Hq. lia.
Qed.

Lemma elem_of_concat_2 {A} (ls : list (list A)) l x :
  l ∈ ls -> x ∈ l -> x ∈ concat ls.
Proof.
  intros Hl Hx. apply list_elem_of_In, in_concat.
  exists l. by rewrite <- !list_elem_of_In.
Qed.

Lemma shaped_view {A} n m (x : list (list A)) :
  shaped n m x -> length (view x) = n * m.
Proof.
  intros [Hn Hm]. unfold view.
  rewrite (length_concat_uniform _ m Hm). lia.
Qed.

Lemma shaped_removelast {A} n m (x : list (list A)) :
  shaped (n + 1) m x -> shaped n m (removelast x).
Proof.
  intros [Hn Hm]. rewrite removelast_firstn_len. split.
  - rewrite length_take. lia.
  - by apply Forall_take.
Qed.

Lemma index_select_Ok {A} (x : list A) indices :
  Forall (fun i => i < length x) indices ->
  exists r, index_select x indices = Ok r.
Proof.
  induction 1 as [|i indices Hi _ [r IH]]; simpl; [by eexists|].
  destruct (lookup_lt_is_Some_2 x i Hi) as [a Ha].
  rewrite (getitem_Ok _ _ _ Ha). simpl. rewrite IH. simpl. by eexists.
Qed.

(** On a storage of the allocated shapes, gathering in-range indices does
    not raise. *)
Lemma gather_Ok s indices :
  wf s -> Forall (fun i => i < _num_envs s * _num_steps s) indices ->
  exists b, gather s indices = Ok b.
Proof.
  intros [Ho Ha Hr Hte Htr Hl Hv Hre Had] Hi.
  apply shaped_removelast in Hte, Htr.
  assert (forall {A} (x : list (list A)), shaped (_num_steps s) (_num_envs s) x ->
            exists r, index_select (view x) indices = Ok r) as Hsel.
  { intros A x Hx. apply index_select_Ok. rewrite (shaped_view _ _ _ Hx).
    eapply Forall_impl; [exact Hi|]. simpl. intros. lia. }
  unfold gather.
  destruct (Hsel _ _ Ho) as [? ->], (Hsel _ _ Ha) as [? ->],
    (Hsel _ _ Hv) as [? ->], (Hsel _ _ Hre) as [? ->],
    (Hsel _ _ Hte) as [? ->], (Hsel _ _ Htr) as [? ->],
    (Hsel _ _ Hl) as [? ->], (Hsel _ _ Had) as [? ->].
  simpl. by eexists.
Qed.

Lemma run_loop_Ok s sampler :
  Forall (fun indices => exists b, gather s indices = Ok b) sampler ->
  raised (run_loop s sampler) = None /\
  length (yielded (run_loop s sampler)) = length sampler.
Proof.
  induction 1 as [|ix sampler [b Hb] _ [IH1 IH2]]; simpl; [done|].
  rewrite Hb. simpl. split; [done|]. by rewrite IH2.
Qed.

Lemma generator_indices_Ok s num_mini_batch p :
  (1 <= num_mini_batch <= Z.of_nat (_num_envs s * _num_steps s))%Z ->
  Permutation p (seq 0 (_num_envs s * _num_steps s)) ->
  0 < Z.to_nat (Z.of_nat (_num_envs s * _num_steps s) / num_mini_batch) /\
  generator_indices s num_mini_batch p =
    Ok (batch_sampler
          (Z.to_nat (Z.of_nat (_num_envs s * _num_steps s) / num_mini_batch))
          [] p).
Proof.
  intros Hn Hp.
  assert (0 < Z.of_nat (_num_envs s * _num_steps s) / num_mini_batch)%Z as Hpos
    by (apply Z.div_str_pos; lia).
  split; [lia|].
  unfold generator_indices.
  rewrite decide_True by lia. rewrite decide_False by lia.
  rewrite decide_False by lia.
  by rewrite (subset_random_sampler_range _ _ (randperm_range _ _ Hp)).
Qed.

(** What one pass of the sampler keeps, for any batch size [bs > 0] and any
    permutation [p] of [0 .. n - 1]. *)
Lemma batch_sampler_permutation bs n p :
  0 < bs -> Permutation p (seq 0 n) ->
  Forall (fun b => length b = bs) (batch_sampler bs [] p) /\
  length (batch_sampler bs [] p) = n / bs /\
  NoDup (concat (batch_sampler bs [] p)) /\
  (forall i, i ∈ concat (batch_sampler bs [] p) -> i < n) /\
  length (concat (batch_sampler bs [] p)) = n - n mod bs /\
  (partitions (batch_sampler bs [] p) n <-> n mod bs = 0).
Proof.
  intros Hbs Hp.
  destruct (batch_sampler_spec bs p [] Hbs) as (rest & Heq & Hrest & Hall);
    [simpl; lia|].
  destruct (batch_sampler_count bs p Hbs) as [Hcnt Hlen].
  assert (length p = n) as Hpn by (by rewrite Hp, length_seq).
  rewrite Hpn in Hcnt, Hlen.
  simpl in Heq.
  assert (NoDup p) as Hnd by (rewrite Hp; apply NoDup_seq).
  assert (NoDup (concat (batch_sampler bs [] p))) as Hnd'.
  { rewrite Heq in Hnd. by apply NoDup_app in Hnd as [? _]. }
  assert (forall i, i ∈ concat (batch_sampler bs [] p) -> i < n) as Hin.
  { intros i Hi. assert (i ∈ p) as Hi' by (rewrite Heq; apply elem_of_app; by left).
    rewrite Hp in Hi'. apply elem_of_seq in Hi'. lia. }
  split; [done|]. split; [done|]. split; [done|]. split; [done|].
  split; [done|].
  split.
  - intros [_ Hcov].
    assert (seq 0 n ⊆+ concat (batch_sampler bs [] p)) as Hsub.
    { apply NoDup_submseteq; [apply NoDup_seq|].
      intros i Hi. apply Hcov. apply elem_of_seq in Hi. lia. }
    apply submseteq_length in Hsub. rewrite length_seq, Hlen in Hsub.
    pose proof (Nat.mod_upper_bound n bs). pose proof (Nat.Div0.mod_le n bs). lia.
  - intros Hmod. split; [done|].
    assert (rest = []) as ->.
    { apply (f_equal length) in Heq. rewrite length_app, Hlen, Hpn in Heq.
      apply length_zero_iff_nil. lia. }
    rewrite app_nil_r in Heq. rewrite <- Heq.
    intros i Hi. rewrite Hp. apply elem_of_seq. lia.
Qed.

(** Batch completeness, as the specification states it, fails for five
    transitions and two mini-batches: the mini-batch size is [5 // 2 = 2],
    two batches are yielded and the fifth index of the permutation is
    dropped ([drop_last=True]). *)
Lemma batch_completeness_counterexample :
  ~ batch_completeness_claim (blank 5 1) 2 [0; 1; 2; 3; 4].
Proof.
  intros (batches & Hgen & _ & Hcov).
  vm_compute in Hgen. injection Hgen as <-.
  specialize (Hcov 4). simpl in Hcov.
  assert (4 < 5) as H45 by lia. specialize (Hcov H45).
  repeat (apply elem_of_cons in Hcov as [Hcov|Hcov]; [discriminate|]).
  by apply elem_of_nil in Hcov.
Qed.

Lemma wf_blank T N : wf (blank T N).
Proof. split; apply RolloutCycle.shaped_torch_empty. Qed.

(** C9: for a positive [num_mini_batch], [generator] fails with the
    assertion error, before yielding anything, exactly when
    [num_envs * num_steps < num_mini_batch]; otherwise it yields at least
    one batch and runs to its end without raising. *)
Theorem generator_precondition s num_mini_batch p :
  wf s -> Permutation p (seq 0 (_num_envs s * _num_steps s)) ->
  (0 < num_mini_batch)%Z ->
  ((Z.of_nat (_num_envs s * _num_steps s) < num_mini_batch)%Z ->
     generator s num_mini_batch p = mk_outcome [] (Some AssertionError)) /\
  ((num_mini_batch <= Z.of_nat (_num_envs s * _num_steps s))%Z ->
     raised (generator s num_mini_batch p) = None /\
     yielded (generator s num_mini_batch p) <> []) /\
  (raised (generator s num_mini_batch p) <> None <->
     (Z.of_nat (_num_envs s * _num_steps s) < num_mini_batch)%Z).
Proof.
  intros Hwf Hp Hpos.
  assert ((Z.of_nat (_num_envs s * _num_steps s) < num_mini_batch)%Z ->
          generator s num_mini_batch p = mk_outcome [] (Some AssertionError))
    as Hfail.
  { intros Hlt. unfold generator, generator_indices.
    by rewrite decide_False by lia. }
  assert ((num_mini_batch <= Z.of_nat (_num_envs s * _num_steps s))%Z ->
     raised (generator s num_mini_batch p) = None /\
     yielded (generator s num_mini_batch p) <> []) as Hok.
  { intros Hle.
    destruct (generator_indices_Ok s num_mini_batch p) as [Hbs Hgen];
      [lia|done|].
    destruct (batch_sampler_permutation _ _ p Hbs Hp)
      as (_ & Hcnt & _ & Hin & _).
    assert (Forall (fun indices => exists b, gather s indices = Ok b)
              (batch_sampler (Z.to_nat
                 (Z.of_nat (_num_envs s * _num_steps s) / num_mini_batch)) [] p))
      as Hg.
    { apply Forall_forall. intros b Hb. apply gather_Ok; [done|].
      apply Forall_forall. intros i Hi. apply Hin.
      apply (elem_of_concat_2 _ b); done. }
    destruct (run_loop_Ok s _ Hg) as [Hr Hy].
    unfold generator. rewrite Hgen. split; [done|].
    intros Hnil. rewrite Hnil, Hcnt in Hy. simpl in Hy. symmetry in Hy.
    apply Nat.div_small_iff in Hy; [|lia].
    pose proof (Z.div_le_upper_bound
      (Z.of_nat (_num_envs s * _num_steps s)) num_mini_batch
      (Z.of_nat (_num_envs s * _num_steps s))) as Hub.
    assert (Z.of_nat (_num_envs s * _num_steps s) / num_mini_batch
            <= Z.of_nat (_num_envs s * _num_steps s))%Z by (apply Hub; nia).
    lia. }
  split; [done|]. split; [done|].
  split.
  - intros Hr. destruct (Z.lt_ge_cases
      (Z.of_nat (_num_envs s * _num_steps s)) num_mini_batch) as [|Hge]; [done|].
    by destruct (Hok Hge) as [? _].
  - intros Hlt. by rewrite (Hfail Hlt).
Qed.

(** Instances: seven mini-batches of six transitions are refused, six are
    served. *)
Lemma generator_precondition_witness :
  generator (blank 2 3) 7 [1; 0; 2; 3; 4; 5] = mk_outcome [] (Some AssertionError)
  /\ raised (generator (blank 2 3) 6 [1; 0; 2; 3; 4; 5]) = None
  /\ yielded (generator (blank 2 3) 6 [1; 0; 2; 3; 4; 5]) <> [].
Proof.
  split.
  - apply (generator_precondition (blank 2 3) 7 [1; 0; 2; 3; 4; 5]).
    + apply wf_blank.
    + simpl. apply perm_swap.
    + lia.
    + simpl. lia.
  - apply (generator_precondition (blank 2 3) 6 [1; 0; 2; 3; 4; 5]).
    + apply wf_blank.
    + simpl. apply perm_swap.
    + lia.
    + simpl. lia.
Defined.

End RolloutSampling.

(** ** [VanillaRolloutStorage.compute_returns_and_advantages] *)

Module GAE.
Import VanillaRolloutStorage.

Lemma for_each_ext {A S} (f g : S -> A -> result S) xs :
  (forall s x, f s x = g s x) -> forall s, for_each f xs s = for_each g xs s.
Proof.
  intros Hfg. induction xs as [|x xs IH]; intros s; simpl; [done|].
  rewrite Hfg. destruct (g s x); simpl; [apply IH | done].
Qed.

(** With [next_non_terminal = 1 - 1] in every environment, the bootstrap
    term [discount * next_values * next_non_terminal] is zero whatever
    [next_values] holds. *)
Lemma bootstrap_term_zero c n : forall lv,
  length lv = n -> tmul (smul c lv) (ssub 1 (replicate n 1%R)) = replicate n 0%R.
Proof.
  induction n as [|n IH]; intros [|x lv] Hlen; simpl in *; try done.
  f_equal; [lra | apply IH; lia].
Qed.

Lemma last_frame_lookup {A} (l : list A) n x :
  length l = n + 1 -> l !! n = Some x -> getitem_last l = Ok x.
Proof.
  intros Hlen Hx. unfold getitem_last. rewrite last_lookup, Hlen.
  replace (pred (n + 1)) with n by lia. by rewrite Hx.
Qed.

(** One iteration of the loop does not depend on the bootstrap values when
    the last frame is terminal everywhere. *)
Lemma gae_step_bootstrap s lv1 lv2 acc step :
  length (terminateds s) = _num_steps s + 1 ->
  terminateds s !! _num_steps s = Some (replicate (_num_envs s) 1%R) ->
  length lv1 = _num_envs s -> length lv2 = _num_envs s ->
  gae_step s lv1 acc step = gae_step s lv2 acc step.
Proof.
  intros Hlen Hte H1 H2. unfold gae_step.
  case_decide as Hstep; [|done].
  rewrite (last_frame_lookup _ _ _ Hlen Hte). simpl.
  by rewrite !bootstrap_term_zero.
Qed.

Lemma gae_pass_bootstrap s lv1 lv2 :
  length (terminateds s) = _num_steps s + 1 ->
  terminateds s !! _num_steps s = Some (replicate (_num_envs s) 1%R) ->
  length lv1 = _num_envs s -> length lv2 = _num_envs s ->
  gae_pass s lv1 = gae_pass s lv2.
Proof.
  intros Hlen Hte H1 H2. unfold gae_pass.
  rewrite (for_each_ext (gae_step s lv1) (gae_step s lv2)); [done|].
  intros acc step. by apply gae_step_bootstrap.
Qed.

(** Any iteration within range succeeds, and writes only its own row. *)
Lemma gae_step_frame s lv acc step :
  wf s -> step < _num_steps s -> length acc.2 = _num_steps s ->
  exists gae adv, gae_step s lv acc step = Ok (gae, adv) /\
    length adv = _num_steps s /\
    forall j, j <> step -> adv !! j = acc.2 !! j.
Proof.
  intros Hwf Hstep Hacc.
  pose proof (wf_rewards s Hwf) as [Hr _].
  pose proof (wf_values s Hwf) as [Hv _].
  pose proof (wf_terminateds s Hwf) as [Hte _].
  destruct (lookup_lt_is_Some_2 (rewards s) step) as [r Er]; [lia|].
  destruct (lookup_lt_is_Some_2 (values s) step) as [v Ev]; [lia|].
  unfold gae_step.
  assert (exists nn,
    (if decide (step = _num_steps s - 1)
     then te ← getitem_last (terminateds s); Ok (ssub 1 te, lv)
     else te ← getitem (terminateds s) (step + 1);
          v ← getitem (values s) (step + 1); Ok (ssub 1 te, v)) = Ok nn)
    as [nn ->].
  { case_decide.
    - destruct (getitem_last_Ok (terminateds s) (_num_steps s)) as (te & -> & _);
        [lia|]. simpl. by eexists.
    - destruct (lookup_lt_is_Some_2 (terminateds s) (step + 1)) as [te Ete]; [lia|].
      destruct (lookup_lt_is_Some_2 (values s) (step + 1)) as [v' Ev']; [lia|].
      rewrite (getitem_Ok _ _ _ Ete). simpl.
      rewrite (getitem_Ok _ _ _ Ev'). simpl. by eexists. }
  simpl. rewrite (getitem_Ok _ _ _ Er). simpl.
  rewrite (getitem_Ok _ _ _ Ev). simpl.
  rewrite setitem_Ok by lia. simpl.
  eexists. eexists. split; [reflexivity|].
  split; [by rewrite length_insert|].
  intros j Hj. by rewrite list_lookup_insert_ne.
Qed.

Lemma gae_loop_frame s lv steps : forall acc,
  wf s -> Forall (fun step => step < _num_steps s) steps ->
  length acc.2 = _num_steps s ->
  exists acc', for_each (gae_step s lv) steps acc = Ok acc' /\
    length acc'.2 = _num_steps s /\
    forall j, j ∉ steps -> acc'.2 !! j = acc.2 !! j.
Proof.
  induction steps as [|step steps IH]; intros acc Hwf Hsteps Hacc; simpl.
  - by exists acc.
  - apply Forall_cons in Hsteps as [Hstep Hsteps].
    destruct (gae_step_frame s lv acc step Hwf Hstep Hacc)
      as (gae & adv & -> & Hlen & Hother).
    simpl.
    destruct (IH (gae, adv) Hwf Hsteps Hlen) as (acc' & -> & Hlen' & Hother').
    exists acc'. split; [done|]. split; [done|].
    intros j Hj. apply not_elem_of_cons in Hj as [Hj1 Hj2].
    rewrite Hother' by done. simpl. by apply Hother.
Qed.

Lemma last_delta n c : forall r v,
  length r = n -> length v = n ->
  tadd (tsub (tadd r (replicate n 0%R)) v)
       (tmul (smul c (ssub 1 (replicate n 1%R))) (replicate n 0%R)) = tsub r v.
Proof.
  induction n as [|n IH]; intros [|x r] [|y v] Hr Hv; simpl in *; try done.
  f_equal; [lra | apply IH; lia].
Qed.

(** The first iteration of the backward loop ([step = num_steps - 1],
    [gae = 0]) when the last frame is terminal everywhere. *)
Lemma gae_last_step s lv adv r v :
  wf s -> 0 < _num_steps s ->
  terminateds s !! _num_steps s = Some (replicate (_num_envs s) 1%R) ->
  length lv = _num_envs s -> length adv = _num_steps s ->
  rewards s !! (_num_steps s - 1) = Some r ->
  values s !! (_num_steps s - 1) = Some v ->
  gae_step s lv (replicate (_num_envs s) 0%R, adv) (_num_steps s - 1) =
    Ok (tsub r v, <[_num_steps s - 1 := tsub r v]> adv).
Proof.
  intros Hwf HT Hte Hlv Hadv Er Ev.
  pose proof (wf_terminateds s Hwf) as [Hlte _].
  pose proof (wf_rewards s Hwf) as [_ Hr].
  pose proof (wf_values s Hwf) as [_ Hv].
  assert (length r = _num_envs s) as Hlr.
  { eapply (proj1 (Forall_forall _ _) Hr), list_elem_of_lookup_2, Er. }
  assert (length v = _num_envs s) as Hlv'.
  { eapply (proj1 (Forall_forall _ _) Hv), list_elem_of_lookup_2, Ev. }
  unfold gae_step. rewrite decide_True by done.
  rewrite (last_frame_lookup _ _ _ Hlte Hte). simpl.
  rewrite (getitem_Ok _ _ _ Er). simpl.
  rewrite (getitem_Ok _ _ _ Ev). simpl.
  rewrite bootstrap_term_zero by done.
  rewrite last_delta by done.
  rewrite setitem_Ok by lia. done.
Qed.

(** The unstandardised advantages when the last frame is terminal
    everywhere: the row of the last step is [rewards - values]. *)
Lemma gae_pass_last s lv r v :
  wf s -> 0 < _num_steps s ->
  terminateds s !! _num_steps s = Some (replicate (_num_envs s) 1%R) ->
  length lv = _num_envs s ->
  rewards s !! (_num_steps s - 1) = Some r ->
  values s !! (_num_steps s - 1) = Some v ->
  exists adv, gae_pass s lv = Ok adv /\
    length adv = _num_steps s /\
    adv !! (_num_steps s - 1) = Some (tsub r v).
Proof.
  intros Hwf HT Hte Hlv Er Ev.
  pose proof (wf_advantages s Hwf) as [Hadv _].
  unfold gae_pass.
  assert (rev (seq 0 (_num_steps s)) =
          (_num_steps s - 1) :: rev (seq 0 (_num_steps s - 1))) as ->.
  { replace (_num_steps s) with (S (_num_steps s - 1)) at 1 by lia.
    by rewrite seq_S, rev_app_distr. }
  simpl.
  rewrite (gae_last_step s lv (advantages s) r v) by done.
  simpl.
  destruct (gae_loop_frame s lv (rev (seq 0 (_num_steps s - 1)))
              (tsub r v, <[_num_steps s - 1 := tsub r v]> (advantages s)))
    as (acc' & -> & Hlen & Hother); try done.
  { apply Forall_forall. intros j Hj.
    apply list_elem_of_In, in_rev, in_seq in Hj. lia. }
  { simpl. by rewrite length_insert. }
  simpl. exists acc'.2. split; [done|]. split; [done|].
  rewrite Hother.
  - simpl. apply list_lookup_insert_eq. lia.
  - intros Hj. apply list_elem_of_In, in_rev, in_seq in Hj. lia.
Qed.

Lemma standardize_constant_pair (c : R) :
  standardize [[c; c]] = [[0%R; 0%R]].
Proof.
  unfold standardize. simpl.
  assert (mean [c; c] = c) as ->.
  { unfold mean, rsum. simpl. field. }
  unfold Rdiv. rewrite Rminus_diag. by rewrite Rmult_0_l.
Qed.

Lemma gae_example_run :
  exists s', compute_returns_and_advantages gae_example [100%R; 100%R] = Ok s' /\
    advantages s' = [[0%R; 0%R]].
Proof.
  eexists. split.
  - unfold compute_returns_and_advantages, gae_pass. cbn. reflexivity.
  - cbn [advantages].
    replace (1 + 0.99 * 100 * (1 - 1) - 0.5 + 0.99 * 0.95 * (1 - 1) * 0)%R
      with 0.5%R by lra.
    apply standardize_constant_pair.
Qed.

(** The concrete check of C4, as the specification states it, fails: with
    [reward = 1.0], [value = 0.5], a terminal last frame and the bootstrap
    value [100.0], the advantage the function leaves in the storage is the
    standardised one, here [0], not [1.0 - 0.5]. *)
Lemma gae_check_counterexample :
  ~ gae_check_claim gae_example [100%R; 100%R].
Proof.
  intros (s' & Hrun & Hadv).
  destruct gae_example_run as (s'' & Hrun' & Hadv').
  rewrite Hrun in Hrun'. injection Hrun' as ->.
  rewrite Hadv' in Hadv. simpl in Hadv.
  injection Hadv as Hadv _. lra.
Qed.

(** C4 (as amended): if [terminateds[num_steps] = 1] in every environment,
    the result of [compute_returns_and_advantages] (returns and
    standardised advantages) does not depend on [last_values]; the
    advantage of the last step before standardisation is
    [rewards[num_steps - 1] - values[num_steps - 1]], whatever the
    bootstrap value, and the return of the last step is that advantage
    plus [values[num_steps - 1]], the sum the code computes; the
    advantages left in the storage are the standardised ones. *)
Theorem gae_boundary s lv1 lv2 :
  wf s ->
  terminateds s !! _num_steps s = Some (replicate (_num_envs s) 1%R) ->
  length lv1 = _num_envs s -> length lv2 = _num_envs s ->
  compute_returns_and_advantages s lv1 = compute_returns_and_advantages s lv2 /\
  (0 < _num_steps s ->
   exists s' adv r v,
     compute_returns_and_advantages s lv1 = Ok s' /\
     gae_pass s lv1 = Ok adv /\
     rewards s !! (_num_steps s - 1) = Some r /\
     values s !! (_num_steps s - 1) = Some v /\
     adv !! (_num_steps s - 1) = Some (tsub r v) /\
     returns s' !! (_num_steps s - 1) = Some (tadd (tsub r v) v) /\
     advantages s' = standardize adv).
Proof.
  intros Hwf Hte H1 H2.
  pose proof (wf_terminateds s Hwf) as [Hlte _].
  split.
  - unfold compute_returns_and_advantages.
    by rewrite (gae_pass_bootstrap s lv1 lv2).
  - intros HT.
    pose proof (wf_rewards s Hwf) as [Hlr Hr].
    pose proof (wf_values s Hwf) as [Hlv Hv].
    destruct (lookup_lt_is_Some_2 (rewards s) (_num_steps s - 1)) as [r Er]; [lia|].
    destruct (lookup_lt_is_Some_2 (values s) (_num_steps s - 1)) as [v Ev]; [lia|].
    destruct (gae_pass_last s lv1 r v Hwf HT Hte H1 Er Ev) as (adv & Hpass & Hlen & Hlast).
    unfold compute_returns_and_advantages. rewrite Hpass. simpl.
    eexists _, adv, r, v. split; [reflexivity|]. simpl.
    split; [done|]. split; [done|]. split; [done|]. split; [done|].
    split; [|done].
    rewrite lookup_zip_with, Hlast. simpl. by rewrite Ev.
Qed.

Lemma wf_gae_example : wf gae_example.
Proof. split; (split; [reflexivity | repeat constructor]). Qed.

(** An instance: the bootstrap values 100 and (0, 7) give the same result. *)
Lemma gae_boundary_witness :
  compute_returns_and_advantages gae_example [100%R; 100%R] =
  compute_returns_and_advantages gae_example [0%R; 7%R].
Proof.
  apply (gae_boundary gae_example [100%R; 100%R] [0%R; 7%R]).
  - exact wf_gae_example.
  - reflexivity.
  - reflexivity.
  - reflexivity.
Defined.

End GAE.

(** ** [Environment.step]: episode accounting *)

Module EnvironmentFacts.
Import Environment.

Lemma wrap32_in_range (z : Z) :
  (- 2 ^ 31 <= z < 2 ^ 31)%Z -> wrap32 z = z.
Proof. intros H. unfold wrap32. rewrite Z.mod_small; lia. Qed.

Section Facts.
Context {E : Type}.
Variable env_reset : option Z -> E -> list Z * E.
Variable env_step : scalar -> E -> (list Z * R * bool * bool) * E.

Lemma reset_valid seed (self : t E) h fr self' h' :
  reset E env_reset seed self h = (fr, self', h') ->
  valid self' h' /\
  episode_return self' = Some (f_episode_return fr) /\
  episode_step self' = Some (f_episode_step fr) /\
  floats h' (f_episode_return fr) = 0%R /\ ints h' (f_episode_step fr) = 0%Z.
Proof.
  unfold reset. simpl. destruct (env_reset _ _) as [o e]. intros [= <- <- <-].
  simpl. split; [|split; [done|split; [done|]]].
  - exists (next_float h), (next_int h). simpl. repeat split; lia.
  - by rewrite !fn_lookup_insert.
Qed.

(** C6: a step at which the environment reports [terminated] or
    [truncated] returns a frame whose [episode_return] is the total before
    the step plus the reward of the step, and whose [episode_step] is the
    count before the step plus one (in [int32]); after the call the
    counters of the adapter are new tensors holding zero, so the frame
    keeps the totals of the episode just completed. *)
Theorem episode_boundary_accounting action a (self : t E) h pr ps o rew te tr e :
  episode_return self = Some pr -> episode_step self = Some ps ->
  pr < next_float h -> ps < next_int h ->
  item action = Ok a ->
  env_step a (env self) = (o, rew, te, tr, e) ->
  te || tr = true ->
  exists fr self' h',
    step E env_reset env_step action self h = Ok (fr, self', h') /\
    floats h' (f_episode_return fr) = (floats h pr + rew)%R /\
    ints h' (f_episode_step fr) = wrap32 (ints h ps + 1) /\
    ((- 2 ^ 31 <= ints h ps < 2 ^ 31 - 1)%Z ->
       ints h' (f_episode_step fr) = (ints h ps + 1)%Z) /\
    f_reward fr = rew /\ f_terminated fr = te /\ f_truncated fr = tr /\
    exists pr' ps',
      episode_return self' = Some pr' /\ episode_step self' = Some ps' /\
      floats h' pr' = 0%R /\ ints h' ps' = 0%Z.
Proof.
  intros Hr Hs Hpr Hps Hitem Hstep Hdone.
  unfold step. rewrite Hitem. simpl. rewrite Hstep, Hs, Hr, Hdone. simpl.
  destruct (env_reset None e) as [o' e'].
  eexists _, _, _. split; [reflexivity|]. simpl.
  assert (<[next_int h := 0%Z]> (<[ps := wrap32 (ints h ps + 1)]> (ints h)) ps
          = wrap32 (ints h ps + 1)) as Hi.
  { rewrite fn_lookup_insert_ne by lia. by rewrite fn_lookup_insert. }
  split; [|split; [exact Hi|split; [|split; [done|split; [done|split; [done|]]]]]].
  - rewrite fn_lookup_insert_ne by lia. by rewrite fn_lookup_insert.
  - intros Hrange. rewrite Hi. apply wrap32_in_range. lia.
  - exists (next_float h), (next_int h). simpl.
    by rewrite !fn_lookup_insert.
Qed.

(** Away from an episode boundary the frame returned shares its counters
    with the adapter. *)
Lemma step_continues action a (self : t E) h pr ps o rew e :
  episode_return self = Some pr -> episode_step self = Some ps ->
  item action = Ok a ->
  env_step a (env self) = (o, rew, false, false, e) ->
  exists fr self' h',
    step E env_reset env_step action self h = Ok (fr, self', h') /\
    episode_return self' = Some (f_episode_return fr) /\
    episode_step self' = Some (f_episode_step fr) /\
    f_episode_return fr = pr /\ f_episode_step fr = ps.
Proof.
  intros Hr Hs Hitem Hstep. unfold step. rewrite Hitem. simpl.
  rewrite Hstep, Hs, Hr. simpl.
  eexists _, _, _. split; [reflexivity|]. by simpl.
Qed.

End Facts.

(** An instance: return 4 and step count 7 before a terminal step of
    reward 1. *)
Lemma episode_boundary_accounting_witness :
  exists fr self' h',
    step unit (fun _ e => ([], e)) (fun _ e => ([], 1%R, true, false, e))
      (TInt 3)
      (mk unit tt (Some 0) (Some 0)) (mk_heap (fun _ => 4%R) (fun _ => 7%Z) 1 1)
      = Ok (fr, self', h') /\
    floats h' (f_episode_return fr) = (4 + 1)%R /\
    ints h' (f_episode_step fr) = 8%Z.
Proof.
  destruct (episode_boundary_accounting (fun _ e => ([], e))
              (fun _ e => ([], 1%R, true, false, e)) (TInt 3) (SInt 3)
              (mk unit tt (Some 0) (Some 0))
              (mk_heap (fun _ => 4%R) (fun _ => 7%Z) 1 1)
              0 0 [] 1%R true false tt)
    as (fr & self' & h' & Hstep & Hret & _ & Hcnt & _).
  - reflexivity.
  - reflexivity.
  - simpl. lia.
  - simpl. lia.
  - reflexivity.
  - reflexivity.
  - reflexivity.
  - exists fr, self', h'. split; [exact Hstep|]. split; [exact Hret|].
    apply Hcnt. simpl. lia.
Defined.

End EnvironmentFacts.

(** ** The pipeline: index conservation and shutdown *)

Module PipelineFacts.
Import DistributedTrainer.

(** Replacing one element of a list moves only that element's share of a
    [flat_map]. *)
Lemma flat_map_insert_split {A B} (f : A -> list B) (l : list A) i x y :
  l !! i = Some x ->
  exists rest,
    flat_map f l ≡ₚ f x ++ rest /\
    flat_map f (<[i := y]> l) ≡ₚ f y ++ rest.
Proof.
  intros Hi.
  exists (flat_map f (take i l) ++ flat_map f (drop (S i) l)). split.
  - rewrite <- (take_drop_middle l i x Hi) at 1.
    rewrite flat_map_app. simpl. solve_Permutation.
  - rewrite (insert_take_drop l i y) by (by eapply lookup_lt_Some).
    rewrite flat_map_app. simpl. solve_Permutation.
Qed.

Lemma flat_map_nil {A B} (f : A -> list B) (l : list A) :
  Forall (fun x => f x = []) l -> flat_map f l = [].
Proof. induction 1 as [|x l Hx _ IH]; simpl; [done|]. by rewrite Hx, IH. Qed.

Section Pipeline.
Context {E : Type}.
Variable env_reset : option Z -> E -> list Z * E.
Variable env_step : scalar -> E -> (list Z * R * bool * bool) * E.
Variable get_action : dict -> list tensor -> dict * list tensor.
Variable num_steps : nat.
Variable batch_size : nat.

Local Abbreviation step := (step E env_reset env_step get_action num_steps batch_size).
Local Abbreviation exec := (exec E env_reset env_step get_action num_steps batch_size).

(** Every index token of a state: on a queue, held, or abandoned. *)
Local Abbreviation tokens s :=
  (free_indices s ++ full_queue s ++ in_flight s ++ abandoned s).

Lemma step_tokens s ev s' : step s ev s' -> tokens s' ≡ₚ tokens s.
Proof.
  intros Hstep.
  destruct Hstep; unfold free_indices, in_flight, abandoned; simpl;
    repeat match goal with
    | H : free_queue _ = _ |- _ => rewrite H
    | H : full_queue _ = _ |- _ => rewrite H
    end;
    rewrite ?omap_app; simpl;
    try match goal with
    | H : workers _ !! _ = Some ?x |- context [<[_ := ?y]> (workers _)] =>
        destruct (flat_map_insert_split
          (fun w => held_by_worker (w_pc w)) _ _ x y H) as (rh & Hh1 & Hh2);
        destruct (flat_map_insert_split
          (fun w => abandoned_by_worker (w_pc w)) _ _ x y H) as (ra & Ha1 & Ha2);
        simpl in Hh1, Hh2, Ha1, Ha2; rewrite Hh1, Hh2, Ha1, Ha2
    | H : learners _ !! _ = Some ?x |- context [<[_ := ?y]> (learners _)] =>
        destruct (flat_map_insert_split held_by_learner _ _ x y H)
          as (rh & Hh1 & Hh2);
        destruct (flat_map_insert_split abandoned_by_learner _ _ x y H)
          as (ra & Ha1 & Ha2);
        simpl in Hh1, Hh2, Ha1, Ha2; rewrite Hh1, Hh2, Ha1, Ha2
    end;
    solve_Permutation.
Qed.

Lemma exec_tokens s tr s' : exec s tr s' -> tokens s' ≡ₚ tokens s.
Proof.
  induction 1 as [s|s ev s' tr s'' Hstep _ IH]; [done|].
  by rewrite IH, (step_tokens _ _ _ Hstep).
Qed.

(** A step of the protocol proper abandons nothing. *)
Lemma step_abandoned s ev s' :
  step s ev s' -> protocol_event ev -> abandoned s' ≡ₚ abandoned s.
Proof.
  intros Hstep Hev.
  destruct Hstep; unfold abandoned; simpl; try done;
    match goal with
    | H : workers _ !! _ = Some ?x |- context [<[_ := ?y]> (workers _)] =>
        destruct (flat_map_insert_split
          (fun w => abandoned_by_worker (w_pc w)) _ _ x y H) as (ra & Ha1 & Ha2);
        simpl in Ha1, Ha2; rewrite Ha1, Ha2
    | H : learners _ !! _ = Some ?x |- context [<[_ := ?y]> (learners _)] =>
        destruct (flat_map_insert_split abandoned_by_learner _ _ x y H)
          as (ra & Ha1 & Ha2);
        simpl in Ha1, Ha2; rewrite Ha1, Ha2
    end;
    done.
Qed.

Lemma exec_abandoned s tr s' :
  exec s tr s' -> Forall protocol_event tr -> abandoned s' ≡ₚ abandoned s.
Proof.
  induction 1 as [s|s ev s' tr s'' Hstep _ IH]; intros Htr; [done|].
  apply Forall_cons in Htr as [Hev Htr].
  by rewrite (IH Htr), (step_abandoned _ _ _ Hstep Hev).
Qed.

Lemma initial_tokens num_storages sh actors num_learners :
  free_indices (initial E num_storages sh actors num_learners) = seq 0 num_storages /\
  full_queue (initial E num_storages sh actors num_learners) = [] /\
  in_flight (initial E num_storages sh actors num_learners) = [] /\
  abandoned (initial E num_storages sh actors num_learners) = [].
Proof.
  unfold free_indices, in_flight, abandoned, initial. simpl.
  split; [|split; [done|split]].
  - induction (seq 0 num_storages) as [|i l IH]; simpl; [done|]. by f_equal.
  - rewrite !flat_map_nil; [done| |].
    + by apply Forall_replicate.
    + apply Forall_forall. intros w Hw.
      apply list_elem_of_In, in_map_iff in Hw as (a & <- & _). done.
  - rewrite !flat_map_nil; [done| |].
    + by apply Forall_replicate.
    + apply Forall_forall. intros w Hw.
      apply list_elem_of_In, in_map_iff in Hw as (a & <- & _). done.
Qed.

(** Index conservation, exceptions included: in every reachable state
    every index is once on Free, on Full, held, or abandoned by a worker
    or learner that an exception ended. *)
Lemma index_conservation_with_faults num_storages sh actors num_learners tr s :
  exec (initial E num_storages sh actors num_learners) tr s ->
  tokens s ≡ₚ seq 0 num_storages.
Proof.
  intros Hexec. rewrite (exec_tokens _ _ _ Hexec).
  destruct (initial_tokens num_storages sh actors num_learners)
    as (-> & -> & -> & ->).
  simpl. by rewrite app_nil_r.
Qed.

(** C1: from the state in which every index [0 .. S - 1] is once on Free,
    after any interleaving of worker steps (Free.get, the rollout,
    Full.put), learner steps (the [batch_size] Full.get's, building the
    batch, the Free.put of each index) and sentinels put on Free, every
    index of [0 .. S - 1] is exactly once on Free, on Full or held by a
    worker or learner: none is duplicated, none is lost, and the three
    sizes add up to [S]. *)
Theorem index_conservation num_storages sh actors num_learners tr s :
  exec (initial E num_storages sh actors num_learners) tr s ->
  Forall protocol_event tr ->
  free_indices s ++ full_queue s ++ in_flight s ≡ₚ seq 0 num_storages /\
  NoDup (free_indices s ++ full_queue s ++ in_flight s) /\
  (forall i, i < num_storages <->
     i ∈ free_indices s \/ i ∈ full_queue s \/ i ∈ in_flight s) /\
  length (free_indices s) + length (full_queue s) + length (in_flight s)
    = num_storages.
Proof.
  intros Hexec Htr.
  assert (free_indices s ++ full_queue s ++ in_flight s ≡ₚ seq 0 num_storages)
    as Hperm.
  { pose proof (index_conservation_with_faults _ _ _ _ _ _ Hexec) as Hall.
    pose proof (exec_abandoned _ _ _ Hexec Htr) as Hab.
    destruct (initial_tokens num_storages sh actors num_learners)
      as (_ & _ & _ & Hnil).
    rewrite Hnil in Hab. apply Permutation_nil_r in Hab.
    rewrite Hab in Hall. by rewrite !app_nil_r in Hall. }
  split; [exact Hperm|]. split; [|split].
  - rewrite Hperm. apply NoDup_seq.
  - intros i. rewrite <- !elem_of_app, Hperm, elem_of_seq. lia.
  - apply Permutation_length in Hperm.
    rewrite !length_app, length_seq in Hperm. lia.
Qed.

(** *** Shutdown *)

Local Abbreviation stopped w s := (w_pc <$> workers s !! w = Some WStopped).

(** A worker that left its loop takes no step, and stays where it is. *)
Lemma step_stopped w s ev s' :
  step s ev s' -> stopped w s -> worker_of ev <> Some w /\ stopped w s'.
Proof.
  intros Hstep Hw.
  destruct Hstep; simpl; (split; [|try done]);
    try discriminate;
    try (intros [= ->];
         match goal with
         | H : workers _ !! _ = Some _ |- _ => rewrite H in Hw; discriminate Hw
         end);
    match goal with
    | H : workers _ !! ?w' = Some _ |- _ =>
        destruct (decide (w' = w)) as [->|Hne];
        [rewrite H in Hw; discriminate Hw
        |by rewrite list_lookup_insert_ne]
    end.
Qed.

Lemma exec_stopped w s tr s' :
  exec s tr s' -> stopped w s ->
  Forall (fun ev => worker_of ev <> Some w) tr /\ stopped w s'.
Proof.
  induction 1 as [s|s ev s' tr s'' Hstep _ IH]; intros Hw; [done|].
  destruct (step_stopped w _ _ _ Hstep Hw) as [Hev Hw'].
  destruct (IH Hw') as [Htr Hw'']. split; [by constructor|done].
Qed.

(** Dequeuing the sentinel takes the worker out of its loop. *)
Lemma step_sentinel_stops w s s' :
  step s (EvFreeGet w None) s' -> stopped w s'.
Proof.
  inversion 1; subst; simpl.
  rewrite list_lookup_insert_eq; [done|]. by eapply lookup_lt_Some.
Qed.

(** The shared storages change only in the rollout step of a worker. *)
Lemma step_store s ev s' :
  step s ev s' ->
  store s' = store s \/
  exists w idx, ev = EvFill w idx \/ exists e, ev = EvFault w idx e.
Proof.
  destruct 1; simpl;
    first [by left | right; eexists _, _; first [by left | right; by eexists]].
Qed.

(** C8: once [free_queue.get()] has returned the sentinel to a worker, the
    worker performs no further event: no [Free.get], no rollout into the
    shared storages, no [Full.put]; it stays out of its loop. *)
Theorem sentinel_shutdown w s tr s' tr1 tr2 :
  exec s tr s' ->
  tr = tr1 ++ EvFreeGet w None :: tr2 ->
  Forall (fun ev => worker_of ev <> Some w) tr2 /\ stopped w s'.
Proof.
  intros Hexec. revert tr1.
  induction Hexec as [s|s ev s' tr s'' Hstep Hexec IH]; intros tr1 Htr.
  - by destruct tr1.
  - destruct tr1 as [|ev1 tr1]; simpl in Htr; injection Htr as -> ->.
    + apply (exec_stopped w _ _ _ Hexec).
      by apply step_sentinel_stops in Hstep.
    + by apply (IH tr1).
Qed.

(** *** The executable transition function is sound *)

Local Abbreviation apply_event :=
  (apply_event E env_reset env_step get_action num_steps batch_size).
Local Abbreviation run :=
  (run E env_reset env_step get_action num_steps batch_size).

Lemma apply_event_sound s ev s' : apply_event s ev = Some s' -> step s ev s'.
Proof.
  unfold DistributedTrainer.apply_event, set_worker.
  destruct ev as [|w r|w idx|w idx e|w idx|l|l idx|l|l e|l idx|l]; intros H;
    repeat match type of H with
    | context [match ?x with _ => _ end] => destruct x eqn:?; try discriminate H
    end;
    injection H as <-; subst;
    repeat match goal with H : _ /\ _ |- _ => destruct H as [? ->] end;
    first
      [ by constructor
      | by eapply step_get_index
      | by eapply step_get_sentinel
      | by eapply step_fill
      | by eapply step_fault
      | by eapply step_full_put
      | by eapply step_lock
      | by eapply step_full_get
      | by eapply step_batch
      | by eapply step_batch_fault
      | by eapply step_free_put
      | by eapply step_return ].
Qed.

Lemma run_sound tr : forall s s', run s tr = Some s' -> exec s tr s'.
Proof.
  induction tr as [|ev tr IH]; intros s s' H; simpl in H.
  - injection H as <-. constructor.
  - destruct (apply_event s ev) as [s1|] eqn:Hev; [|discriminate H].
    eapply exec_cons; [by apply apply_event_sound | by apply IH].
Qed.

End Pipeline.
Lemma toy_run :
  exists s,
    exec unit Toy.env_reset Toy.env_step Toy.get_action Toy.num_steps
      Toy.batch_size Toy.start Toy.trace s /\
    free_queue s = [Some 0] /\ full_queue s = [1].
Proof.
  destruct (run unit Toy.env_reset Toy.env_step Toy.get_action Toy.num_steps
              Toy.batch_size Toy.start Toy.trace) as [s|] eqn:Hrun.
  - exists s. split; [by apply run_sound|].
    vm_compute in Hrun. injection Hrun as <-. done.
  - vm_compute in Hrun. discriminate Hrun.
Qed.

(** An instance: the run of the small pipeline. *)
Lemma index_conservation_witness :
  exists s,
    exec unit Toy.env_reset Toy.env_step Toy.get_action Toy.num_steps
      Toy.batch_size Toy.start Toy.trace s /\
    free_indices s ++ full_queue s ++ in_flight s ≡ₚ seq 0 2.
Proof.
  destruct toy_run as (s & Hexec & _).
  exists s. split; [exact Hexec|].
  apply (index_conservation Toy.env_reset Toy.env_step Toy.get_action
           Toy.num_steps Toy.batch_size 2 (Toy.pool 2) [Toy.the_actor] 1
           Toy.trace s Hexec).
  repeat constructor.
Defined.

(** An instance: in the run of the small pipeline the worker dequeues the
    sentinel; only the learner acts after that. *)
Lemma sentinel_shutdown_witness :
  exists s,
    exec unit Toy.env_reset Toy.env_step Toy.get_action Toy.num_steps
      Toy.batch_size Toy.start Toy.trace s /\
    Forall (fun ev => worker_of ev <> Some 0)
      [EvLock 0; EvFullGet 0 0; EvBatch 0; EvFreePut 0 0; EvReturn 0] /\
    w_pc <$> workers s !! 0 = Some WStopped.
Proof.
  destruct toy_run as (s & Hexec & _).
  exists s. split; [exact Hexec|].
  apply (sentinel_shutdown Toy.env_reset Toy.env_step Toy.get_action
           Toy.num_steps Toy.batch_size 0 Toy.start Toy.trace s
           [EvFreeGet 0 (Some 0); EvFill 0 0; EvFullPut 0 0; EvSentinel;
            EvFreeGet 0 (Some 1); EvFill 0 1; EvFullPut 0 1]
           [EvLock 0; EvFullGet 0 0; EvBatch 0; EvFreePut 0 0; EvReturn 0]
           Hexec).
  reflexivity.
Defined.

End PipelineFacts.

(** ** [DistributedTrainer.act]: what a rollout leaves in the slot *)

Module ActFacts.
Import DistributedTrainer.

Lemma write_inv stg idx t k v stg' :
  write stg idx t k v = Ok stg' ->
  frame_at stg' k idx t = Some (cast k v) /\
  forall k' idx' t', (k' <> k \/ idx' <> idx \/ t' <> t) ->
    frame_at stg' k' idx' t' = frame_at stg k' idx' t'.
Proof.
  unfold write. intros H.
  apply bind_Ok in H as (slot & Hslot & H).
  apply bind_Ok in H as (slot' & Hslot' & [= <-]).
  apply getitem_inv in Hslot. apply setitem_inv in Hslot' as [Ht ->].
  pose proof (lookup_lt_Some _ _ _ Hslot) as Hidx.
  unfold frame_at. split.
  - rewrite fn_lookup_insert. rewrite list_lookup_insert_eq by done. simpl.
    by rewrite list_lookup_insert_eq.
  - intros k' idx' t' Hne.
    destruct (decide (k' = k)) as [->|Hk]; [|by rewrite fn_lookup_insert_ne].
    rewrite fn_lookup_insert.
    destruct (decide (idx' = idx)) as [->|Hi]; [|by rewrite list_lookup_insert_ne].
    rewrite list_lookup_insert_eq by done. rewrite Hslot. simpl.
    apply list_lookup_insert_ne. intros ->. by destruct Hne as [?|[?|?]].
Qed.

Lemma write_keys_inv (d : dict) idx t ks : forall stg stg',
  NoDup ks ->
  for_each
    (fun stg k => match d k with Some v => write stg idx t k v | None => Ok stg end)
    ks stg = Ok stg' ->
  (forall k v, k ∈ ks -> d k = Some v ->
     frame_at stg' k idx t = Some (cast k v)) /\
  (forall k, k ∉ ks \/ d k = None ->
     frame_at stg' k idx t = frame_at stg k idx t) /\
  (forall k idx' t', idx' <> idx \/ t' <> t ->
     frame_at stg' k idx' t' = frame_at stg k idx' t').
Proof.
  induction ks as [|k0 ks IH]; intros stg stg' Hnd H; simpl in H.
  - injection H as <-. split; [|done]. intros k v Hk. by apply elem_of_nil in Hk.
  - apply NoDup_cons in Hnd as [Hk0 Hnd].
    apply bind_Ok in H as (stg1 & H1 & H).
    destruct (IH stg1 stg' Hnd H) as (Hin & Hout & Hoth).
    assert (frame_at stg1 k0 idx t =
              match d k0 with Some v => Some (cast k0 v) | None => frame_at stg k0 idx t end
            /\ forall k' idx' t', (k' <> k0 \/ idx' <> idx \/ t' <> t) ->
                 frame_at stg1 k' idx' t' = frame_at stg k' idx' t') as [Hk0' Hrest].
    { destruct (d k0) as [v|]; [by apply write_inv|]. by injection H1 as <-. }
    split; [|split].
    + intros k v Hk Hd. apply elem_of_cons in Hk as [->|Hk]; [|by apply Hin].
      rewrite Hout by (by left). by rewrite Hk0', Hd.
    + intros k Hk.
      destruct (decide (k = k0)) as [->|Hne].
      * destruct Hk as [Hk|Hd]; [by rewrite not_elem_of_cons in Hk; destruct Hk|].
        rewrite Hout by (by left). by rewrite Hk0', Hd.
      * rewrite Hout, Hrest; [done|by left|].
        destruct Hk as [Hk|Hd]; [|by right].
        rewrite not_elem_of_cons in Hk. left. tauto.
    + intros k idx' t' Hne. rewrite Hoth by done. apply Hrest. tauto.
Qed.

Lemma NoDup_keys : NoDup keys.
Proof. by apply (bool_decide_unpack (NoDup keys)). Qed.

Lemma elem_of_keys (k : key) : k ∈ keys.
Proof. unfold keys, Key.keys. destruct k; rewrite !elem_of_cons; tauto. Qed.

Lemma write_dict_inv stg idx t d stg' :
  write_dict stg idx t d = Ok stg' ->
  (forall k, frame_at stg' k idx t =
     match d k with Some v => Some (cast k v) | None => frame_at stg k idx t end) /\
  (forall k idx' t', idx' <> idx \/ t' <> t ->
     frame_at stg' k idx' t' = frame_at stg k idx' t').
Proof.
  intros H. apply write_keys_inv in H as (Hin & Hout & Hoth); [|apply NoDup_keys].
  split; [|done].
  intros k. destruct (d k) as [v|] eqn:Hd.
  - by apply Hin; [apply elem_of_keys|].
  - apply Hout. by right.
Qed.

(** Two dictionaries written one after the other into the same frame. *)
Lemma write_dicts_inv stg idx t d1 d2 stg1 stg2 :
  write_dict stg idx t d1 = Ok stg1 ->
  write_dict stg1 idx t d2 = Ok stg2 ->
  (forall k v, merged d1 d2 k = Some v ->
     frame_at stg2 k idx t = Some (cast k v)) /\
  (forall k idx' t', idx' <> idx \/ t' <> t ->
     frame_at stg2 k idx' t' = frame_at stg k idx' t').
Proof.
  intros H1 H2.
  apply write_dict_inv in H1 as [H1 H1'], H2 as [H2 H2'].
  split.
  - intros k v. unfold merged. rewrite H2, H1.
    destruct (d2 k); [by intros [= ->]|by intros ->].
  - intros k idx' t' Hne. by rewrite H2', H1'.
Qed.

Section Act.
Context {E : Type}.
Variable env_reset : option Z -> E -> list Z * E.
Variable env_step : scalar -> E -> (list Z * R * bool * bool) * E.
Variable get_action : dict -> list tensor -> dict * list tensor.
Variable num_steps : nat.

Local Abbreviation rollout_step :=
  (rollout_step E env_reset env_step get_action).
Local Abbreviation act_body :=
  (act_body E env_reset env_step get_action num_steps).

(** One step of the rollout writes frame [t + 1] of the slot, from the
    local variables as the step leaves them, and nothing else. *)
Lemma rollout_step_inv idx a sh t a' sh' :
  rollout_step idx (a, sh) t = Ok (a', sh') ->
  (forall k v, written E a' k = Some v ->
     frame_at (storages sh') k idx (t + 1) = Some (cast k v)) /\
  (forall k idx' t', idx' <> idx \/ t' <> t + 1 ->
     frame_at (storages sh') k idx' t' = frame_at (storages sh) k idx' t').
Proof.
  unfold DistributedTrainer.rollout_step.
  destruct (get_action _ _) as [ao st]. intros H.
  apply bind_Ok in H as (act & _ & H).
  apply bind_Ok in H as ([[fr env'] h'] & _ & H).
  apply bind_Ok in H as (stg1 & H1 & H).
  apply bind_Ok in H as (stg2 & H2 & [= <- <-]).
  simpl. unfold written. simpl.
  by apply (write_dicts_inv _ _ _ _ _ _ _ H1 H2).
Qed.

(** The loop [for t in range(i, i + n)]: earlier frames and other slots
    are left alone, and the last frame written holds the local variables
    the loop ends with. *)
Lemma rollout_inv idx n : forall i a sh a' sh',
  for_each (rollout_step idx) (seq i n) (a, sh) = Ok (a', sh') ->
  (forall k idx' t', idx' <> idx \/ t' <= i ->
     frame_at (storages sh') k idx' t' = frame_at (storages sh) k idx' t') /\
  (0 < n -> forall k v, written E a' k = Some v ->
     frame_at (storages sh') k idx (i + n) = Some (cast k v)) /\
  (n = 0 -> a' = a /\ sh' = sh).
Proof.
  induction n as [|n IH]; intros i a sh a' sh' H; simpl in H.
  - injection H as <- <-. split; [done|]. split; [lia|done].
  - apply bind_Ok in H as ([a1 sh1] & H1 & H).
    apply rollout_step_inv in H1 as [Hw1 Ho1].
    destruct (IH (S i) a1 sh1 a' sh' H) as (Ho & Hw & Hz).
    split; [|split; [|lia]].
    + intros k idx' t' Hne. rewrite Ho by lia. apply Ho1. lia.
    + intros _ k v Hk.
      destruct n as [|n].
      * destruct (Hz eq_refl) as [-> ->].
        by apply Hw1.
      * replace (i + S (S n)) with (S i + S n) by lia. apply Hw; [lia|done].
Qed.

(** After [act_body], the last frame of the slot holds the local variables
    the worker keeps for its next iteration. *)
Lemma act_body_last_frame idx a sh a' sh' :
  act_body idx (a, sh) = Ok (a', sh') ->
  forall k v, written E a' k = Some v ->
    frame_at (storages sh') k idx num_steps = Some (cast k v).
Proof.
  unfold DistributedTrainer.act_body. intros H.
  apply bind_Ok in H as (stg1 & H1 & H).
  apply bind_Ok in H as (stg2 & H2 & H).
  apply bind_Ok in H as (buffers & _ & H).
  destruct (write_dicts_inv _ _ _ _ _ _ _ H1 H2) as [Hw0 _].
  apply rollout_inv in H as (Ho & Hw & Hz).
  destruct num_steps as [|n].
  - destruct (Hz eq_refl) as [-> ->]. simpl. exact Hw0.
  - intros k v Hk. apply (Hw ltac:(lia) k v Hk).
Qed.

(** After [act_body], frame 0 of the slot holds the local variables the
    worker entered the iteration with. *)
Lemma act_body_first_frame idx a sh a' sh' :
  act_body idx (a, sh) = Ok (a', sh') ->
  forall k v, written E a k = Some v ->
    frame_at (storages sh') k idx 0 = Some (cast k v).
Proof.
  unfold DistributedTrainer.act_body. intros H.
  apply bind_Ok in H as (stg1 & H1 & H).
  apply bind_Ok in H as (stg2 & H2 & H).
  apply bind_Ok in H as (buffers & _ & H).
  destruct (write_dicts_inv _ _ _ _ _ _ _ H1 H2) as [Hw0 _].
  apply rollout_inv in H as (Ho & _ & _).
  intros k v Hk. rewrite Ho by lia. simpl. by apply Hw0.
Qed.

(** Every key of [env_output] is written. *)
Lemma written_env_key (a : actor E) k :
  k ∈ [Key.obs; Key.reward; Key.terminated; Key.truncated;
       Key.episode_return; Key.episode_step; Key.last_action] ->
  is_Some (written E a k).
Proof.
  intros Hk. unfold written, merged.
  destruct (actor_output E a k); [by eexists|].
  rewrite !elem_of_cons, elem_of_nil in Hk.
  destruct Hk as [->|[->|[->|[->|[->|[->|[->|[]]]]]]]]; by eexists.
Qed.

(** Two iterations of the loop on the same slot, the second starting from
    the local variables the first ended with: timestep 0 of the second
    fill is timestep [num_steps] of the first.  [sh2] is the pool as the
    second iteration finds it, whatever happened to it in between. *)
Lemma act_body_overlap idx a sh a1 sh1 sh2 a2 sh3 k :
  act_body idx (a, sh) = Ok (a1, sh1) ->
  act_body idx (a1, sh2) = Ok (a2, sh3) ->
  k ∈ [Key.obs; Key.terminated; Key.truncated] ->
  exists v,
    frame_at (storages sh1) k idx num_steps = Some v /\
    frame_at (storages sh3) k idx 0 = Some v.
Proof.
  intros H1 H2 Hk.
  destruct (written_env_key a1 k) as [v Hv].
  { rewrite !elem_of_cons, elem_of_nil in *. tauto. }
  exists (cast k v). split.
  - by apply (act_body_last_frame _ _ _ _ _ H1).
  - by apply (act_body_first_frame _ _ _ _ _ H2).
Qed.

Variable batch_size : nat.

Local Abbreviation step :=
  (step E env_reset env_step get_action num_steps batch_size).
Local Abbreviation exec :=
  (exec E env_reset env_step get_action num_steps batch_size).

(** The local variables of a worker change only in its rollouts. *)
Lemma step_local w s ev s' :
  step s ev s' -> (forall i, ev <> EvFill w i) ->
  w_local <$> workers s' !! w = w_local <$> workers s !! w.
Proof.
  intros Hstep Hev.
  destruct Hstep; simpl; try done;
    match goal with
    | H : workers _ !! ?w' = Some _ |- _ =>
        destruct (decide (w' = w)) as [->|Hne];
        [|by rewrite list_lookup_insert_ne]
    end;
    try (by destruct (Hev idx));
    (rewrite list_lookup_insert_eq by (by eapply lookup_lt_Some));
    match goal with H : workers _ !! _ = Some _ |- _ => by rewrite H end.
Qed.

Lemma exec_local w s tr s' :
  exec s tr s' -> Forall (fun ev => forall i, ev <> EvFill w i) tr ->
  w_local <$> workers s' !! w = w_local <$> workers s !! w.
Proof.
  induction 1 as [s|s ev s' tr s'' Hstep _ IH]; intros Htr; [done|].
  apply Forall_cons in Htr as [Hev Htr].
  by rewrite (IH Htr), (step_local w _ _ _ Hstep Hev).
Qed.

Lemma step_fill_inv w idx s s' :
  step s (EvFill w idx) s' ->
  exists a a',
    workers s !! w = Some (mk_worker E (WFill idx) a) /\
    act_body idx (a, store s) = Ok (a', store s') /\
    workers s' !! w = Some (mk_worker E (WPublish idx) a').
Proof.
  inversion 1; subst. exists a, a'. simpl. split; [done|]. split; [done|].
  apply list_lookup_insert_eq. by eapply lookup_lt_Some.
Qed.

(** C3: when a worker fills the same slot in two successive rollouts (its
    two successive dequeues from Free gave the same index; anything may
    have happened in between, other workers and the learners included),
    timestep 0 of the second fill equals timestep [num_steps] of the first
    fill for [obs], [terminated] and [truncated]: both are the frame the
    worker kept from the end of the first rollout. *)
Theorem overlap_correctness w idx s s1 tr s2 s3 k :
  step s (EvFill w idx) s1 ->
  exec s1 tr s2 ->
  Forall (fun ev => forall i, ev <> EvFill w i) tr ->
  step s2 (EvFill w idx) s3 ->
  k ∈ [Key.obs; Key.terminated; Key.truncated] ->
  exists v,
    frame_at (storages (store s1)) k idx num_steps = Some v /\
    frame_at (storages (store s3)) k idx 0 = Some v.
Proof.
  intros Hfill1 Hexec Htr Hfill2 Hk.
  apply step_fill_inv in Hfill1 as (a & a1 & _ & Hbody1 & Hw1).
  apply step_fill_inv in Hfill2 as (a1' & a2 & Hw2 & Hbody2 & _).
  pose proof (exec_local w _ _ _ Hexec Htr) as Hlocal.
  rewrite Hw1, Hw2 in Hlocal. simpl in Hlocal. injection Hlocal as ->.
  by apply (act_body_overlap idx a (store s) a1 (store s1) (store s2) a2
              (store s3) k).
Qed.

End Act.

Lemma toy_refill :
  exists s s1 s2 s3,
    apply_event unit Toy.env_reset Toy.env_step Toy.get_action Toy.num_steps
      Toy.batch_size Toy.start1 (EvFreeGet 0 (Some 0)) = Some s /\
    apply_event unit Toy.env_reset Toy.env_step Toy.get_action Toy.num_steps
      Toy.batch_size s (EvFill 0 0) = Some s1 /\
    run unit Toy.env_reset Toy.env_step Toy.get_action Toy.num_steps
      Toy.batch_size s1 Toy.refill_between = Some s2 /\
    apply_event unit Toy.env_reset Toy.env_step Toy.get_action Toy.num_steps
      Toy.batch_size s2 (EvFill 0 0) = Some s3.
Proof.
  eexists _, _, _, _.
  split; [cbv; reflexivity|].
  split; [cbv; reflexivity|].
  split; [cbv; reflexivity|].
  cbv; reflexivity.
Qed.

(** An instance: the single slot of the small pipeline, filled twice. *)
Lemma overlap_correctness_witness :
  exists s s1 s2 s3 v,
    apply_event unit Toy.env_reset Toy.env_step Toy.get_action Toy.num_steps
      Toy.batch_size s (EvFill 0 0) = Some s1 /\
    run unit Toy.env_reset Toy.env_step Toy.get_action Toy.num_steps
      Toy.batch_size s1 Toy.refill_between = Some s2 /\
    apply_event unit Toy.env_reset Toy.env_step Toy.get_action Toy.num_steps
      Toy.batch_size s2 (EvFill 0 0) = Some s3 /\
    frame_at (storages (store s1)) Key.obs 0 Toy.num_steps = Some v /\
    frame_at (storages (store s3)) Key.obs 0 0 = Some v.
Proof.
  destruct toy_refill as (s & s1 & s2 & s3 & _ & H1 & H2 & H3).
  destruct (overlap_correctness Toy.env_reset Toy.env_step Toy.get_action
              Toy.num_steps Toy.batch_size 0 0 s s1 Toy.refill_between s2 s3
              Key.obs) as [v [Hv1 Hv3]].
  - by apply PipelineFacts.apply_event_sound.
  - by apply PipelineFacts.run_sound.
  - repeat constructor; intros i; discriminate.
  - by apply PipelineFacts.apply_event_sound.
  - rewrite elem_of_cons. by left.
  - exists s, s1, s2, s3, v. repeat split; assumption.
Defined.

End ActFacts.

(** ** [DistributedStorage]: the constructor and [sample] *)

Module DistributedStorageFacts.
Import DistributedStorage.

(** The constructor, when it succeeds, allocates one segment per key and
    slot. *)
Lemma init_allocates junk obs_shape action_shape action_type
    num_steps num_storages batch_size shm self shm' :
  __init__ junk obs_shape action_shape action_type num_steps num_storages
    batch_size shm = (Ok self, shm') ->
  length shm' = length shm + 10 * num_storages /\
  forall k, length (storages self k) = num_storages /\
    Forall (fun slot => length slot = num_steps + 1) (storages self k).
Proof.
  unfold __init__.
  destruct (action_type_branch _ _) as [d|e]; [|by intros [=]].
  destruct (specs _ _ _) as [sp|e]; [|by intros [=]].
  intros [= <- <-]. simpl. split.
  - rewrite length_app. f_equal.
    generalize 0 at 1. induction num_storages as [|n IH]; intros i; simpl; [done|].
    rewrite IH. lia.
  - intros k. split; [by rewrite length_replicate|].
    apply Forall_replicate. by rewrite length_replicate.
Qed.

(** C10, as the specification states it, fails in its second half: for
    ["Box"] the branch reads [action_shape[0]], which raises [IndexError]
    when the shape is empty. *)
Lemma action_type_box_counterexample :
  ~ never_raises_on_branch "Box" [].
Proof. intros H. apply H. by right. Qed.

(** C10 (as amended): for every [action_type] other than ["Discrete"] and
    ["Box"] the constructor raises [NotImplementedError] and allocates no
    shared-memory segment; for ["Discrete"] the action-type branch never
    raises, and for ["Box"] it never raises [NotImplementedError]: it
    raises only [IndexError], and exactly when [action_shape] is empty. *)
Theorem init_action_type junk obs_shape action_shape action_type
    num_steps num_storages batch_size shm :
  (action_type <> "Discrete"%string -> action_type <> "Box"%string ->
   __init__ junk obs_shape action_shape action_type num_steps num_storages
     batch_size shm = (Raise NotImplementedError, shm)) /\
  (action_type = "Discrete"%string ->
   action_type_branch action_type action_shape = Ok 1) /\
  (action_type = "Box"%string ->
   action_type_branch action_type action_shape <> Raise NotImplementedError /\
   (action_shape = [] ->
    action_type_branch action_type action_shape = Raise IndexError) /\
   (forall n rest, action_shape = n :: rest ->
    action_type_branch action_type action_shape = Ok n)).
Proof.
  split; [|split].
  - intros H1 H2. unfold __init__, action_type_branch.
    by rewrite !decide_False by done.
  - intros ->. done.
  - intros ->. unfold action_type_branch. simpl.
    destruct action_shape as [|n rest]; simpl.
    + split; [done|]. split; [done|]. by intros n rest [=].
    + split; [done|]. split; [by intros [=]|]. by intros n' rest' [= -> ->].
Qed.

(** *** [sample] *)

Lemma get_indices_inv n : forall full indices rest,
  get_indices n full = Some (indices, rest) ->
  full = indices ++ rest /\ length indices = n.
Proof.
  induction n as [|n IH]; intros full indices rest H; simpl in H.
  - by injection H as <- <-.
  - destruct full as [|i full]; [discriminate H|].
    destruct (get_indices n full) as [[ix r]|] eqn:Hrec; [|discriminate H].
    injection H as <- <-. destruct (IH _ _ _ Hrec) as [-> <-]. done.
Qed.

(** A call of [sample] that returns has dequeued [batch_size] indices from
    Full and has put every one of them back onto Free, in that order. *)
Lemma sample_releases batch_size q storages buffers r q' :
  sample batch_size q storages buffers = Some (Ok r, q') ->
  exists indices,
    full_queue q = indices ++ full_queue q' /\
    length indices = batch_size /\
    free_queue q' = free_queue q ++ map Some indices.
Proof.
  unfold sample.
  destruct (get_indices _ _) as [[indices rest]|] eqn:Hget; [|discriminate].
  apply get_indices_inv in Hget as [Hfull Hlen].
  destruct (build_batch _ _) as [batch|e]; [|by intros [=]].
  destruct (make_state_generator _ _) as [g|e]; [|by intros [=]].
  intros [= <- <-]. by exists indices.
Qed.

Lemma getitems_lookup {A} (l : list A) indices r :
  getitems l indices = Ok r ->
  length r = length indices /\
  forall j i, indices !! j = Some i -> r !! j = l !! i.
Proof.
  revert r. induction indices as [|i0 indices IH]; intros r H; simpl in H.
  - injection H as <-. split; [done|]. by intros j i [=].
  - apply bind_Ok in H as (a & Ha & H).
    apply bind_Ok in H as (r' & Hr' & [= <-]).
    apply getitem_inv in Ha. destruct (IH _ Hr') as [Hlen Hlook].
    split; [simpl; by rewrite Hlen|].
    intros [|j] i; simpl; [by intros [= <-]|by apply Hlook].
Qed.

Lemma build_keys_inv (storages : key -> list (list tensor)) indices ks :
  forall b0 b,
  NoDup ks ->
  for_each
    (fun (batch : key -> list (list tensor)) k =>
       slots ← getitems (storages k) indices;
       col ← torch_stack slots;
       Ok (<[k := col]> batch))
    ks b0 = Ok b ->
  (forall k, k ∈ ks -> getitems (storages k) indices = Ok (b k)) /\
  (forall k, k ∉ ks -> b k = b0 k).
Proof.
  induction ks as [|k0 ks IH]; intros b0 b Hnd H; simpl in H.
  - injection H as <-. split; [|done]. intros k Hk. by apply elem_of_nil in Hk.
  - apply NoDup_cons in Hnd as [Hk0 Hnd].
    apply bind_Ok in H as (b1 & H1 & H).
    apply bind_Ok in H1 as (slots & Hcol & H1).
    apply bind_Ok in H1 as (col & Hstack & [= <-]).
    assert (col = slots) as ->.
    { destruct slots; [discriminate Hstack|by injection Hstack]. }
    destruct (IH _ _ Hnd H) as [Hin Hout].
    split.
    + intros k Hk. apply elem_of_cons in Hk as [->|Hk]; [|by apply Hin].
      rewrite (Hout k0 Hk0). by rewrite fn_lookup_insert.
    + intros k Hk. apply not_elem_of_cons in Hk as [Hne Hk].
      rewrite (Hout k Hk). by rewrite fn_lookup_insert_ne.
Qed.

(** The batch [sample] returns holds, for every key and batch position,
    the slot as it was when the batch was built: it is a value of its own,
    which later writes into the pool cannot reach. *)
Lemma sample_batch_snapshot batch_size q storages buffers batch g q' :
  sample batch_size q storages buffers = Some (Ok (batch, g), q') ->
  exists indices,
    full_queue q = indices ++ full_queue q' /\
    forall k, length (batch k) = batch_size /\
      forall j i, indices !! j = Some i -> batch k !! j = storages k !! i.
Proof.
  unfold sample.
  destruct (get_indices _ _) as [[indices rest]|] eqn:Hget; [|discriminate].
  apply get_indices_inv in Hget as [Hfull Hlen].
  destruct (build_batch _ _) as [b|e] eqn:Hb; [|by intros [=]].
  destruct (make_state_generator _ _) as [g'|e]; [|by intros [=]].
  intros [= <- <- <-]. exists indices. split; [done|].
  intros k. unfold build_batch in Hb.
  apply build_keys_inv in Hb as [Hin _]; [|apply ActFacts.NoDup_keys].
  specialize (Hin k (ActFacts.elem_of_keys k)).
  apply getitems_lookup in Hin as [Hl Hlook]. split; [lia|done].
Qed.

(** The failing input of C2: one slot on Full and a batch of one.  The
    slot is back on Free when [sample] returns; a worker that claims it
    then overwrites its recurrent-state buffer, and the generator
    [sample] returned, iterated after that, yields the new state. *)
Lemma sample_states_example :
  exists batch g q' buffers',
    sample 1 (mk_queues [] [0]) (DistributedTrainer.storages (Toy.pool 1))
      (DistributedTrainer.init_actor_state_storages (Toy.pool 1))
      = Some (Ok (batch, g), q') /\
    free_queue q' = [Some 0] /\
    DistributedTrainer.write_actor_state
      (DistributedTrainer.init_actor_state_storages (Toy.pool 1)) 0
      [TFloats [1%R]] = Ok buffers' /\
    consume (DistributedTrainer.init_actor_state_storages (Toy.pool 1)) g
      = Ok [[TFloats [0%R]]] /\
    consume buffers' g = Ok [[TFloats [1%R]]].
Proof.
  eexists _, _, _, _.
  split; [cbv; reflexivity|].
  split; [reflexivity|].
  split; [cbv; reflexivity|].
  split; reflexivity.
Qed.

(** C2 fails in the code for the recurrent states: [sample] returns
    [init_actor_states] as a generator that has not run yet, so the states
    are read from the shared buffers when the learner iterates it, after
    the indices were put back onto Free. *)
Theorem sample_states_not_materialized :
  ~ DistributedTrainer.states_materialized 1 (mk_queues [] [0]) (Toy.pool 1).
Proof.
  intros H.
  destruct sample_states_example
    as (batch & g & q' & buffers' & Hs & Hfree & Hw & Hbefore & Hafter).
  specialize (H batch g q' 0 [TFloats [1%R]] buffers' Hs).
  rewrite Hfree, Hbefore, Hafter in H.
  specialize (H ltac:(by apply list_elem_of_singleton) Hw).
  injection H as H. lra.
Qed.

End DistributedStorageFacts.

(** ** [VanillaRolloutStorage]: the constructor, [add] and [reset] *)

Module RolloutStorageFacts.
Import VanillaRolloutStorage.

Lemma for_each_app {A S} (f : S -> A -> result S) xs ys s :
  for_each f (xs ++ ys) s = for_each f xs s ≫= for_each f ys.
Proof.
  revert s. induction xs as [|x xs IH]; intros s; simpl; [done|].
  destruct (f s x) as [s'|e]; simpl; [apply IH | done].
Qed.

Lemma mod_slot_distinct T g j n :
  j < n -> n < j + T -> (g + j) mod T <> (g + n) mod T.
Proof.
  intros Hjn HnT Heq.
  pose proof (Nat.div_mod_eq (g + j) T) as H1.
  pose proof (Nat.div_mod_eq (g + n) T) as H2.
  rewrite Heq in H1.
  destruct (le_lt_dec ((g + n) / T) ((g + j) / T)) as [Hq|Hq]; nia.
Qed.

Lemma add_Ok s x :
  lengths s -> _global_step s < _num_steps s ->
  add s x =
    Ok {| _num_steps := _num_steps s; _num_envs := _num_envs s;
          _discount := _discount s; _gae_lambda := _gae_lambda s;
          _action_dim := _action_dim s;
          obs := <[_global_step s := tr_obs x]> (obs s);
          actions := <[_global_step s := tr_actions x]> (actions s);
          rewards := <[_global_step s := tr_rewards x]> (rewards s);
          terminateds :=
            <[_global_step s + 1 := tr_terminateds x]> (terminateds s);
          truncateds :=
            <[_global_step s + 1 := tr_truncateds x]> (truncateds s);
          log_probs := <[_global_step s := tr_log_probs x]> (log_probs s);
          values := <[_global_step s := tr_values x]> (values s);
          returns := returns s; advantages := advantages s;
          _global_step := (_global_step s + 1) mod _num_steps s |}.
Proof.
  intros (Ho & Ha & Hr & Hte & Htr & Hl & Hv) Hg.
  unfold add. rewrite !setitem_Ok by lia. simpl.
  by rewrite decide_False by lia.
Qed.

(** X1: [VanillaRolloutStorage.__init__] accepts the action types
    ["Discrete"] and ["Box"] only.  Any other type raises
    [NotImplementedError]; ["Box"] with an empty [action_shape] raises
    [IndexError] (at [action_shape[0]]); otherwise the constructor returns
    a storage of [num_steps] frames ([num_steps + 1] for the two flag
    fields) with the cursor at 0, the action dimension 1 for ["Discrete"]
    and [action_shape[0]] for ["Box"], and frame 0 of [terminateds] and
    [truncateds] zeroed. *)
Theorem vanilla_init_outcome junk junk_t action_shape action_type
    num_steps num_envs discount gae_lambda :
  (action_type <> "Discrete"%string -> action_type <> "Box"%string ->
   __init__ junk junk_t action_shape action_type num_steps num_envs
     discount gae_lambda = Raise NotImplementedError) /\
  (action_type = "Box"%string -> action_shape = [] ->
   __init__ junk junk_t action_shape action_type num_steps num_envs
     discount gae_lambda = Raise IndexError) /\
  (action_type = "Discrete"%string \/
   (action_type = "Box"%string /\ action_shape <> []) ->
   exists s,
     __init__ junk junk_t action_shape action_type num_steps num_envs
       discount gae_lambda = Ok s /\
     wf s /\ _num_steps s = num_steps /\ _num_envs s = num_envs /\
     _global_step s = 0 /\
     _action_dim s =
       (if decide (action_type = "Discrete"%string) then 1
        else default 0 (head action_shape)) /\
     length (obs s) = num_steps /\
     length (terminateds s) = num_steps + 1 /\
     terminateds s !! 0 = Some (replicate num_envs 0%R) /\
     truncateds s !! 0 = Some (replicate num_envs 0%R)).
Proof.
  split; [|split].
  - intros H1 H2. unfold __init__. by rewrite !decide_False by done.
  - intros -> ->. done.
  - intros Hty.
    assert (exists d,
      (if decide (action_type = "Discrete"%string) then Ok 1
       else if decide (action_type = "Box"%string) then getitem action_shape 0
       else Raise NotImplementedError) = Ok d /\
      d = (if decide (action_type = "Discrete"%string) then 1
           else default 0 (head action_shape))) as (d & Hd & Hdim).
    { destruct Hty as [->|[-> Hne]]; simpl; [by exists 1|].
      destruct action_shape as [|n rest]; [done|]. by exists n. }
    destruct (__init__ junk junk_t action_shape action_type num_steps num_envs
                discount gae_lambda) as [s|e] eqn:Hinit.
    + destruct (RolloutCycle.init_wf _ _ _ _ _ _ _ _ _ Hinit)
        as (Hwf & Hg & HT & HN & Hte & Htr).
      exists s. split; [done|]. split; [done|]. split; [done|].
      split; [done|]. split; [done|].
      pose proof (wf_obs s Hwf) as [Ho _].
      pose proof (wf_terminateds s Hwf) as [Hlte _].
      rewrite HT in Ho, Hlte.
      split; [|done].
      unfold __init__ in Hinit. rewrite Hd in Hinit. simpl in Hinit.
      apply bind_Ok in Hinit as (te & _ & Hinit).
      apply bind_Ok in Hinit as (tr & _ & [= <-]). simpl. done.
    + exfalso. unfold __init__ in Hinit. rewrite Hd in Hinit. simpl in Hinit.
      unfold torch_empty in Hinit.
      rewrite !setitem_Ok in Hinit by (rewrite length_replicate; lia).
      discriminate Hinit.
Qed.

(** X2: [add] is a ring buffer.  From a cursor within range, any number of
    calls of [add] succeeds; afterwards the cursor is the start plus the
    number of calls modulo [num_steps], and each of the last [num_steps]
    transitions is found at the position it was written to, (start + j)
    modulo [num_steps] (the two flags one frame further): older
    transitions have been overwritten. *)
Theorem add_ring_buffer s xs :
  lengths s -> _global_step s < _num_steps s ->
  exists s',
    add_all s xs = Ok s' /\ lengths s' /\ _num_steps s' = _num_steps s /\
    _global_step s' = (_global_step s + length xs) mod _num_steps s /\
    forall j x, xs !! j = Some x -> length xs <= j + _num_steps s ->
      obs s' !! ((_global_step s + j) mod _num_steps s) = Some (tr_obs x) /\
      actions s' !! ((_global_step s + j) mod _num_steps s)
        = Some (tr_actions x) /\
      rewards s' !! ((_global_step s + j) mod _num_steps s)
        = Some (tr_rewards x) /\
      log_probs s' !! ((_global_step s + j) mod _num_steps s)
        = Some (tr_log_probs x) /\
      values s' !! ((_global_step s + j) mod _num_steps s)
        = Some (tr_values x) /\
      terminateds s' !! ((_global_step s + j) mod _num_steps s + 1)
        = Some (tr_terminateds x) /\
      truncateds s' !! ((_global_step s + j) mod _num_steps s + 1)
        = Some (tr_truncateds x).
Proof.
  intros Hl Hg.
  induction xs as [|x xs IH] using rev_ind.
  - exists s. split; [done|]. split; [done|]. split; [done|]. split.
    + simpl. rewrite Nat.add_0_r. symmetry. by apply Nat.mod_small.
    + by intros j x [=].
  - destruct IH as (s1 & Hall & Hl1 & HT & Hg1 & Hrows).
    assert (_global_step s1 < _num_steps s1) as Hlt1.
    { rewrite Hg1, HT. apply Nat.mod_upper_bound. lia. }
    unfold add_all in *. rewrite for_each_app, Hall. simpl.
    rewrite (add_Ok s1 x Hl1 Hlt1).
    eexists. split; [reflexivity|].
    destruct Hl1 as (Ho & Ha & Hr & Hte & Htr & Hlp & Hv).
    split; [|split; [|split]].
    + unfold lengths. simpl. rewrite !length_insert. tauto.
    + done.
    + simpl. rewrite Hg1, HT, length_app. simpl.
      rewrite Nat.Div0.add_mod_idemp_l. f_equal. lia.
    + intros j y Hj Hlen. simpl.
      rewrite length_app in Hlen. simpl in Hlen.
      rewrite Hg1.
      destruct (decide (j = length xs)) as [->|Hne].
      * rewrite list_lookup_middle in Hj by done. injection Hj as <-.
        assert ((_global_step s + length xs) mod _num_steps s < _num_steps s)
          as Hm by (apply Nat.mod_upper_bound; lia).
        rewrite !list_lookup_insert_eq by lia. done.
      * assert (j < length xs) as Hjlt.
        { apply lookup_lt_Some in Hj. rewrite length_app in Hj. simpl in Hj. lia. }
        rewrite lookup_app_l in Hj by done.
        pose proof (mod_slot_distinct (_num_steps s) (_global_step s) j
                      (length xs) Hjlt ltac:(lia)) as Hd.
        rewrite !list_lookup_insert_ne by lia.
        apply Hrows; [done|lia].
Qed.

(** An instance: three cycles into the storage of two steps. *)
Lemma add_ring_buffer_witness :
  exists s',
    add_all storage_2x1 (cycle_2x1 ++ cycle_2x1 ++ cycle_2x1) = Ok s' /\
    _global_step s' = 0 /\
    obs s' !! 1 = Some [[2%R]] /\ terminateds s' !! 2 = Some [1%R].
Proof.
  destruct (add_ring_buffer storage_2x1 (cycle_2x1 ++ cycle_2x1 ++ cycle_2x1))
    as (s' & Hall & _ & _ & Hg & Hrows).
  - apply RolloutCycle.wf_lengths, RolloutCycle.wf_storage_2x1.
  - simpl. lia.
  - exists s'. split; [exact Hall|]. split; [exact Hg|].
    destruct (Hrows 5 (mk_transition [[2%R]] [[0%R]] [1%R] [1%R] [0%R] [0%R] [0%R]))
      as (Ho & _ & _ & _ & _ & Hte & _).
    + reflexivity.
    + simpl. lia.
    + split; [exact Ho | exact Hte].
Defined.

(** X3: on a storage of the allocated lengths, [add] succeeds when the
    cursor is below [num_steps] and raises [IndexError] otherwise (as for
    a storage built with [num_steps = 0]); the modulo by [num_steps] never
    raises [ZeroDivisionError], since the writes before it fail first. *)
Theorem add_raises_iff s x :
  lengths s ->
  (_global_step s < _num_steps s -> is_ok (add s x)) /\
  (_num_steps s <= _global_step s -> add s x = Raise IndexError) /\
  add s x <> Raise ZeroDivisionError.
Proof.
  intros Hl.
  assert (_num_steps s <= _global_step s -> add s x = Raise IndexError) as Hfail.
  { intros Hge. destruct Hl as (Ho & _). unfold add.
    assert (setitem (obs s) (_global_step s) (tr_obs x) = Raise IndexError)
      as ->; [|done].
    unfold setitem. by rewrite decide_False by lia. }
  split; [|split; [done|]].
  - intros Hg. by rewrite (add_Ok s x Hl Hg).
  - destruct (decide (_global_step s < _num_steps s)) as [Hg|Hg].
    + by rewrite (add_Ok s x Hl Hg).
    + rewrite Hfail by lia. done.
Qed.

(** Instances: the storage of two steps, and one of no step. *)
Lemma add_raises_iff_witness :
  is_ok (add storage_2x1 (mk_transition [[1%R]] [[0%R]] [0%R] [0%R] [0%R] [0%R] [0%R]))
  /\ add (blank 0 1) (mk_transition [[1%R]] [[0%R]] [0%R] [0%R] [0%R] [0%R] [0%R])
     = Raise IndexError.
Proof.
  split.
  - apply (add_raises_iff storage_2x1).
    + apply RolloutCycle.wf_lengths, RolloutCycle.wf_storage_2x1.
    + simpl. lia.
  - apply (add_raises_iff (blank 0 1)).
    + apply RolloutCycle.wf_lengths, RolloutSampling.wf_blank.
    + simpl. lia.
Defined.

Lemma last_insert_0 {A} (l : list A) x :
  last l = Some x -> last (<[0 := x]> l) = Some x.
Proof. destruct l as [|a [|b l]]; simpl; [done| |done]. by intros [= ->]. Qed.

(** X4: [reset] is idempotent, and all it changes is frame 0 of
    [terminateds] and [truncateds]: the other frames of the two fields,
    every other field and the cursor are as before. *)
Theorem reset_idempotent s :
  lengths s ->
  exists s1,
    reset s = Ok s1 /\ reset s1 = Ok s1 /\
    (forall t, 0 < t ->
       terminateds s1 !! t = terminateds s !! t /\
       truncateds s1 !! t = truncateds s !! t) /\
    obs s1 = obs s /\ actions s1 = actions s /\ rewards s1 = rewards s /\
    log_probs s1 = log_probs s /\ values s1 = values s /\
    returns s1 = returns s /\ advantages s1 = advantages s /\
    _global_step s1 = _global_step s.
Proof.
  intros (Ho & Ha & Hr & Hte & Htr & Hl & Hv).
  unfold reset, getitem_last.
  destruct (last (terminateds s)) as [te|] eqn:Ete.
  2: { apply last_None in Ete. rewrite Ete in Hte. simpl in Hte. lia. }
  destruct (last (truncateds s)) as [tr|] eqn:Etr.
  2: { apply last_None in Etr. rewrite Etr in Htr. simpl in Htr. lia. }
  simpl. rewrite !setitem_Ok by lia. simpl.
  eexists. split; [reflexivity|]. simpl.
  rewrite (last_insert_0 _ _ Ete), (last_insert_0 _ _ Etr). simpl.
  rewrite !setitem_Ok by (rewrite length_insert; lia). simpl.
  rewrite !list_insert_insert_eq.
  split; [done|]. split; [|done].
  intros t Ht. by rewrite !list_lookup_insert_ne by lia.
Qed.

(** An instance: the storage of two steps. *)
Lemma reset_idempotent_witness :
  exists s1, reset storage_2x1 = Ok s1 /\ reset s1 = Ok s1.
Proof.
  destruct (reset_idempotent storage_2x1) as (s1 & H1 & H2 & _).
  - apply RolloutCycle.wf_lengths, RolloutCycle.wf_storage_2x1.
  - exists s1. split; [exact H1 | exact H2].
Defined.

End RolloutStorageFacts.

(** ** [compute_returns_and_advantages]: the recursion and its result *)

Module GAEFacts.
Import VanillaRolloutStorage RolloutLayout.

Lemma shaped_lookup {A} n m (x : list (list A)) t f :
  shaped n m x -> x !! t = Some f -> length f = m.
Proof.
  intros [_ Hm] Hf.
  eapply (proj1 (Forall_forall _ _) Hm), list_elem_of_lookup_2, Hf.
Qed.

Lemma shaped_insert {A} n m (x : list (list A)) t f :
  shaped n m x -> length f = m -> shaped n m (<[t := f]> x).
Proof.
  intros [Hn Hm] Hf. split; [by rewrite length_insert|].
  by apply Forall_insert.
Qed.

Lemma length_gae (c c' : R) (r nv te v g : list R) n :
  length r = n -> length nv = n -> length te = n -> length v = n ->
  length g = n ->
  length (tadd (tsub (tadd r (tmul (smul c nv) (ssub 1 te))) v)
            (tmul (smul c' (ssub 1 te)) g)) = n.
Proof.
  intros. unfold tadd, tsub, tmul, smul, ssub.
  rewrite !length_zip_with, !length_map. lia.
Qed.

(** One iteration of the backward loop, in closed form. *)
Lemma gae_step_Ok s lv acc step r v te nv :
  length (terminateds s) = _num_steps s + 1 ->
  rewards s !! step = Some r -> values s !! step = Some v ->
  terminateds s !! (step + 1) = Some te ->
  next_values_at s lv step = Some nv ->
  step < length acc.2 ->
  gae_step s lv acc step =
    Ok (tadd (tsub (tadd r (tmul (smul (_discount s) nv) (ssub 1 te))) v)
          (tmul (smul (_discount s * _gae_lambda s) (ssub 1 te)) acc.1),
        <[step :=
            tadd (tsub (tadd r (tmul (smul (_discount s) nv) (ssub 1 te))) v)
              (tmul (smul (_discount s * _gae_lambda s) (ssub 1 te)) acc.1)]>
          acc.2).
Proof.
  intros Hlte Hr Hv Hte Hnv Hacc.
  unfold gae_step, next_values_at in *.
  case_decide as Hs.
  - injection Hnv as <-.
    assert (step + 1 = _num_steps s) as Hlast.
    { apply lookup_lt_Some in Hte. lia. }
    rewrite Hlast in Hte.
    rewrite (GAE.last_frame_lookup _ _ _ Hlte Hte). simpl.
    rewrite (getitem_Ok _ _ _ Hr). simpl. rewrite (getitem_Ok _ _ _ Hv). simpl.
    by rewrite setitem_Ok.
  - rewrite (getitem_Ok _ _ _ Hte). simpl. rewrite (getitem_Ok _ _ _ Hnv). simpl.
    rewrite (getitem_Ok _ _ _ Hr). simpl. rewrite (getitem_Ok _ _ _ Hv). simpl.
    by rewrite setitem_Ok.
Qed.

(** The backward loop from step [j - 1] down to 0, entered with the rows
    [j ..] done: it ends with every row satisfying the equation. *)
Lemma gae_loop_rows s lv :
  wf s -> length lv = _num_envs s ->
  forall j acc,
    j <= _num_steps s -> length acc.1 = _num_envs s ->
    shaped (_num_steps s) (_num_envs s) acc.2 ->
    (0 < j -> next_gae_at s acc.2 (j - 1) = Some acc.1) ->
    (forall t, j <= t < _num_steps s -> gae_equation s lv acc.2 t) ->
    exists acc',
      for_each (gae_step s lv) (rev (seq 0 j)) acc = Ok acc' /\
      shaped (_num_steps s) (_num_envs s) acc'.2 /\
      forall t, t < _num_steps s -> gae_equation s lv acc'.2 t.
Proof.
  intros Hwf Hlv.
  pose proof (wf_rewards s Hwf) as Hr.
  pose proof (wf_values s Hwf) as Hv.
  pose proof (wf_terminateds s Hwf) as Hte.
  induction j as [|j IH]; intros [g adv] Hj Hg Hadv Hcarry Heq;
    cbn [fst snd] in *.
  - exists (g, adv). split; [done|]. split; [done|].
    intros t Ht. apply Heq. lia.
  - rewrite seq_S, rev_app_distr. simpl.
    destruct (lookup_lt_is_Some_2 (rewards s) j) as [r Er]; [destruct Hr; lia|].
    destruct (lookup_lt_is_Some_2 (values s) j) as [v Ev]; [destruct Hv; lia|].
    destruct (lookup_lt_is_Some_2 (terminateds s) (j + 1)) as [te Ete];
      [destruct Hte; lia|].
    assert (exists nv, next_values_at s lv j = Some nv /\ length nv = _num_envs s)
      as (nv & Env & Hnv).
    { unfold next_values_at. case_decide; [by exists lv|].
      destruct (lookup_lt_is_Some_2 (values s) (j + 1)) as [nv Hn];
        [destruct Hv; lia|].
      exists nv. split; [done|]. exact (shaped_lookup _ _ _ _ _ Hv Hn). }
    rewrite (gae_step_Ok s lv (g, adv) j r v te nv); try done.
    2: { by destruct Hte. }
    2: { simpl. destruct Hadv. lia. }
    simpl.
    assert (length (tadd (tsub (tadd r (tmul (smul (_discount s) nv) (ssub 1 te))) v)
              (tmul (smul (_discount s * _gae_lambda s) (ssub 1 te)) g))
            = _num_envs s) as HG.
    { apply length_gae; try done.
      - exact (shaped_lookup _ _ _ _ _ Hr Er).
      - exact (shaped_lookup _ _ _ _ _ Hte Ete).
      - exact (shaped_lookup _ _ _ _ _ Hv Ev). }
    replace (S j - 1) with j in Hcarry by lia.
    apply IH; simpl.
    + lia.
    + exact HG.
    + by apply shaped_insert.
    + intros Hpos. unfold next_gae_at. rewrite decide_False by lia.
      replace (j - 1 + 1) with j by lia.
      apply list_lookup_insert_eq. destruct Hadv. lia.
    + intros t Ht. destruct (decide (t = j)) as [->|Hne].
      * exists r, v, te, nv, g. repeat (split; [done|]).
        split.
        -- specialize (Hcarry ltac:(lia)). unfold next_gae_at in *.
           case_decide; [done|]. by rewrite list_lookup_insert_ne by lia.
        -- apply list_lookup_insert_eq. destruct Hadv. lia.
      * destruct (Heq t ltac:(lia)) as (r' & v' & te' & nv' & g' & ? & ? & ? & ? & Hg' & Ha').
        exists r', v', te', nv', g'. repeat (split; [done|]).
        split.
        -- unfold next_gae_at in *. case_decide; [done|].
           by rewrite list_lookup_insert_ne by lia.
        -- by rewrite list_lookup_insert_ne by lia.
Qed.

(** The advantages before standardisation. *)
Lemma gae_pass_rows s lv :
  wf s -> length lv = _num_envs s ->
  exists adv,
    gae_pass s lv = Ok adv /\
    shaped (_num_steps s) (_num_envs s) adv /\
    forall t, t < _num_steps s -> gae_equation s lv adv t.
Proof.
  intros Hwf Hlv.
  destruct (gae_loop_rows s lv Hwf Hlv (_num_steps s)
              (replicate (_num_envs s) 0%R, advantages s))
    as (acc' & Hloop & Hsh & Heq); simpl.
  - done.
  - by rewrite length_replicate.
  - by apply wf_advantages.
  - intros HT. unfold next_gae_at. by rewrite decide_True.
  - intros t Ht. lia.
  - exists acc'.2. unfold gae_pass. rewrite Hloop. done.
Qed.

Lemma shaped_zip_with_tadd n m (a b : list (list R)) :
  shaped n m a -> shaped n m b -> shaped n m (zip_with tadd a b).
Proof.
  intros [Ha1 Ha2] [Hb1 Hb2]. split.
  - rewrite length_zip_with. lia.
  - apply Forall_forall. intros f Hf.
    apply list_elem_of_lookup in Hf as [i Hi].
    apply lookup_zip_with_Some in Hi as (x & y & -> & Hx & Hy).
    unfold tadd. rewrite length_zip_with.
    rewrite (shaped_lookup n m a i x), (shaped_lookup n m b i y); try done. lia.
Qed.

Lemma shaped_standardize n m (adv : list (list R)) :
  shaped n m adv -> shaped n m (standardize adv).
Proof.
  intros [H1 H2]. unfold standardize. split.
  - by rewrite length_map.
  - apply Forall_fmap. eapply Forall_impl; [exact H2|].
    simpl. intros f Hf. by rewrite length_map.
Qed.

(** X5: on a storage of the allocated shapes, and with one bootstrap value
    per environment, [compute_returns_and_advantages] does not raise; it
    replaces [returns] and [advantages] by tensors of the same shape and
    leaves every other field and the cursor as they were. *)
Theorem compute_returns_and_advantages_total s lv :
  wf s -> length lv = _num_envs s ->
  exists s',
    compute_returns_and_advantages s lv = Ok s' /\ wf s' /\
    _num_steps s' = _num_steps s /\ _num_envs s' = _num_envs s /\
    obs s' = obs s /\ actions s' = actions s /\ rewards s' = rewards s /\
    terminateds s' = terminateds s /\ truncateds s' = truncateds s /\
    log_probs s' = log_probs s /\ values s' = values s /\
    _global_step s' = _global_step s.
Proof.
  intros Hwf Hlv.
  destruct (gae_pass_rows s lv Hwf Hlv) as (adv & Hpass & Hsh & _).
  unfold compute_returns_and_advantages. rewrite Hpass. simpl.
  eexists. split; [reflexivity|]. simpl.
  split; [|repeat split; done].
  destruct Hwf. split; simpl; try done.
  - by apply shaped_zip_with_tadd.
  - by apply shaped_standardize.
Qed.

(** An instance: the storage of one step and two environments. *)
Lemma compute_returns_and_advantages_total_witness :
  exists s', compute_returns_and_advantages gae_example [100%R; 100%R] = Ok s'
    /\ wf s'.
Proof.
  destruct (compute_returns_and_advantages_total gae_example [100%R; 100%R])
    as (s' & Hrun & Hwf & _).
  - exact GAE.wf_gae_example.
  - reflexivity.
  - exists s'. split; [exact Hrun | exact Hwf].
Defined.

Lemma rsum_standardized (m c : R) (xs : list R) :
  rsum (map (fun a => ((a - m) / c)%R) xs)
  = ((rsum xs - INR (length xs) * m) / c)%R.
Proof.
  induction xs as [|x xs IH].
  - simpl. lra.
  - cbn [map rsum foldr length]. fold (rsum (map (fun a => ((a - m) / c)%R) xs)).
    fold (rsum xs). rewrite IH, S_INR. unfold Rdiv. lra.
Qed.

(** X6: the advantages [compute_returns_and_advantages] leaves in the
    storage have mean zero over all steps and environments.  (At least
    two stored transitions: for a single one [Tensor.std()] is not a
    number.) *)
Theorem advantages_zero_mean s lv :
  wf s -> length lv = _num_envs s -> 2 <= _num_steps s * _num_envs s ->
  exists s',
    compute_returns_and_advantages s lv = Ok s' /\
    mean (concat (advantages s')) = 0%R.
Proof.
  intros Hwf Hlv HB.
  destruct (gae_pass_rows s lv Hwf Hlv) as (adv & Hpass & Hsh & _).
  unfold compute_returns_and_advantages. rewrite Hpass. simpl.
  eexists. split; [reflexivity|]. simpl.
  unfold standardize. rewrite <- concat_map.
  pose proof (RolloutSampling.shaped_view _ _ _ Hsh) as Hlen. unfold view in Hlen.
  unfold mean at 1. rewrite rsum_standardized, length_map.
  unfold mean.
  assert (INR (length (concat adv)) <> 0%R) as Hn.
  { apply not_0_INR. lia. }
  unfold Rdiv.
  replace (rsum (concat adv) -
           INR (length (concat adv)) * (rsum (concat adv) * / INR (length (concat adv))))%R
    with 0%R by (field; exact Hn).
  by rewrite !Rmult_0_l.
Qed.

(** An instance: the storage of one step and two environments. *)
Lemma advantages_zero_mean_witness :
  exists s', compute_returns_and_advantages gae_example [100%R; 100%R] = Ok s'
    /\ mean (concat (advantages s')) = 0%R.
Proof.
  apply (advantages_zero_mean gae_example [100%R; 100%R]).
  - exact GAE.wf_gae_example.
  - reflexivity.
  - simpl. lia.
Defined.

(** X7: [compute_returns_and_advantages] solves the GAE recursion.  With
    [adv] the advantages before standardisation, at every step
    [adv[t] = delta[t] + discount * gae_lambda * (1 - terminateds[t + 1])
    * adv[t + 1]] with [delta[t] = rewards[t] + discount * values[t + 1] *
    (1 - terminateds[t + 1]) - values[t]], where past the last step the
    values are [last_values] and the advantage is zero; the storage then
    holds [returns = adv + values] and [advantages = standardize adv]. *)
Theorem gae_recurrence s lv :
  wf s -> length lv = _num_envs s ->
  exists s' adv,
    compute_returns_and_advantages s lv = Ok s' /\
    returns s' = zip_with tadd adv (values s) /\
    advantages s' = standardize adv /\
    length adv = _num_steps s /\
    forall t, t < _num_steps s -> gae_equation s lv adv t.
Proof.
  intros Hwf Hlv.
  destruct (gae_pass_rows s lv Hwf Hlv) as (adv & Hpass & [Hlen _] & Heq).
  unfold compute_returns_and_advantages. rewrite Hpass. simpl.
  eexists _, adv. split; [reflexivity|]. simpl. done.
Qed.

(** An instance: the storage of one step and two environments. *)
Lemma gae_recurrence_witness :
  exists s' adv,
    compute_returns_and_advantages gae_example [100%R; 100%R] = Ok s' /\
    advantages s' = standardize adv /\
    gae_equation gae_example [100%R; 100%R] adv 0.
Proof.
  destruct (gae_recurrence gae_example [100%R; 100%R])
    as (s' & adv & Hrun & _ & Hadv & _ & Heq).
  - exact GAE.wf_gae_example.
  - reflexivity.
  - exists s', adv. split; [exact Hrun|]. split; [exact Hadv|].
    apply Heq. simpl. lia.
Defined.

Lemma terminal_row n (c c' : R) : forall (r nv v g : list R),
  length r = n -> length nv = n -> length v = n -> length g = n ->
  tadd (tsub (tadd r (tmul (smul c nv) (ssub 1 (replicate n 1%R)))) v)
       (tmul (smul c' (ssub 1 (replicate n 1%R))) g) = tsub r v.
Proof.
  induction n as [|n IH]; intros [|x r] [|y nv] [|z v] [|w g] Hr Hnv Hv Hg;
    simpl in *; try done.
  f_equal; [lra | apply IH; lia].
Qed.

(** X8: an episode boundary inside the rollout cuts the recursion.  If
    [terminateds[t + 1] = 1] in every environment, the advantage of step
    [t] before standardisation is [rewards[t] - values[t]], whatever the
    later steps and the bootstrap values hold, and the return of step [t]
    is that advantage plus [values[t]], the sum the code computes. *)
Theorem gae_terminal_cut s lv t :
  wf s -> length lv = _num_envs s -> t < _num_steps s ->
  terminateds s !! (t + 1) = Some (replicate (_num_envs s) 1%R) ->
  exists s' adv r v,
    compute_returns_and_advantages s lv = Ok s' /\
    gae_pass s lv = Ok adv /\
    rewards s !! t = Some r /\ values s !! t = Some v /\
    adv !! t = Some (tsub r v) /\
    returns s' !! t = Some (tadd (tsub r v) v).
Proof.
  intros Hwf Hlv Ht Hte.
  destruct (gae_pass_rows s lv Hwf Hlv) as (adv & Hpass & Hsh & Heq).
  destruct (Heq t Ht) as (r & v & te & nv & g & Er & Ev & Ete & Env & Eg & Ea).
  rewrite Hte in Ete. injection Ete as <-.
  assert (length r = _num_envs s) as Hlr
    by (eapply shaped_lookup; [apply (wf_rewards s Hwf)|done]).
  assert (length v = _num_envs s) as Hlv'
    by (eapply shaped_lookup; [apply (wf_values s Hwf)|done]).
  assert (length nv = _num_envs s) as Hlnv.
  { unfold next_values_at in Env. case_decide; [by injection Env as <-|].
    eapply shaped_lookup; [apply (wf_values s Hwf)|done]. }
  assert (length g = _num_envs s) as Hlg.
  { unfold next_gae_at in Eg. case_decide.
    - injection Eg as <-. by rewrite length_replicate.
    - by eapply shaped_lookup. }
  rewrite terminal_row in Ea by done.
  unfold compute_returns_and_advantages. rewrite Hpass. simpl.
  eexists _, adv, r, v. split; [reflexivity|]. simpl.
  repeat (split; [done|]).
  rewrite lookup_zip_with, Ea. simpl. by rewrite Ev.
Qed.

(** An instance: the terminal last frame of the storage of one step. *)
Lemma gae_terminal_cut_witness :
  exists s' adv,
    compute_returns_and_advantages gae_example [100%R; 100%R] = Ok s' /\
    gae_pass gae_example [100%R; 100%R] = Ok adv /\
    adv !! 0 = Some (tsub [1%R; 1%R] [0.5%R; 0.5%R]) /\
    returns s' !! 0 =
      Some (tadd (tsub [1%R; 1%R] [0.5%R; 0.5%R]) [0.5%R; 0.5%R]).
Proof.
  destruct (gae_terminal_cut gae_example [100%R; 100%R] 0)
    as (s' & adv & r & v & Hrun & Hpass & Hr & Hv & Ha & Hret).
  - exact GAE.wf_gae_example.
  - reflexivity.
  - simpl. lia.
  - reflexivity.
  - injection Hr as <-. injection Hv as <-.
    exists s', adv. repeat split; assumption.
Defined.

End GAEFacts.

(** ** [generator]: its edge cases and the mini-batches it yields *)

Module GeneratorFacts.
Import VanillaRolloutStorage RolloutLayout.

(** X9: [generator] with a [num_mini_batch] that is not positive passes
    its assertion and fails afterwards, before yielding anything: with
    [ZeroDivisionError] for 0 (at [batch_size // num_mini_batch]) and with
    the [ValueError] of [BatchSampler] for a negative number (the
    mini-batch size is then not positive). *)
Theorem generator_nonpositive s num_mini_batch p :
  (num_mini_batch = 0%Z ->
   generator s num_mini_batch p = mk_outcome [] (Some ZeroDivisionError)) /\
  ((num_mini_batch < 0)%Z ->
   generator s num_mini_batch p = mk_outcome [] (Some ValueError)).
Proof.
  unfold generator, generator_indices. split.
  - intros ->. rewrite decide_True by lia. by rewrite decide_True.
  - intros Hneg. rewrite decide_True by lia. rewrite decide_False by lia.
    rewrite decide_True; [done|].
    pose proof (Z.div_mod (Z.of_nat (_num_envs s * _num_steps s)) num_mini_batch
                  ltac:(lia)) as Hdm.
    pose proof (Z.mod_neg_bound (Z.of_nat (_num_envs s * _num_steps s))
                  num_mini_batch Hneg) as Hb.
    nia.
Qed.

Lemma index_select_lookup {A} (x : list A) indices r :
  index_select x indices = Ok r ->
  length r = length indices /\
  forall j i, indices !! j = Some i -> r !! j = x !! i.
Proof.
  revert r. induction indices as [|i0 indices IH]; intros r H; simpl in H.
  - injection H as <-. split; [done|]. by intros j i [=].
  - apply bind_Ok in H as (a & Ha & H).
    apply bind_Ok in H as (r' & Hr' & [= <-]).
    apply getitem_inv in Ha. destruct (IH _ Hr') as [Hlen Hlook].
    split; [simpl; by rewrite Hlen|].
    intros [|j] i; simpl; [by intros [= <-]|by apply Hlook].
Qed.

(** Row [t * m + e] of [x.view(-1, ...)] is [x[t][e]]. *)
Lemma lookup_view {A} (x : list (list A)) m : forall t e,
  Forall (fun f => length f = m) x -> e < m ->
  view x !! (t * m + e) = entry x t e.
Proof.
  unfold view, entry.
  induction x as [|f x IH]; intros t e Hx He; [done|].
  apply Forall_cons in Hx as [Hf Hx]. simpl.
  destruct t as [|t]; simpl.
  - by rewrite lookup_app_l by lia.
  - rewrite lookup_app_r by lia.
    replace (m + t * m + e - length f) with (t * m + e) by lia.
    by apply IH.
Qed.

Lemma entry_removelast {A} (x : list (list A)) t e :
  t + 1 < length x -> entry (removelast x) t e = entry x t e.
Proof.
  intros Ht. unfold entry. rewrite removelast_firstn_len.
  by rewrite lookup_take_lt by lia.
Qed.

(** X10: every row of a mini-batch is one stored transition, the same in
    all eight fields.  Row [j] of the batch gathered for [indices], with
    [indices[j] = t * num_envs + e], holds the entries of environment [e]
    at step [t < num_steps] of [obs], [actions], [values], [returns],
    [log_probs] and [advantages], and of [terminateds] and [truncateds]
    (the flags before the step: frame [t], not [t + 1]). *)
Theorem generator_rows_aligned s indices b :
  wf s -> gather s indices = Ok b ->
  forall j t e, indices !! j = Some (t * _num_envs s + e) -> e < _num_envs s ->
    t < _num_steps s /\
    batch_obs b !! j = entry (obs s) t e /\
    batch_actions b !! j = entry (actions s) t e /\
    batch_values b !! j = entry (values s) t e /\
    batch_returns b !! j = entry (returns s) t e /\
    batch_terminateds b !! j = entry (terminateds s) t e /\
    batch_truncateds b !! j = entry (truncateds s) t e /\
    batch_old_log_probs b !! j = entry (log_probs s) t e /\
    adv_targ b !! j = entry (advantages s) t e.
Proof.
  intros [Ho Ha Hr Hte Htr Hl Hv Hre Had] H j t e Hj He.
  unfold gather in H.
  apply bind_Ok in H as (bo & Hbo & H). apply bind_Ok in H as (ba & Hba & H).
  apply bind_Ok in H as (bv & Hbv & H). apply bind_Ok in H as (br & Hbr & H).
  apply bind_Ok in H as (bte & Hbte & H). apply bind_Ok in H as (btr & Hbtr & H).
  apply bind_Ok in H as (bl & Hbl & H). apply bind_Ok in H as (bad & Hbad & H).
  injection H as <-. simpl.
  apply index_select_lookup in Hbo as [Hlo Hbo], Hba as [_ Hba], Hbv as [_ Hbv],
    Hbr as [_ Hbr], Hbte as [_ Hbte], Hbtr as [_ Hbtr], Hbl as [_ Hbl],
    Hbad as [_ Hbad].
  assert (t < _num_steps s) as Ht.
  { destruct (lookup_lt_is_Some_2 bo j) as [a Hja].
    { rewrite Hlo. by eapply lookup_lt_Some. }
    rewrite (Hbo _ _ Hj) in Hja. apply lookup_lt_Some in Hja.
    rewrite (RolloutSampling.shaped_view _ _ _ Ho) in Hja. nia. }
  split; [done|].
  rewrite (Hbo _ _ Hj), (Hba _ _ Hj), (Hbv _ _ Hj), (Hbr _ _ Hj),
    (Hbte _ _ Hj), (Hbtr _ _ Hj), (Hbl _ _ Hj), (Hbad _ _ Hj).
  pose proof (RolloutSampling.shaped_removelast _ _ _ Hte) as Hte'.
  pose proof (RolloutSampling.shaped_removelast _ _ _ Htr) as Htr'.
  rewrite !lookup_view;
    try done;
    try match goal with
        | H : shaped _ _ ?x |- Forall _ ?x => by destruct H
        end.
  rewrite !entry_removelast; [done| |].
  - destruct Htr. lia.
  - destruct Hte. lia.
Qed.

(** An instance: the storage of two steps, rows 1 and 0. *)
Lemma generator_rows_aligned_witness :
  exists b, gather storage_2x1 [1; 0] = Ok b /\
    batch_obs b !! 0 = entry (obs storage_2x1) 1 0 /\
    batch_terminateds b !! 0 = entry (terminateds storage_2x1) 1 0.
Proof.
  destruct (gather storage_2x1 [1; 0]) as [b|e] eqn:Hb;
    [|vm_compute in Hb; discriminate Hb].
  exists b. split; [reflexivity|].
  destruct (generator_rows_aligned storage_2x1 [1; 0] b
              RolloutCycle.wf_storage_2x1 Hb 0 1 0)
    as (_ & Ho & _ & _ & _ & Hte & _).
  - reflexivity.
  - simpl. lia.
  - split; [exact Ho | exact Hte].
Defined.

(** *** The mini-batches of one pass *)

(** The batches of [BatchSampler] are the successive chunks of its input. *)
Lemma uniform_chunk {A} m (ls : list (list A)) (rest : list A) : forall k b,
  Forall (fun b => length b = m) ls -> ls !! k = Some b ->
  b = take m (drop (k * m) (concat ls ++ rest)).
Proof.
  induction ls as [|b0 ls IH]; intros k b Hall Hk; [done|].
  apply Forall_cons in Hall as [Hb0 Hall].
  destruct k as [|k]; simpl in *.
  - injection Hk as <-. rewrite <- app_assoc, drop_0.
    by rewrite take_app_length' by done.
  - rewrite <- app_assoc.
    replace (m + k * m) with (length b0 + k * m) by lia.
    rewrite drop_app_add. by apply IH.
Qed.

(** The loop of [generator] over index lists that can all be gathered:
    one tuple per index list, in order, and no exception. *)
Lemma run_loop_gathered s sampler :
  Forall (fun indices => exists b, gather s indices = Ok b) sampler ->
  exists batches,
    run_loop s sampler = mk_outcome batches None /\
    length batches = length sampler /\
    forall k b indices, batches !! k = Some b -> sampler !! k = Some indices ->
      gather s indices = Ok b.
Proof.
  induction 1 as [|ix sampler [b Hb] _ (batches & Hrun & Hlen & Hrel)]; simpl.
  - exists []. split; [done|]. split; [done|]. by intros k b ix [=].
  - rewrite Hb, Hrun. simpl. exists (b :: batches).
    split; [done|]. split; [simpl; by rewrite Hlen|].
    intros [|k] b' ix'; simpl.
    + by intros [= <-] [= <-].
    + apply Hrel.
Qed.

(** The tuple gathered for [indices]: one row per index, and the row of
    index [i] is the transition of environment [i mod num_envs] at step
    [i // num_envs]. *)
Lemma gather_rows s indices b :
  wf s -> gather s indices = Ok b ->
  has_rows b (length indices) /\
  forall j i, indices !! j = Some i -> i < _num_envs s * _num_steps s ->
    row_is s b j (i / _num_envs s) (i mod _num_envs s).
Proof.
  intros [Ho Ha Hr Hte Htr Hl Hv Hre Had] H.
  unfold gather in H.
  apply bind_Ok in H as (bo & Hbo & H). apply bind_Ok in H as (ba & Hba & H).
  apply bind_Ok in H as (bv & Hbv & H). apply bind_Ok in H as (br & Hbr & H).
  apply bind_Ok in H as (bte & Hbte & H). apply bind_Ok in H as (btr & Hbtr & H).
  apply bind_Ok in H as (bl & Hbl & H). apply bind_Ok in H as (bad & Hbad & H).
  injection H as <-.
  apply index_select_lookup in Hbo as [Hlo Hbo], Hba as [Hla Hba],
    Hbv as [Hlv Hbv], Hbr as [Hlr Hbr], Hbte as [Hlte Hbte],
    Hbtr as [Hltr Hbtr], Hbl as [Hll Hbl], Hbad as [Hlad Hbad].
  split; [by unfold has_rows|].
  intros j i Hj Hi.
  assert (0 < _num_envs s) as HN by (destruct (_num_envs s); lia).
  pose proof (Nat.div_mod_eq i (_num_envs s)) as Hdm.
  pose proof (Nat.mod_upper_bound i (_num_envs s) ltac:(lia)) as Hmod.
  assert (i / _num_envs s < _num_steps s) as Ht.
  { apply Nat.Div0.div_lt_upper_bound. lia. }
  assert (forall {A} (x : list (list A)),
            shaped (_num_steps s) (_num_envs s) x ->
            view x !! i = entry x (i / _num_envs s) (i mod _num_envs s)) as Hview.
  { intros A x [_ Hx].
    rewrite <- (lookup_view x (_num_envs s) _ _ Hx Hmod). f_equal. lia. }
  pose proof (RolloutSampling.shaped_removelast _ _ _ Hte) as Hte'.
  pose proof (RolloutSampling.shaped_removelast _ _ _ Htr) as Htr'.
  unfold row_is. simpl.
  rewrite (Hbo _ _ Hj), (Hba _ _ Hj), (Hbv _ _ Hj), (Hbr _ _ Hj),
    (Hbte _ _ Hj), (Hbtr _ _ Hj), (Hbl _ _ Hj), (Hbad _ _ Hj).
  rewrite !Hview by done.
  rewrite !entry_removelast; [done| |].
  - destruct Htr. lia.
  - destruct Hte. lia.
Qed.

(** C5 (as amended): for [1 <= num_mini_batch <= B = num_envs * num_steps],
    one call of [generator] runs to its end without raising and yields
    [B // m] mini-batches of exactly [m = B // num_mini_batch] transitions
    each.  Mini-batch [k] is gathered for the indices
    [p[k * m], ..., p[k * m + m - 1]] of the random permutation [p]: its row
    [j] is, in all eight tensors of the tuple, the stored transition of that
    index [i] (environment [i mod num_envs] at step [i // num_envs]).  The
    index sets are pairwise disjoint and without repeats and cover
    [B - B mod m] transitions; the last [B mod m] indices of the
    permutation are dropped, so all [B] transitions are covered exactly
    when [m] divides [B], as it does when [num_mini_batch] divides [B]. *)
Theorem generator_batches s num_mini_batch p :
  wf s ->
  (1 <= num_mini_batch <= Z.of_nat (_num_envs s * _num_steps s))%Z ->
  Permutation p (seq 0 (_num_envs s * _num_steps s)) ->
  exists samples batches,
    generator_indices s num_mini_batch p = Ok samples /\
    generator s num_mini_batch p = mk_outcome batches None /\
    0 < mini_batch_size s num_mini_batch /\
    length batches =
      _num_envs s * _num_steps s / mini_batch_size s num_mini_batch /\
    (forall k b, batches !! k = Some b ->
       has_rows b (mini_batch_size s num_mini_batch) /\
       samples !! k =
         Some (take (mini_batch_size s num_mini_batch)
                 (drop (k * mini_batch_size s num_mini_batch) p)) /\
       forall j, j < mini_batch_size s num_mini_batch ->
         exists i,
           p !! (k * mini_batch_size s num_mini_batch + j) = Some i /\
           i < _num_envs s * _num_steps s /\
           row_is s b j (i / _num_envs s) (i mod _num_envs s)) /\
    NoDup (concat samples) /\
    p = concat samples ++
        drop (_num_envs s * _num_steps s -
              (_num_envs s * _num_steps s) mod mini_batch_size s num_mini_batch)
          p /\
    length (concat samples) =
      _num_envs s * _num_steps s -
      (_num_envs s * _num_steps s) mod mini_batch_size s num_mini_batch /\
    (partitions samples (_num_envs s * _num_steps s) <->
     (_num_envs s * _num_steps s) mod mini_batch_size s num_mini_batch = 0) /\
    ((Z.of_nat (_num_envs s * _num_steps s) mod num_mini_batch = 0)%Z ->
     (_num_envs s * _num_steps s) mod mini_batch_size s num_mini_batch = 0).
Proof.
  intros Hwf Hn Hp.
  destruct (RolloutSampling.generator_indices_Ok s num_mini_batch p Hn Hp)
    as [Hbs Hgen].
  fold (mini_batch_size s num_mini_batch) in Hbs, Hgen.
  set (B := _num_envs s * _num_steps s) in *.
  set (m := mini_batch_size s num_mini_batch) in *.
  destruct (RolloutSampling.batch_sampler_permutation m B p Hbs Hp)
    as (Hall & Hcnt & Hnd & Hin & Hlen & Hpart).
  destruct (RolloutSampling.batch_sampler_spec m p [] Hbs)
    as (rest & Heq & Hrest & _); [simpl; lia|].
  simpl in Heq.
  set (samples := batch_sampler m [] p) in *.
  assert (rest = drop (B - B mod m) p) as Hdrop.
  { rewrite Heq at 1. rewrite <- Hlen. by rewrite drop_app_length. }
  assert (Forall (fun indices => exists b, gather s indices = Ok b) samples)
    as Hg.
  { apply Forall_forall. intros ix Hix. apply RolloutSampling.gather_Ok; [done|].
    apply Forall_forall. intros i Hi. apply Hin.
    by apply (RolloutSampling.elem_of_concat_2 _ ix). }
  destruct (run_loop_gathered s samples Hg) as (batches & Hrun & Hlb & Hrel).
  exists samples, batches.
  split; [done|]. split; [by unfold generator; rewrite Hgen|].
  split; [done|]. split; [by rewrite Hlb|].
  split; [|split; [done|split; [by rewrite <- Hdrop|split; [done|split; [done|]]]]].
  - intros k b Hk.
    destruct (lookup_lt_is_Some_2 samples k) as [ix Hix].
    { rewrite <- Hlb. by eapply lookup_lt_Some. }
    pose proof (proj1 (Forall_forall _ _) Hall ix
                  (list_elem_of_lookup_2 _ _ _ Hix)) as Hlix. simpl in Hlix.
    pose proof (uniform_chunk m samples rest k ix Hall Hix) as Hchunk.
    rewrite <- Heq in Hchunk.
    destruct (gather_rows s ix b Hwf (Hrel _ _ _ Hk Hix)) as [Hrows Hrow].
    rewrite Hlix in Hrows.
    split; [done|]. split; [by rewrite Hix, Hchunk|].
    intros j Hj.
    destruct (lookup_lt_is_Some_2 ix j) as [i Hi]; [lia|].
    assert (i < B) as HiB.
    { apply Hin. apply (RolloutSampling.elem_of_concat_2 _ ix).
      - by eapply list_elem_of_lookup_2.
      - by eapply list_elem_of_lookup_2. }
    exists i. split; [|split; [done|by apply Hrow]].
    rewrite Hchunk in Hi. rewrite lookup_take_lt in Hi by done.
    by rewrite lookup_drop in Hi.
  - intros Hdiv.
    assert (Z.of_nat B = num_mini_batch * (Z.of_nat B / num_mini_batch))%Z as HB.
    { pose proof (Z.div_mod (Z.of_nat B) num_mini_batch ltac:(lia)). lia. }
    assert (B = Z.to_nat num_mini_batch * m) as HB'.
    { unfold m, mini_batch_size. fold B.
      rewrite <- Z2Nat.inj_mul; [|lia|apply Z.div_pos; lia].
      rewrite <- HB. by rewrite Nat2Z.id. }
    rewrite HB'. apply Nat.Div0.mod_mul.
Qed.

(** An instance: five transitions in two mini-batches of two; the last
    index of the permutation is dropped. *)
Lemma generator_batches_witness :
  exists samples batches,
    generator_indices (blank 5 1) 2 [1; 0; 2; 3; 4] = Ok samples /\
    generator (blank 5 1) 2 [1; 0; 2; 3; 4] = mk_outcome batches None /\
    length batches = 2 /\
    (forall b, batches !! 1 = Some b ->
       has_rows b 2 /\ samples !! 1 = Some [2; 3] /\
       row_is (blank 5 1) b 0 2 0 /\ row_is (blank 5 1) b 1 3 0) /\
    [1; 0; 2; 3; 4] = concat samples ++ [4].
Proof.
  destruct (generator_batches (blank 5 1) 2 [1; 0; 2; 3; 4])
    as (samples & batches & Hgen & Hrun & _ & Hlen & Hrows & _ & Hdrop & _).
  - apply RolloutSampling.wf_blank.
  - simpl. lia.
  - simpl. apply perm_swap.
  - exists samples, batches.
    split; [exact Hgen|]. split; [exact Hrun|]. split; [exact Hlen|].
    split; [|exact Hdrop].
    intros b Hb. destruct (Hrows 1 b Hb) as (Hr & Hs & Hrow).
    split; [exact Hr|]. split; [exact Hs|]. split.
    + destruct (Hrow 0) as (i & Hi & _ & Hrow0); [vm_compute; lia|].
      injection Hi as <-. exact Hrow0.
    + destruct (Hrow 1) as (i & Hi & _ & Hrow1); [vm_compute; lia|].
      injection Hi as <-. exact Hrow1.
Defined.

End GeneratorFacts.

(** ** [DecoupledRolloutStorage] *)

Module DecoupledFacts.
Import DecoupledRolloutStorage.

Local Abbreviation shaped := VanillaRolloutStorage.shaped.
Local Abbreviation entry := RolloutLayout.entry.

Lemma wf_blank_decoupled T N : wf (blank T N).
Proof. split; apply RolloutCycle.shaped_torch_empty. Qed.

(** X11: [DecoupledRolloutStorage.__init__] accepts the action types
    ["Discrete"], ["Box"] and ["MultiBinary"].  Any other type raises
    [NotImplementedError]; ["Box"] and ["MultiBinary"] with an empty
    action shape raise [IndexError]; otherwise the storage has
    [num_steps + 1] frames of [obs], the cursor at 0 and frame 0 of the
    two flag fields zeroed. *)
Theorem decoupled_init_outcome junk junk_t action_shape action_type
    num_steps num_envs discount gae_lambda :
  (action_type <> "Discrete"%string -> action_type <> "Box"%string ->
   action_type <> "MultiBinary"%string ->
   __init__ junk junk_t action_shape action_type num_steps num_envs
     discount gae_lambda = Raise NotImplementedError) /\
  (action_type = "Box"%string \/ action_type = "MultiBinary"%string ->
   action_shape = [] ->
   __init__ junk junk_t action_shape action_type num_steps num_envs
     discount gae_lambda = Raise IndexError) /\
  (action_type = "Discrete"%string \/
   ((action_type = "Box"%string \/ action_type = "MultiBinary"%string) /\
    action_shape <> []) ->
   exists s,
     __init__ junk junk_t action_shape action_type num_steps num_envs
       discount gae_lambda = Ok s /\
     wf s /\ _num_steps s = num_steps /\ _num_envs s = num_envs /\
     _global_step s = 0 /\
     _action_dim s =
       (if decide (action_type = "Discrete"%string) then 1
        else default 0 (head action_shape)) /\
     length (obs s) = num_steps + 1 /\
     terminateds s !! 0 = Some (replicate num_envs 0%R) /\
     truncateds s !! 0 = Some (replicate num_envs 0%R)).
Proof.
  split; [|split].
  - intros H1 H2 H3. unfold __init__. by rewrite !decide_False by done.
  - intros [->| ->] ->; done.
  - intros Hty.
    assert (exists d,
      (if decide (action_type = "Discrete"%string) then Ok 1
       else if decide (action_type = "Box"%string) then getitem action_shape 0
       else if decide (action_type = "MultiBinary"%string)
            then getitem action_shape 0
       else Raise NotImplementedError) = Ok d /\
      d = (if decide (action_type = "Discrete"%string) then 1
           else default 0 (head action_shape))) as (d & Hd & Hdim).
    { destruct Hty as [->|[[->| ->] Hne]]; simpl; [by exists 1| |];
        (destruct action_shape as [|n rest]; [done|]; by exists n). }
    unfold __init__. rewrite Hd. simpl.
    unfold VanillaRolloutStorage.torch_empty.
    rewrite !setitem_Ok by (rewrite length_replicate; lia). simpl.
    eexists. split; [reflexivity|]. simpl.
    assert (forall x : list (list R),
              shaped (num_steps + 1) num_envs x ->
              shaped (num_steps + 1) num_envs (<[0 := replicate num_envs 0%R]> x))
      as Hins.
    { intros x [Hx1 Hx2]. split; [by rewrite length_insert|].
      apply Forall_insert; [done|]. by rewrite length_replicate. }
    split; [|split; [done|split; [done|split; [done|split; [done|]]]]].
    + split; simpl;
        first [ apply (RolloutCycle.shaped_torch_empty junk)
              | apply (RolloutCycle.shaped_torch_empty junk_t)
              | apply Hins, (RolloutCycle.shaped_torch_empty junk) ].
    + split; [by rewrite length_replicate|].
      split; apply list_lookup_insert_eq; rewrite length_replicate; lia.
Qed.

Lemma add_Ok_decoupled s x :
  lengths s -> _global_step s < _num_steps s ->
  add s x =
    Ok {| _num_steps := _num_steps s; _num_envs := _num_envs s;
          _discount := _discount s; _gae_lambda := _gae_lambda s;
          _action_dim := _action_dim s;
          obs := <[_global_step s + 1 := tr_next_obs x]>
                   (<[_global_step s := tr_obs x]> (obs s));
          actions := <[_global_step s := tr_actions x]> (actions s);
          rewards := <[_global_step s := tr_rewards x]> (rewards s);
          terminateds :=
            <[_global_step s + 1 := tr_terminateds x]> (terminateds s);
          truncateds :=
            <[_global_step s + 1 := tr_truncateds x]> (truncateds s);
          log_probs := <[_global_step s := tr_log_probs x]> (log_probs s);
          values := <[_global_step s := tr_values x]> (values s);
          returns := returns s; advantages := advantages s;
          adv_preds := <[_global_step s := tr_adv_preds x]> (adv_preds s);
          _global_step := (_global_step s + 1) mod _num_steps s |}.
Proof.
  intros (Ho & Ha & Hr & Hte & Htr & Hl & Hv & Hp) Hg.
  unfold add. rewrite !setitem_Ok by lia. simpl.
  rewrite setitem_Ok by (rewrite length_insert; lia). simpl.
  rewrite ?setitem_Ok by lia. simpl.
  by rewrite decide_False by lia.
Qed.


Lemma wf_lengths_decoupled s : wf s -> lengths s.
Proof.
  intros [[? _] [? _] [? _] [? _] [? _] [? _] [? _] _ _ [? _]].
  by unfold lengths.
Qed.

(** A run of [add]s within one cycle, from the start of the cycle. *)
Lemma add_all_cycle xs : forall s,
  lengths s -> _global_step s = 0 -> length xs <= _num_steps s ->
  exists s1,
    add_all s xs = Ok s1 /\ lengths s1 /\
    _num_steps s1 = _num_steps s /\
    _global_step s1 = length xs mod _num_steps s /\
    (forall j x, xs !! j = Some x ->
       obs s1 !! j = Some (tr_obs x) /\
       terminateds s1 !! (j + 1) = Some (tr_terminateds x) /\
       truncateds s1 !! (j + 1) = Some (tr_truncateds x)) /\
    (forall x, last xs = Some x ->
       obs s1 !! length xs = Some (tr_next_obs x)) /\
    (xs = [] -> s1 = s).
Proof.
  induction xs as [|x xs IH] using rev_ind; intros s Hl Hg Hlen.
  - exists s. split; [done|]. split; [done|]. split; [done|]. split.
    + simpl. rewrite Hg. symmetry. apply Nat.Div0.mod_0_l.
    + split; [by intros j x [=]|]. split; [by intros x [=]|done].
  - rewrite length_app in Hlen. simpl in Hlen.
    destruct (IH s Hl Hg ltac:(lia)) as (s1 & Hall & Hl1 & HT & Hg1 & Hrows & Hnext & _).
    rewrite Nat.mod_small in Hg1 by lia.
    unfold add_all in *. rewrite RolloutStorageFacts.for_each_app, Hall. simpl.
    rewrite (add_Ok_decoupled s1 x Hl1) by lia.
    eexists. split; [reflexivity|].
    destruct Hl1 as (Ho & Ha & Hr & Hte & Htr & Hlp & Hv & Hp).
    split; [|split; [done|split; [|split; [|split]]]].
    + unfold lengths. simpl. rewrite !length_insert. tauto.
    + simpl. rewrite Hg1, HT, length_app. simpl. done.
    + intros j y Hj. simpl. rewrite Hg1.
      destruct (decide (j = length xs)) as [->|Hne].
      * rewrite list_lookup_middle in Hj by done. injection Hj as <-.
        rewrite list_lookup_insert_ne by lia.
        rewrite !list_lookup_insert_eq by lia. done.
      * assert (j < length xs) as Hjlt.
        { apply lookup_lt_Some in Hj. rewrite length_app in Hj. simpl in Hj. lia. }
        rewrite lookup_app_l in Hj by done.
        rewrite !list_lookup_insert_ne by lia. by apply Hrows.
    + intros y Hy. rewrite last_snoc in Hy. injection Hy as <-. simpl.
      rewrite Hg1, length_app. simpl.
      apply list_lookup_insert_eq. rewrite length_insert. lia.
    + intros Hnil. by destruct xs.
Qed.

(** X12: a full fill cycle of [DecoupledRolloutStorage] followed by
    [update].  After [num_steps] calls of [add] from the start of a cycle,
    frame [j] of [obs] is the observation of the [j]-th transition (the
    next observation [add] wrote there one call earlier is overwritten)
    and frame [num_steps] is the next observation of the last transition.
    [update] then copies the flags of the last transition into frame 0 of
    [terminateds] and [truncateds] and leaves [obs] as it is: frame 0 of
    [obs] is still the first observation of the cycle. *)
Theorem decoupled_cycle_update s xs :
  wf s -> _global_step s = 0 -> length xs = _num_steps s ->
  exists s1 s2,
    add_all s xs = Ok s1 /\ update s1 = Ok s2 /\
    _global_step s2 = 0 /\
    (forall j x, xs !! j = Some x -> obs s2 !! j = Some (tr_obs x)) /\
    (forall x, last xs = Some x ->
       obs s2 !! _num_steps s = Some (tr_next_obs x) /\
       terminateds s2 !! 0 = Some (tr_terminateds x) /\
       truncateds s2 !! 0 = Some (tr_truncateds x)) /\
    obs s2 = obs s1.
Proof.
  intros Hwf Hg Hlen. apply wf_lengths_decoupled in Hwf.
  destruct (add_all_cycle xs s Hwf Hg ltac:(lia))
    as (s1 & Hall & Hl1 & HT & Hg1 & Hrows & Hnext & Hnil).
  destruct Hl1 as (Ho & Ha & Hr & Hte & Htr & Hlp & Hv & Hp).
  destruct (getitem_last_Ok (terminateds s1) (_num_steps s1)) as (te & Ete & Lte);
    [lia|].
  destruct (getitem_last_Ok (truncateds s1) (_num_steps s1)) as (tr & Etr & Ltr);
    [lia|].
  exists s1. unfold update. rewrite Ete. simpl. rewrite setitem_Ok by lia. simpl.
  rewrite Etr. simpl. rewrite setitem_Ok by lia. simpl.
  eexists. split; [done|]. split; [reflexivity|]. simpl.
  split; [|split; [|split; [|done]]].
  - rewrite Hg1, Hlen. destruct (_num_steps s); [done|]. apply Nat.Div0.mod_same.
  - intros j x Hj. by apply Hrows.
  - intros x Hx. rewrite <- Hlen. split; [by apply Hnext|].
    assert (0 < length xs) as Hpos by (destruct xs; [done|simpl; lia]).
    assert (xs !! (length xs - 1) = Some x) as Hj.
    { rewrite last_lookup in Hx. by replace (length xs - 1) with (pred (length xs)) by lia. }
    destruct (Hrows _ _ Hj) as (_ & Hte' & Htr').
    replace (length xs - 1 + 1) with (_num_steps s1) in Hte', Htr' by lia.
    rewrite !list_lookup_insert_eq by lia. split; congruence.
Qed.

(** An instance: two steps, one environment. *)
Lemma decoupled_cycle_update_witness :
  exists s1 s2,
    add_all (blank 2 1)
      [ mk_transition [[1%R]] [[0%R]] [0%R] [0%R] [0%R] [[2%R]] [0%R] [0%R] [0%R];
        mk_transition [[2%R]] [[0%R]] [1%R] [1%R] [0%R] [[3%R]] [0%R] [0%R] [0%R] ]
      = Ok s1 /\ update s1 = Ok s2 /\
    obs s2 !! 0 = Some [[1%R]] /\ obs s2 !! 2 = Some [[3%R]] /\
    terminateds s2 !! 0 = Some [1%R].
Proof.
  destruct (decoupled_cycle_update (blank 2 1)
      [ mk_transition [[1%R]] [[0%R]] [0%R] [0%R] [0%R] [[2%R]] [0%R] [0%R] [0%R];
        mk_transition [[2%R]] [[0%R]] [1%R] [1%R] [0%R] [[3%R]] [0%R] [0%R] [0%R] ])
    as (s1 & s2 & Hall & Hup & _ & Hrows & Hlast & _).
  - apply wf_blank_decoupled.
  - reflexivity.
  - reflexivity.
  - exists s1, s2. split; [exact Hall|]. split; [exact Hup|].
    split; [exact (Hrows 0 _ eq_refl)|].
    destruct (Hlast _ eq_refl) as (Hn & Hte & _).
    split; [exact Hn | exact Hte].
Defined.

Lemma wf_as_vanilla s : wf s -> VanillaRolloutStorage.wf (as_vanilla s).
Proof.
  intros [Ho Ha Hr Hte Htr Hl Hv Hre Had Hp]. split; simpl; try done.
  by apply RolloutSampling.shaped_removelast.
Qed.

(** [compute_returns_and_advantages] runs the loop of
    [VanillaRolloutStorage] on the fields the two storages share. *)
Lemma decoupled_gae_pass s lv adv :
  VanillaRolloutStorage.gae_pass (as_vanilla s) lv = Ok adv ->
  compute_returns_and_advantages s lv =
    Ok {| _num_steps := _num_steps s; _num_envs := _num_envs s;
          _discount := _discount s; _gae_lambda := _gae_lambda s;
          _action_dim := _action_dim s;
          obs := obs s; actions := actions s; rewards := rewards s;
          terminateds := terminateds s; truncateds := truncateds s;
          log_probs := log_probs s; values := values s;
          returns := zip_with tadd adv (values s);
          advantages := VanillaRolloutStorage.standardize adv;
          adv_preds := adv_preds s;
          _global_step := _global_step s |}.
Proof.
  intros Hpass. unfold VanillaRolloutStorage.gae_pass in Hpass.
  apply bind_Ok in Hpass as (acc & Hloop & [= <-]).
  change (for_each (gae_step s lv) (rev (seq 0 (_num_steps s)))
            (replicate (_num_envs s) 0%R, advantages s) = Ok acc) in Hloop.
  unfold compute_returns_and_advantages. by rewrite Hloop.
Qed.

(** X13: [DecoupledRolloutStorage.compute_returns_and_advantages] does not
    raise on a storage of the allocated shapes; it keeps the shapes,
    leaves [obs], [values], [adv_preds] and the cursor as they were, and
    the advantages it stores have mean zero (at least two stored
    transitions; over the reals, as [float32] is idealised). *)
Theorem decoupled_compute_total s lv :
  wf s -> length lv = _num_envs s -> 2 <= _num_steps s * _num_envs s ->
  exists s',
    compute_returns_and_advantages s lv = Ok s' /\ wf s' /\
    mean (concat (advantages s')) = 0%R /\
    obs s' = obs s /\ adv_preds s' = adv_preds s /\ values s' = values s /\
    _global_step s' = _global_step s.
Proof.
  intros Hwf Hlv HB.
  destruct (GAEFacts.gae_pass_rows (as_vanilla s) lv (wf_as_vanilla s Hwf) Hlv)
    as (adv & Hpass & Hsh & _).
  simpl in Hsh.
  rewrite (decoupled_gae_pass s lv adv Hpass).
  eexists. split; [reflexivity|]. simpl.
  split; [|split; [|done]].
  - destruct Hwf. split; simpl; try done.
    + by apply GAEFacts.shaped_zip_with_tadd.
    + by apply GAEFacts.shaped_standardize.
  - unfold VanillaRolloutStorage.standardize. rewrite <- concat_map.
    pose proof (RolloutSampling.shaped_view _ _ _ Hsh) as Hlen.
    unfold VanillaRolloutStorage.view in Hlen.
    unfold mean at 1. rewrite GAEFacts.rsum_standardized, length_map.
    unfold mean.
    assert (INR (length (concat adv)) <> 0%R) as Hn by (apply not_0_INR; lia).
    unfold Rdiv.
    replace (rsum (concat adv) -
             INR (length (concat adv)) *
               (rsum (concat adv) * / INR (length (concat adv))))%R
      with 0%R by (field; exact Hn).
    by rewrite !Rmult_0_l.
Qed.

(** An instance: one step, two environments. *)
Lemma decoupled_compute_total_witness :
  exists s', compute_returns_and_advantages (blank 1 2) [1%R; 2%R] = Ok s' /\
    wf s' /\ mean (concat (advantages s')) = 0%R.
Proof.
  destruct (decoupled_compute_total (blank 1 2) [1%R; 2%R])
    as (s' & Hrun & Hwf & Hmean & _).
  - apply wf_blank_decoupled.
  - reflexivity.
  - simpl. lia.
  - exists s'. split; [exact Hrun|]. split; [exact Hwf | exact Hmean].
Defined.

Lemma gather_rows_decoupled s indices :
  wf s -> Forall (fun i => i < _num_steps s * _num_envs s) indices ->
  exists b, gather s indices = Ok b /\
    length (batch_obs b) = length indices /\
    length (batch_adv_preds b) = length indices /\
    length (adv_targ b) = length indices /\
    forall j i, indices !! j = Some i ->
      batch_obs b !! j = VanillaRolloutStorage.view (removelast (obs s)) !! i.
Proof.
  intros [Ho Ha Hr Hte Htr Hl Hv Hre Had Hp] Hi.
  apply RolloutSampling.shaped_removelast in Ho, Hte, Htr.
  assert (forall {A} (x : list (list A)), shaped (_num_steps s) (_num_envs s) x ->
            exists r, VanillaRolloutStorage.index_select
                        (VanillaRolloutStorage.view x) indices = Ok r) as Hsel.
  { intros A x Hx. apply RolloutSampling.index_select_Ok.
    rewrite (RolloutSampling.shaped_view _ _ _ Hx).
    eapply Forall_impl; [exact Hi|]. simpl. intros. lia. }
  unfold gather.
  destruct (Hsel _ _ Ho) as [bo Ebo], (Hsel _ _ Ha) as [? ->],
    (Hsel _ _ Hv) as [? ->], (Hsel _ _ Hp) as [bp Ebp],
    (Hsel _ _ Hre) as [? ->], (Hsel _ _ Hte) as [? ->],
    (Hsel _ _ Htr) as [? ->], (Hsel _ _ Hl) as [? ->],
    (Hsel _ _ Had) as [bad Ebad].
  rewrite Ebo, Ebp, Ebad. simpl.
  eexists. split; [reflexivity|]. simpl.
  apply GeneratorFacts.index_select_lookup in Ebo as [? ?], Ebp as [? _],
    Ebad as [? _].
  done.
Qed.

Lemma run_loop_Forall s (P : batch -> Prop) sampler :
  Forall (fun indices => exists b, gather s indices = Ok b /\ P b) sampler ->
  raised (run_loop s sampler) = None /\
  length (yielded (run_loop s sampler)) = length sampler /\
  Forall P (yielded (run_loop s sampler)).
Proof.
  induction 1 as [|ix sampler (b & Hb & HP) _ (IH1 & IH2 & IH3)]; simpl; [done|].
  rewrite Hb. simpl. split; [done|]. split; [by rewrite IH2|]. by constructor.
Qed.

(** X14: [DecoupledRolloutStorage.sample] with
    [1 <= num_mini_batch <= B = num_envs * num_steps] runs to its end
    without raising and yields [B // m] mini-batches of [m = B //
    num_mini_batch] rows each; every observation in a batch is [obs[t][e]]
    for a step [t < num_steps]: the frame after the last step is never
    sampled. *)
Theorem decoupled_sample_batches s num_mini_batch p :
  wf s ->
  (1 <= num_mini_batch <= Z.of_nat (_num_envs s * _num_steps s))%Z ->
  Permutation p (seq 0 (_num_envs s * _num_steps s)) ->
  raised (sample s num_mini_batch p) = None /\
  length (yielded (sample s num_mini_batch p)) =
    _num_envs s * _num_steps s /
      Z.to_nat (Z.of_nat (_num_envs s * _num_steps s) / num_mini_batch) /\
  Forall (fun b =>
      length (batch_obs b) =
        Z.to_nat (Z.of_nat (_num_envs s * _num_steps s) / num_mini_batch) /\
      length (batch_adv_preds b) = length (batch_obs b) /\
      length (adv_targ b) = length (batch_obs b) /\
      forall row, row ∈ batch_obs b ->
        exists t e, t < _num_steps s /\ e < _num_envs s /\
          entry (obs s) t e = Some row)
    (yielded (sample s num_mini_batch p)).
Proof.
  intros Hwf Hn Hp.
  destruct (RolloutSampling.generator_indices_Ok (as_vanilla s) num_mini_batch p
              Hn Hp) as [Hbs Hgen].
  change (VanillaRolloutStorage.generator_indices (as_vanilla s) num_mini_batch p)
    with (sample_indices s num_mini_batch p) in Hgen.
  simpl in Hbs, Hgen.
  destruct (RolloutSampling.batch_sampler_permutation _ _ p Hbs Hp)
    as (Hall & Hcnt & _ & Hin & _).
  unfold sample. rewrite Hgen.
  rewrite <- Hcnt.
  apply run_loop_Forall.
  apply Forall_forall. intros ix Hix.
  assert (Forall (fun i => i < _num_steps s * _num_envs s) ix) as Hrange.
  { apply Forall_forall. intros i Hi.
    specialize (Hin i (RolloutSampling.elem_of_concat_2 _ ix i Hix Hi)). lia. }
  destruct (gather_rows_decoupled s ix Hwf Hrange)
    as (b & Hb & Hlo & Hlp & Hla & Hrows).
  exists b. split; [done|].
  split; [|split; [lia|split; [lia|]]].
  - rewrite Hlo. exact (proj1 (Forall_forall _ _) Hall ix Hix).
  - intros row Hrow.
    apply list_elem_of_lookup in Hrow as [j Hj].
    destruct (lookup_lt_is_Some_2 ix j) as [i Hi].
    { rewrite <- Hlo. by eapply lookup_lt_Some. }
    rewrite (Hrows _ _ Hi) in Hj.
    pose proof (proj1 (Forall_forall _ _) Hrange i
                  (list_elem_of_lookup_2 _ _ _ Hi)) as Hlt.
    simpl in Hlt.
    assert (0 < _num_envs s) as HN by (destruct (_num_envs s); lia).
    pose proof (Nat.div_mod_eq i (_num_envs s)) as Hdm.
    pose proof (Nat.mod_upper_bound i (_num_envs s) ltac:(lia)) as Hmod.
    assert (i / _num_envs s < _num_steps s) as Ht.
    { apply Nat.Div0.div_lt_upper_bound. lia. }
    exists (i / _num_envs s), (i mod _num_envs s).
    split; [done|]. split; [done|].
    destruct Hwf as [Ho _ _ _ _ _ _ _ _ _].
    pose proof (RolloutSampling.shaped_removelast _ _ _ Ho) as [_ Ho'].
    replace i with (i / _num_envs s * _num_envs s + i mod _num_envs s) in Hj
      at 1 by lia.
    rewrite (GeneratorFacts.lookup_view _ _ _ _ Ho' Hmod) in Hj.
    rewrite GeneratorFacts.entry_removelast in Hj; [done|].
    destruct Ho. lia.
Qed.

(** An instance: six transitions in two mini-batches. *)
Lemma decoupled_sample_batches_witness :
  raised (sample (blank 2 3) 2 [1; 0; 2; 3; 4; 5]) = None /\
  length (yielded (sample (blank 2 3) 2 [1; 0; 2; 3; 4; 5])) = 2.
Proof.
  destruct (decoupled_sample_batches (blank 2 3) 2 [1; 0; 2; 3; 4; 5])
    as (Hr & Hlen & _).
  - apply wf_blank_decoupled.
  - simpl. lia.
  - simpl. apply perm_swap.
  - split; [exact Hr | exact Hlen].
Defined.

End DecoupledFacts.

(** ** [DistributedStorage]: the constructor and the outcomes of [sample] *)

Module SampleFacts.
Import DistributedStorage.

(** X15: [DistributedStorage.__init__] with a supported action type.
    With an empty [action_shape] it raises [IndexError] and allocates
    nothing, for ["Discrete"] too: the spec of [policy_logits] reads
    [action_shape[0]].  Otherwise it allocates ten shared-memory segments
    per slot, each of [num_steps + 1] timesteps, [policy_logits] of width
    [action_shape[0]], and [storages[key]] holds [num_storages] slots of
    [num_steps + 1] timesteps for every key. *)
Theorem distributed_init_outcome junk obs_shape action_shape action_type
    num_steps num_storages batch_size shm :
  (action_type = "Discrete"%string \/ action_type = "Box"%string ->
   action_shape = [] ->
   __init__ junk obs_shape action_shape action_type num_steps num_storages
     batch_size shm = (Raise IndexError, shm)) /\
  (action_type = "Discrete"%string \/ action_type = "Box"%string ->
   forall n rest, action_shape = n :: rest ->
   exists self shm',
     __init__ junk obs_shape action_shape action_type num_steps num_storages
       batch_size shm = (Ok self, shm') /\
     _action_dim self =
       (if decide (action_type = "Discrete"%string) then 1 else n) /\
     (exists new, shm' = shm ++ new /\ length new = 10 * num_storages /\
        Forall (fun sp => head (size sp) = Some (num_steps + 1)) new /\
        (0 < num_storages ->
         mk_spec [num_steps + 1; n] float32 ∈ new)) /\
     Pool.storages_shaped num_storages num_steps (storages self)).
Proof.
  split.
  - intros [->| ->] ->; reflexivity.
  - intros Hty n rest ->.
    assert (action_type_branch action_type (n :: rest) =
            Ok (if decide (action_type = "Discrete"%string) then 1 else n))
      as Hbranch.
    { unfold action_type_branch. destruct Hty as [->| ->]; reflexivity. }
    unfold __init__. rewrite Hbranch. simpl.
    eexists _, _. split; [reflexivity|]. simpl. split; [done|]. split.
    + eexists. split; [reflexivity|]. split; [|split].
      * rewrite (flat_map_constant_length (c := 10)) by done.
        rewrite length_seq. lia.
      * apply Forall_forall. intros sp Hsp.
        apply list_elem_of_In, in_flat_map in Hsp as (i & _ & Hsp).
        simpl in Hsp. repeat (destruct Hsp as [<-|Hsp]; [done|]). done.
      * intros HS. apply list_elem_of_In, in_flat_map.
        exists 0. split; [apply in_seq; lia|]. simpl. tauto.
    + intros k. split; [by rewrite length_replicate|].
      apply Forall_replicate. by rewrite length_replicate.
Qed.

Lemma get_indices_take n : forall full,
  n <= length full -> get_indices n full = Some (take n full, drop n full).
Proof.
  induction n as [|n IH]; intros full Hn; simpl; [by rewrite drop_0|].
  destruct full as [|i full]; simpl in *; [lia|].
  by rewrite IH by lia.
Qed.



Lemma getitems_Ok {A} (l : list A) indices :
  Forall (fun i => i < length l) indices ->
  exists r, getitems l indices = Ok r.
Proof.
  induction 1 as [|i indices Hi _ [r IH]]; simpl; [by eexists|].
  destruct (lookup_lt_is_Some_2 l i Hi) as [a Ha].
  rewrite (getitem_Ok _ _ _ Ha). simpl. rewrite IH. simpl. by eexists.
Qed.

Lemma getitems_Raise {A} (l : list A) indices :
  ~ Forall (fun i => i < length l) indices ->
  getitems l indices = Raise IndexError.
Proof.
  induction indices as [|i indices IH]; intros H; simpl.
  - destruct H. constructor.
  - unfold getitem. destruct (l !! i) as [a|] eqn:Ha; [|done]. simpl.
    rewrite IH; [done|]. intros Hall. apply H. constructor; [|done].
    by eapply lookup_lt_Some.
Qed.

Lemma build_keys_Ok (storages : key -> list (list tensor)) indices ks :
  indices <> [] ->
  (forall k, Forall (fun i => i < length (storages k)) indices) ->
  forall b0, exists b,
    for_each
      (fun (batch : key -> list (list tensor)) k =>
         slots ← getitems (storages k) indices;
         col ← torch_stack slots;
         Ok (<[k := col]> batch))
      ks b0 = Ok b.
Proof.
  intros Hne Hall. induction ks as [|k ks IH]; intros b0; simpl; [by eexists|].
  destruct (getitems_Ok (storages k) indices (Hall k)) as [slots Hs].
  rewrite Hs. simpl.
  assert (slots <> []) as Hslots.
  { apply DistributedStorageFacts.getitems_lookup in Hs as [Hlen _].
    destruct slots; [|done]. by destruct indices. }
  destruct slots as [|sl slots]; [done|]. simpl. apply IH.
Qed.

(** X17: what a call of [sample] that does not block does, on a pool of
    [S] slots.  With [batch_size = 0] it raises [RuntimeError]
    ([torch.stack] of an empty list) and leaves both queues as they were.
    With [batch_size > 0] and the first [batch_size] indices of Full all
    below [S] it returns, Full has lost those indices and Free has
    received them in the same order.  If one of them is not a slot it
    raises [IndexError] and the indices it dequeued are on neither
    queue. *)
Theorem sample_outcome S T L batch_size q sh :
  Pool.shaped S T L sh ->
  batch_size <= length (full_queue q) ->
  (batch_size = 0 ->
   sample batch_size q (DistributedTrainer.storages sh)
     (DistributedTrainer.init_actor_state_storages sh)
   = Some (Raise RuntimeError, q)) /\
  (0 < batch_size ->
   Forall (fun i => i < S) (take batch_size (full_queue q)) ->
   exists batch g,
     sample batch_size q (DistributedTrainer.storages sh)
       (DistributedTrainer.init_actor_state_storages sh)
     = Some (Ok (batch, g),
             mk_queues
               (free_queue q ++ map Some (take batch_size (full_queue q)))
               (drop batch_size (full_queue q)))) /\
  (0 < batch_size ->
   ~ Forall (fun i => i < S) (take batch_size (full_queue q)) ->
   sample batch_size q (DistributedTrainer.storages sh)
     (DistributedTrainer.init_actor_state_storages sh)
   = Some (Raise IndexError,
           mk_queues (free_queue q) (drop batch_size (full_queue q)))).
Proof.
  intros [Hstg [Hbuf _]] Hlen.
  unfold sample. rewrite get_indices_take by done.
  split; [|split].
  - intros ->. simpl. by destruct q.
  - intros Hpos Hall.
    assert (take batch_size (full_queue q) <> []) as Hne.
    { intros Hnil. apply (f_equal length) in Hnil.
      rewrite length_take in Hnil. simpl in Hnil. lia. }
    destruct (build_keys_Ok (DistributedTrainer.storages sh) _ keys Hne)
      with (b0 := fun _ : key => @nil (list tensor)) as [b Hb].
    { intros k. destruct (Hstg k) as [Hk _]. by rewrite Hk. }
    unfold build_batch. rewrite Hb.
    destruct (getitems_Ok (DistributedTrainer.init_actor_state_storages sh)
                (take batch_size (full_queue q))) as [states Hst].
    { by rewrite Hbuf. }
    unfold make_state_generator. rewrite Hst. simpl. by eexists _, _.
  - intros Hpos Hbad.
    unfold build_batch. simpl.
    rewrite (getitems_Raise (DistributedTrainer.storages sh Key.obs)); [done|].
    destruct (Hstg Key.obs) as [Hk _]. by rewrite Hk.
Qed.

(** Instances: one slot; index 0 on Full, and index 5, which is no slot. *)
Lemma sample_outcome_witness :
  (exists batch g,
     sample 1 (mk_queues [] [0]) (DistributedTrainer.storages (Toy.pool 1))
       (DistributedTrainer.init_actor_state_storages (Toy.pool 1))
     = Some (Ok (batch, g), mk_queues [Some 0] [])) /\
  sample 1 (mk_queues [] [5]) (DistributedTrainer.storages (Toy.pool 1))
    (DistributedTrainer.init_actor_state_storages (Toy.pool 1))
  = Some (Raise IndexError, mk_queues [] []).
Proof.
  assert (Pool.shaped 1 1 1 (Toy.pool 1)) as Hsh.
  { split; [|split; [reflexivity|repeat constructor]].
    intros k. split; [reflexivity|repeat constructor]. }
  split.
  - apply (sample_outcome 1 1 1 1 (mk_queues [] [0]) (Toy.pool 1) Hsh).
    + simpl. lia.
    + lia.
    + repeat constructor.
  - apply (sample_outcome 1 1 1 1 (mk_queues [] [5]) (Toy.pool 1) Hsh).
    + simpl. lia.
    + lia.
    + simpl. intros H. apply Forall_cons in H as [H _]. lia.
Defined.


(** *** The recurrent states, iterated at once *)

Lemma mapM_head_rows (base f : nat) (indices : list nat) :
  mapM head (map (fun i => map (pair i) (seq base (S f))) indices)
  = Some (map (fun i => (i, base)) indices).
Proof.
  induction indices as [|i indices IH]; [done|].
  cbn [map mapM]. simpl in IH. simpl. rewrite IH. done.
Qed.

Lemma zip_rows_indices (indices : list nat) : forall f base,
  zip_rows f (map (fun i => map (pair i) (seq base f)) indices)
  = map (fun j => map (fun i => (i, j)) indices) (seq base f).
Proof.
  induction f as [|f IH]; intros base; [done|].
  cbn [zip_rows]. rewrite mapM_head_rows.
  cbn [seq map]. f_equal.
  rewrite <- IH. f_equal. rewrite map_map. done.
Qed.

Lemma for_each_collect {A B} (F : A -> result B) xs :
  Forall (fun x => is_ok (F x)) xs ->
  forall acc, exists ys,
    for_each (fun acc x => y ← F x; Ok (acc ++ [y])) xs acc = Ok (acc ++ ys) /\
    Forall2 (fun x y => F x = Ok y) xs ys.
Proof.
  induction 1 as [|x xs Hx _ IH]; intros acc; simpl.
  - exists []. by rewrite app_nil_r.
  - destruct (F x) as [y|e] eqn:Hy; [|done]. simpl.
    destruct (IH (acc ++ [y])) as (ys & Hys & Hall).
    exists (y :: ys). rewrite Hys, <- app_assoc. split; [done|].
    by constructor.
Qed.

(** [torch.cat] over the references of one state component. *)
Lemma cat_component (buffers : list (list tensor)) S L indices j :
  Pool.buffers_shaped S L buffers ->
  Forall (fun i => i < S) indices -> j < L ->
  exists cat,
    for_each
      (fun acc (r : nat * nat) =>
         state ← getitem buffers r.1;
         tensor ← getitem state r.2;
         Ok (acc ++ [tensor]))
      (map (fun i => (i, j)) indices) [] = Ok cat /\
    length cat = length indices /\
    forall k i, indices !! k = Some i ->
      cat !! k = RolloutLayout.entry buffers i j.
Proof.
  intros [Hlen Hall] Hi Hj.
  rewrite (GAE.for_each_ext _
             (fun acc (r : nat * nat) =>
                y ← (state ← getitem buffers r.1; getitem state r.2);
                Ok (acc ++ [y]))).
  2: { intros acc r. destruct (getitem buffers r.1); [|done]. simpl.
       by destruct (getitem a r.2). }
  destruct (for_each_collect
              (fun r : nat * nat => state ← getitem buffers r.1; getitem state r.2)
              (map (fun i => (i, j)) indices)) with (acc := @nil tensor)
    as (cat & Hcat & Hrel).
  { apply Forall_fmap. eapply Forall_impl; [exact Hi|]. simpl. intros i Hlt.
    destruct (lookup_lt_is_Some_2 buffers i) as [st Hst]; [lia|].
    rewrite (getitem_Ok _ _ _ Hst). simpl.
    pose proof (proj1 (Forall_forall _ _) Hall st
                  (list_elem_of_lookup_2 _ _ _ Hst)) as Hl. simpl in Hl.
    destruct (lookup_lt_is_Some_2 st j) as [v Hv]; [lia|].
    by rewrite (getitem_Ok _ _ _ Hv). }
  exists cat. split; [done|].
  apply Forall2_fmap_l in Hrel.
  split; [symmetry; by eapply Forall2_length|].
  intros k i Hk.
  destruct (Forall2_lookup_l _ _ _ _ _ Hrel Hk) as (v & Hv & Hget).
  rewrite Hv. simpl in Hget. unfold RolloutLayout.entry.
  destruct (buffers !! i) as [st|] eqn:Hst.
  - rewrite (getitem_Ok _ _ _ Hst) in Hget. simpl in Hget.
    apply getitem_inv in Hget. simpl. by rewrite Hget.
  - unfold getitem in Hget. by rewrite Hst in Hget.
Qed.

(** X18: iterated before anything writes into the state buffers, the
    generator [sample] returns yields one batch per component of the
    recurrent state; position [k] of the batch for component [j] is
    [init_actor_state_storages[i][j]] for the [k]-th index [i] dequeued
    from Full. *)
Theorem sample_states_in_claim_order S T L batch_size q sh batch g q' :
  Pool.shaped S T L sh ->
  sample batch_size q (DistributedTrainer.storages sh)
    (DistributedTrainer.init_actor_state_storages sh)
  = Some (Ok (batch, g), q') ->
  exists out,
    consume (DistributedTrainer.init_actor_state_storages sh) g = Ok out /\
    length out = L /\
    forall j cat, out !! j = Some cat ->
      length cat = batch_size /\
      forall k i, k < batch_size -> full_queue q !! k = Some i ->
        cat !! k =
          RolloutLayout.entry (DistributedTrainer.init_actor_state_storages sh) i j.
Proof.
  intros [_ Hbuf] Hs. unfold sample in Hs.
  destruct (get_indices _ _) as [[indices rest]|] eqn:Hget; [|discriminate Hs].
  apply DistributedStorageFacts.get_indices_inv in Hget as [Hfull Hlen].
  destruct (build_batch _ _) as [b|e] eqn:Hb; [|by injection Hs].
  destruct (make_state_generator _ _) as [g'|e] eqn:Hg; [|by injection Hs].
  injection Hs as <- <- <-.
  assert (indices <> []) as Hne.
  { intros ->. discriminate Hb. }
  unfold make_state_generator in Hg.
  apply bind_Ok in Hg as (states & Hst & [= <-]).
  apply DistributedStorageFacts.getitems_lookup in Hst as [Hls Hlook].
  assert (Forall (fun i => i < S) indices) as Hi.
  { apply Forall_forall. intros i Hin.
    apply list_elem_of_lookup in Hin as [k Hk].
    destruct (lookup_lt_is_Some_2 states k) as [st Hstk].
    { rewrite Hls. by eapply lookup_lt_Some. }
    rewrite (Hlook _ _ Hk) in Hstk. apply lookup_lt_Some in Hstk.
    destruct Hbuf as [<- _]. done. }
  assert (zip_with (fun i state => map (pair i) (seq 0 (length state)))
            indices states
          = map (fun i => map (pair i) (seq 0 L)) indices) as Hrows.
  { apply list_eq. intros k. rewrite lookup_zip_with, list_lookup_fmap.
    destruct (indices !! k) as [i|] eqn:Hk; simpl; [|done].
    rewrite (Hlook _ _ Hk).
    destruct (lookup_lt_is_Some_2 (DistributedTrainer.init_actor_state_storages sh) i)
      as [st Hsti].
    { destruct Hbuf as [-> _].
      exact (proj1 (Forall_forall _ _) Hi i (list_elem_of_lookup_2 _ _ _ Hk)). }
    rewrite Hsti. simpl. do 3 f_equal.
    destruct Hbuf as [_ Hall].
    exact (proj1 (Forall_forall _ _) Hall st (list_elem_of_lookup_2 _ _ _ Hsti)). }
  unfold consume. cbn [pending]. rewrite Hrows.
  assert (zip_star (map (fun i => map (pair i) (seq 0 L)) indices)
          = map (fun j => map (fun i => (i, j)) indices) (seq 0 L)) as ->.
  { destruct indices as [|i0 indices]; [done|].
    unfold zip_star. cbn [map]. rewrite length_map, length_seq.
    apply (zip_rows_indices (i0 :: indices) L 0). }
  destruct (for_each_collect
              (fun ts : list (nat * nat) =>
                 for_each
                   (fun acc (r : nat * nat) =>
                      state ← getitem (DistributedTrainer.init_actor_state_storages sh) r.1;
                      tensor ← getitem state r.2;
                      Ok (acc ++ [tensor]))
                   ts [])
              (map (fun j => map (fun i => (i, j)) indices) (seq 0 L)))
    with (acc := @nil (list tensor)) as (out & Hout & Hrel).
  { apply Forall_fmap, Forall_forall. intros j Hj. simpl.
    apply elem_of_seq in Hj.
    destruct (cat_component _ S L indices j Hbuf Hi) as (cat & -> & _); [lia|done]. }
  exists out. split; [exact Hout|].
  apply Forall2_fmap_l in Hrel.
  pose proof (Forall2_length _ _ _ Hrel) as Hlo. rewrite length_seq in Hlo.
  split; [done|].
  intros j cat Hj.
  destruct (Forall2_lookup_r _ _ _ _ _ Hrel Hj) as (j' & Hj' & Hcat).
  apply lookup_seq in Hj' as [-> Hjl]. simpl in Hcat.
  destruct (cat_component _ S L indices j Hbuf Hi Hjl) as (cat' & Hcat' & Hlc & Hrowsc).
  rewrite Hcat' in Hcat. injection Hcat as ->.
  split; [lia|].
  intros k i Hk Hq. apply Hrowsc.
  rewrite Hfull in Hq. by rewrite lookup_app_l in Hq by lia.
Qed.

(** An instance: one slot on Full and a batch of one. *)
Lemma sample_states_in_claim_order_witness :
  exists batch g q' out,
    sample 1 (mk_queues [] [0]) (DistributedTrainer.storages (Toy.pool 1))
      (DistributedTrainer.init_actor_state_storages (Toy.pool 1))
    = Some (Ok (batch, g), q') /\
    consume (DistributedTrainer.init_actor_state_storages (Toy.pool 1)) g = Ok out /\
    length out = 1.
Proof.
  assert (Pool.shaped 1 1 1 (Toy.pool 1)) as Hsh.
  { split; [|split; [reflexivity|repeat constructor]].
    intros k. split; [reflexivity|repeat constructor]. }
  destruct (sample 1 (mk_queues [] [0]) (DistributedTrainer.storages (Toy.pool 1))
              (DistributedTrainer.init_actor_state_storages (Toy.pool 1)))
    as [[[[batch g]|e] q']|] eqn:Hs;
    [|cbv in Hs; discriminate Hs|cbv in Hs; discriminate Hs].
  destruct (sample_states_in_claim_order 1 1 1 1 (mk_queues [] [0]) (Toy.pool 1)
              batch g q' Hsh Hs) as (out & Hout & Hlen & _).
  exists batch, g, q', out. split; [reflexivity|]. split; [exact Hout | exact Hlen].
Defined.

End SampleFacts.

(** ** [Environment]: runs of the adapter *)

Module EpisodeFacts.
Import Environment Episode.

Section Facts.
Context {E : Type}.
Variable env_reset : option Z -> E -> list Z * E.
Variable env_step : scalar -> E -> (list Z * R * bool * bool) * E.

Local Abbreviation step := (step E env_reset env_step).
Local Abbreviation steps := (steps E env_reset env_step).
Local Abbreviation reset := (reset E env_reset).

(** X19: [Environment.step] needs [reset] first.  An action tensor without
    exactly one element fails in [action.item()]; otherwise [step] raises
    [TypeError] as long as one of the counters is [None], so always on an
    adapter that was just constructed, and does not raise once both are
    set. *)
Theorem step_requires_reset action (self : t E) h :
  (forall e, item action = Raise e -> step action self h = Raise e) /\
  (is_ok (item action) ->
   episode_step self = None \/ episode_return self = None ->
   step action self h = Raise TypeError) /\
  (is_ok (item action) ->
   is_Some (episode_step self) -> is_Some (episode_return self) ->
   is_ok (step action self h)) /\
  (forall gym_env, ~ is_ok (step action (__init__ E gym_env) h)).
Proof.
  unfold Environment.step.
  split; [|split; [|split]].
  - intros e ->. done.
  - intros Hitem Hnone. destruct (item action) as [a|]; [|by destruct Hitem]. simpl.
    destruct (env_step a (env self)) as [[[[o r] te] tr] e].
    destruct Hnone as [-> | ->]; [done|]. by destruct (episode_step self).
  - intros Hitem [ps ->] [pr ->].
    destruct (item action) as [a|]; [|by destruct Hitem]. simpl.
    destruct (env_step a (env self)) as [[[[o r] te] tr] e].
    destruct (te || tr); [|done].
    by destruct (env_reset None e).
  - intros gym_env H. destruct (item action) as [a|]; [|exact H].
    simpl in H. destruct (env_step a gym_env) as [[[[o r] te] tr] e]. exact H.
Qed.

(** One step away from an episode boundary, inverted. *)
Lemma step_continues_inv action (self : t E) h pr ps fr self' h' :
  episode_return self = Some pr -> episode_step self = Some ps ->
  step action self h = Ok (fr, self', h') ->
  f_terminated fr = false -> f_truncated fr = false ->
  episode_return self' = Some pr /\ episode_step self' = Some ps /\
  f_episode_return fr = pr /\ f_episode_step fr = ps /\
  floats h' pr = (floats h pr + f_reward fr)%R /\
  ints h' ps = wrap32 (ints h ps + 1).
Proof.
  intros Hr Hs Hstep Hte Htr. unfold Environment.step in Hstep.
  destruct (item action) as [a|]; [|done]. simpl in Hstep.
  destruct (env_step a (env self)) as [[[[o r] te] tr] e].
  rewrite Hs, Hr in Hstep.
  destruct (te || tr) eqn:Hdone.
  - destruct (env_reset None e) as [o' e']. injection Hstep as <- <- <-.
    simpl in Hte, Htr. subst. discriminate Hdone.
  - injection Hstep as <- <- <-. simpl.
    by rewrite !fn_lookup_insert.
Qed.

Lemma steps_continue actions : forall (self : t E) h pr ps frs self' h',
  episode_return self = Some pr -> episode_step self = Some ps ->
  steps actions self h = Ok (frs, self', h') ->
  Forall (fun fr => f_terminated fr = false /\ f_truncated fr = false) frs ->
  length frs = length actions /\
  episode_return self' = Some pr /\ episode_step self' = Some ps /\
  Forall (fun fr => f_episode_return fr = pr /\ f_episode_step fr = ps) frs /\
  floats h' pr = (floats h pr + rsum (map f_reward frs))%R /\
  ((0 <= ints h ps)%Z -> (ints h ps + Z.of_nat (length frs) < 2 ^ 31)%Z ->
   ints h' ps = (ints h ps + Z.of_nat (length frs))%Z).
Proof.
  induction actions as [|a actions IH]; intros self h pr ps frs self' h' Hr Hs H Hall.
  - injection H as <- <- <-. simpl.
    split; [done|]. split; [done|]. split; [done|]. split; [done|].
    split; [lra|]. intros. lia.
  - simpl in H.
    apply bind_Ok in H as ([[fr self1] h1] & Hstep & H).
    apply bind_Ok in H as ([[frs1 self2] h2] & Hrest & [= <- <- <-]).
    apply Forall_cons in Hall as [[Hte Htr] Hall].
    destruct (step_continues_inv _ _ _ _ _ _ _ _ Hr Hs Hstep Hte Htr)
      as (Hr1 & Hs1 & Hfr & Hfs & Hfl & Hin).
    destruct (IH _ _ _ _ _ _ _ Hr1 Hs1 Hrest Hall)
      as (Hlen & Hr2 & Hs2 & Hshare & Hsum & Hcnt).
    split; [simpl; by rewrite Hlen|]. split; [done|]. split; [done|].
    split; [by constructor|]. split.
    + rewrite Hsum, Hfl. simpl. unfold rsum. lra.
    + intros H0 Hlt. simpl length in *.
      rewrite Hcnt; rewrite Hin, EnvironmentFacts.wrap32_in_range; lia.
Qed.

(** X20: the frames of one episode share the counter tensors of the
    adapter.  After [reset] and [k] steps none of which ended the
    episode, every frame returned refers to the tensors of the frame of
    [reset]; read at that point they hold [k] and the sum of the [k]
    rewards.  The frame of [reset] has reward 0, last action 0 and both
    flags set. *)
Theorem episode_accounting_run seed actions (self : t E) h fr0 self0 h0
    frs self' h' :
  reset seed self h = (fr0, self0, h0) ->
  steps actions self0 h0 = Ok (frs, self', h') ->
  Forall (fun fr => f_terminated fr = false /\ f_truncated fr = false) frs ->
  (Z.of_nat (length actions) < 2 ^ 31)%Z ->
  length frs = length actions /\
  Forall (fun fr => f_episode_return fr = f_episode_return fr0 /\
                    f_episode_step fr = f_episode_step fr0) frs /\
  ints h' (f_episode_step fr0) = Z.of_nat (length actions) /\
  floats h' (f_episode_return fr0) = rsum (map f_reward frs) /\
  f_terminated fr0 = true /\ f_truncated fr0 = true /\
  f_reward fr0 = 0%R /\ f_last_action fr0 = TInt 0.
Proof.
  intros Hreset Hsteps Hall Hlen.
  destruct (EnvironmentFacts.reset_valid env_reset _ _ _ _ _ _ Hreset)
    as (_ & Hr & Hs & Hf0 & Hi0).
  destruct (steps_continue _ _ _ _ _ _ _ _ Hr Hs Hsteps Hall)
    as (Hl & _ & _ & Hshare & Hsum & Hcnt).
  split; [done|]. split; [done|].
  rewrite Hsum, Hf0, Hcnt, Hi0, Hl by lia.
  split; [lia|]. split; [lra|].
  unfold Environment.reset in Hreset. simpl in Hreset.
  destruct (env_reset (Some seed) (env self)) as [o e].
  by injection Hreset as <- _ _.
Qed.

(** X21: what the frame of [step] carries besides the counters: the
    reward and the flags of the environment's step, and the action tensor
    as [last_action].  At an episode boundary the observation is the one
    [env.reset()] returns (called without a seed), not the last
    observation of the finished episode; otherwise it is the observation
    of the step. *)
Theorem step_auto_reset action a (self : t E) h o rew te tr e :
  is_Some (episode_return self) -> is_Some (episode_step self) ->
  item action = Ok a ->
  env_step a (env self) = (o, rew, te, tr, e) ->
  exists fr self' h',
    step action self h = Ok (fr, self', h') /\
    f_reward fr = rew /\ f_terminated fr = te /\ f_truncated fr = tr /\
    f_last_action fr = action /\
    (te || tr = true ->
     f_obs fr = (env_reset None e).1 /\ env self' = (env_reset None e).2) /\
    (te || tr = false -> f_obs fr = o /\ env self' = e).
Proof.
  intros [pr Hr] [ps Hs] Hitem Hstep. unfold Environment.step.
  rewrite Hitem. simpl. rewrite Hstep, Hs, Hr.
  destruct (te || tr) eqn:Hdone.
  - destruct (env_reset None e) as [o' e'] eqn:Hres.
    eexists _, _, _. split; [reflexivity|]. simpl.
    do 4 (split; [done|]). split; [done | by intros [=]].
  - eexists _, _, _. split; [reflexivity|]. simpl.
    do 4 (split; [done|]). split; [by intros [=] | done].
Qed.

End Facts.

(** An instance: a terminal step of reward 1. *)
Lemma step_auto_reset_witness :
  exists fr self' h',
    Environment.step unit (fun _ e => ([7%Z], e))
      (fun _ e => ([3%Z], 1%R, true, false, e)) (TInt 3)
      (mk unit tt (Some 0) (Some 0)) (mk_heap (fun _ => 4%R) (fun _ => 7%Z) 1 1)
      = Ok (fr, self', h') /\
    f_obs fr = [7%Z] /\ f_reward fr = 1%R /\ f_last_action fr = TInt 3.
Proof.
  destruct (step_auto_reset (fun _ e => ([7%Z], e))
              (fun _ e => ([3%Z], 1%R, true, false, e)) (TInt 3) (SInt 3)
              (mk unit tt (Some 0) (Some 0))
              (mk_heap (fun _ => 4%R) (fun _ => 7%Z) 1 1)
              [3%Z] 1%R true false tt)
    as (fr & self' & h' & Hstep & Hrew & _ & _ & Hact & Hobs & _).
  - by eexists.
  - by eexists.
  - reflexivity.
  - reflexivity.
  - exists fr, self', h'. split; [exact Hstep|].
    split; [exact (proj1 (Hobs eq_refl))|]. split; [exact Hrew | exact Hact].
Defined.

(** An instance: three steps of the environment that never ends. *)
Lemma episode_accounting_run_witness :
  exists fr0 self0 h0 frs self' h',
    Environment.reset unit Toy.env_reset 0 (__init__ unit tt) empty_heap
      = (fr0, self0, h0) /\
    Episode.steps unit Toy.env_reset Toy.env_step [TInt 1; TInt 1; TInt 1] self0 h0
      = Ok (frs, self', h') /\
    ints h' (f_episode_step fr0) = 3%Z /\
    floats h' (f_episode_return fr0) = rsum (map f_reward frs).
Proof.
  destruct (Environment.reset unit Toy.env_reset 0 (__init__ unit tt) empty_heap)
    as [[fr0 self0] h0] eqn:Hreset.
  destruct (Episode.steps unit Toy.env_reset Toy.env_step
              [TInt 1; TInt 1; TInt 1] self0 h0) as [[[frs self'] h']|e] eqn:Hsteps.
  2: { injection Hreset as <- <- <-. cbv in Hsteps. discriminate Hsteps. }
  destruct (episode_accounting_run Toy.env_reset Toy.env_step 0
              [TInt 1; TInt 1; TInt 1] (__init__ unit tt) empty_heap
              fr0 self0 h0 frs self' h' Hreset Hsteps)
    as (_ & _ & Hcnt & Hsum & _).
  - injection Hreset as <- <- <-. cbv in Hsteps. injection Hsteps as <- _ _.
    repeat constructor.
  - simpl. lia.
  - exists fr0, self0, h0, frs, self', h'.
    split; [reflexivity|]. split; [exact Hsteps|].
    split; [exact Hcnt | exact Hsum].
Defined.

End EpisodeFacts.

(** ** The workers: what a rollout writes, and a pipeline without faults *)

Module WorkerFacts.
Import DistributedTrainer Pool.

Local Abbreviation entry := RolloutLayout.entry.

(** The loop that copies the recurrent state into the buffer of a slot. *)
Lemma write_actor_state_loop idx (st : list tensor) :
  forall b buffers buffers',
  for_each
    (fun buffers (it : nat * tensor) =>
       state ← getitem buffers idx;
       state' ← setitem state it.1 it.2;
       Ok (<[idx := state']> buffers))
    (zip (seq b (length st)) st) buffers = Ok buffers' ->
  length buffers' = length buffers /\
  (forall idx', idx' <> idx -> buffers' !! idx' = buffers !! idx') /\
  (forall i, i < b -> entry buffers' idx i = entry buffers idx i) /\
  (forall j v, st !! j = Some v -> entry buffers' idx (b + j) = Some v) /\
  (forall s0, buffers !! idx = Some s0 ->
     exists s1, buffers' !! idx = Some s1 /\ length s1 = length s0).
Proof.
  induction st as [|v st IH]; intros b buffers buffers' H; simpl in H.
  - injection H as <-. split; [done|]. split; [done|]. split; [done|].
    split; [by intros j v [=]|]. intros s0 Hs0. by exists s0.
  - apply bind_Ok in H as (buf1 & H1 & H).
    apply bind_Ok in H1 as (state & Hst & H1).
    apply bind_Ok in H1 as (state' & Hst' & [= <-]).
    apply getitem_inv in Hst. apply setitem_inv in Hst' as [Hb ->].
    pose proof (lookup_lt_Some _ _ _ Hst) as Hidx.
    destruct (IH (S b) _ _ H) as (Hlen & Hoth & Hlow & Hnew & Hkeep).
    rewrite length_insert in Hlen.
    split; [done|]. split; [|split; [|split]].
    + intros idx' Hne. rewrite Hoth by done. by rewrite list_lookup_insert_ne.
    + intros i Hi. rewrite Hlow by lia. unfold entry.
      rewrite list_lookup_insert_eq by done. rewrite Hst. simpl.
      apply list_lookup_insert_ne. lia.
    + intros [|j] w Hj; simpl in Hj.
      * injection Hj as <-. rewrite Nat.add_0_r, Hlow by lia.
        unfold entry. rewrite list_lookup_insert_eq by done. simpl.
        by apply list_lookup_insert_eq.
      * replace (b + S j) with (S b + j) by lia. by apply Hnew.
    + intros s0 Hs0. rewrite Hst in Hs0. injection Hs0 as <-.
      destruct (Hkeep (<[b := v]> state)) as (s1 & Hs1 & Hl1).
      { by apply list_lookup_insert_eq. }
      exists s1. split; [done|]. by rewrite Hl1, length_insert.
Qed.

Lemma write_actor_state_inv buffers idx st buffers' :
  write_actor_state buffers idx st = Ok buffers' ->
  length buffers' = length buffers /\
  (forall idx', idx' <> idx -> buffers' !! idx' = buffers !! idx') /\
  (forall j v, st !! j = Some v -> entry buffers' idx j = Some v) /\
  (forall s0, buffers !! idx = Some s0 ->
     exists s1, buffers' !! idx = Some s1 /\ length s1 = length s0).
Proof.
  intros H. apply write_actor_state_loop in H as (Hlen & Hoth & _ & Hnew & Hkeep).
  split; [done|]. split; [done|]. split; [|done].
  intros j v Hj. by apply (Hnew j v).
Qed.


(** *** Writes into a pool of the allocated shapes succeed *)

Lemma write_Ok S T stg idx t k v :
  storages_shaped S T stg -> idx < S -> t <= T ->
  exists stg', write stg idx t k v = Ok stg' /\ storages_shaped S T stg'.
Proof.
  intros Hsh Hidx Ht. destruct (Hsh k) as [Hlen Hall].
  destruct (lookup_lt_is_Some_2 (stg k) idx) as [slot Hslot]; [lia|].
  pose proof (proj1 (Forall_forall _ _) Hall slot
                (list_elem_of_lookup_2 _ _ _ Hslot)) as Hsl. simpl in Hsl.
  unfold write. rewrite (getitem_Ok _ _ _ Hslot). simpl.
  rewrite setitem_Ok by lia. simpl.
  eexists. split; [reflexivity|].
  intros k'. destruct (decide (k' = k)) as [->|Hne].
  - rewrite fn_lookup_insert. split; [by rewrite length_insert|].
    apply Forall_insert; [done|]. by rewrite length_insert.
  - rewrite fn_lookup_insert_ne by done. apply Hsh.
Qed.

Lemma write_keys_Ok S T idx t (d : dict) ks : forall stg,
  storages_shaped S T stg -> idx < S -> t <= T ->
  exists stg',
    for_each
      (fun stg k => match d k with Some v => write stg idx t k v | None => Ok stg end)
      ks stg = Ok stg' /\ storages_shaped S T stg'.
Proof.
  induction ks as [|k ks IH]; intros stg Hsh Hidx Ht; simpl; [by exists stg|].
  destruct (d k) as [v|].
  - destruct (write_Ok S T stg idx t k v Hsh Hidx Ht) as (stg1 & -> & Hsh1).
    simpl. by apply IH.
  - simpl. by apply IH.
Qed.

Lemma write_dict_Ok S T stg idx t d :
  storages_shaped S T stg -> idx < S -> t <= T ->
  exists stg', write_dict stg idx t d = Ok stg' /\ storages_shaped S T stg'.
Proof. apply write_keys_Ok. Qed.

Lemma write_actor_state_loop_Ok S L idx (st : list tensor) :
  forall b buffers,
  buffers_shaped S L buffers -> idx < S -> b + length st <= L ->
  exists buffers',
    for_each
      (fun buffers (it : nat * tensor) =>
         state ← getitem buffers idx;
         state' ← setitem state it.1 it.2;
         Ok (<[idx := state']> buffers))
      (zip (seq b (length st)) st) buffers = Ok buffers' /\
    buffers_shaped S L buffers'.
Proof.
  induction st as [|v st IH]; intros b buffers Hsh Hidx Hb; simpl;
    [by exists buffers|].
  destruct Hsh as [Hlen Hall].
  destruct (lookup_lt_is_Some_2 buffers idx) as [state Hst]; [lia|].
  pose proof (proj1 (Forall_forall _ _) Hall state
                (list_elem_of_lookup_2 _ _ _ Hst)) as Hsl. simpl in Hsl.
  rewrite (getitem_Ok _ _ _ Hst). simpl in *.
  rewrite setitem_Ok by lia. simpl.
  apply IH; [|done|lia].
  split; [by rewrite length_insert|].
  apply Forall_insert; [done|]. by rewrite length_insert.
Qed.

Lemma write_actor_state_Ok S L buffers idx st :
  buffers_shaped S L buffers -> idx < S -> length st = L ->
  exists buffers',
    write_actor_state buffers idx st = Ok buffers' /\ buffers_shaped S L buffers'.
Proof.
  intros Hsh Hidx Hlen. apply (write_actor_state_loop_Ok S L); [done|done|lia].
Qed.

Lemma sample_build_Ok S T L sh indices :
  shaped S T L sh -> indices <> [] -> Forall (fun i => i < S) indices ->
  exists r, sample_build sh indices = Ok r.
Proof.
  intros [Hstg [Hbuf _]] Hne Hall. unfold sample_build.
  destruct (SampleFacts.build_keys_Ok (storages sh) indices keys Hne)
    with (b0 := fun _ : key => @nil (list tensor)) as [b Hb].
  { intros k. destruct (Hstg k) as [Hk _]. by rewrite Hk. }
  unfold DistributedStorage.build_batch. rewrite Hb. simpl.
  destruct (SampleFacts.getitems_Ok (init_actor_state_storages sh) indices)
    as [states Hst].
  { by rewrite Hbuf. }
  unfold DistributedStorage.make_state_generator. rewrite Hst. simpl.
  by eexists.
Qed.

Section Worker.
Context {E : Type}.
Variable env_reset : option Z -> E -> list Z * E.
Variable env_step : scalar -> E -> (list Z * R * bool * bool) * E.
Variable init_state : list tensor.
Variable get_action : dict -> list tensor -> dict * list tensor.
Variable num_steps : nat.
Variable batch_size : nat.

Local Abbreviation rollout_step :=
  (rollout_step E env_reset env_step get_action).
Local Abbreviation act_body :=
  (act_body E env_reset env_step get_action num_steps).
Local Abbreviation step :=
  (step E env_reset env_step get_action num_steps batch_size).
Local Abbreviation exec :=
  (exec E env_reset env_step get_action num_steps batch_size).

Lemma rollout_buffers idx n : forall i a sh a' sh',
  for_each (rollout_step idx) (seq i n) (a, sh) = Ok (a', sh') ->
  init_actor_state_storages sh' = init_actor_state_storages sh.
Proof.
  induction n as [|n IH]; intros i a sh a' sh' H; simpl in H.
  - by injection H as <- <-.
  - apply bind_Ok in H as ([a1 sh1] & H1 & H).
    rewrite (IH _ _ _ _ _ H).
    unfold DistributedTrainer.rollout_step in H1.
    destruct (get_action _ _) as [ao st].
    apply bind_Ok in H1 as (act & _ & H1).
    apply bind_Ok in H1 as ([[fr env'] h'] & _ & H1).
    apply bind_Ok in H1 as (stg1 & _ & H1).
    apply bind_Ok in H1 as (stg2 & _ & [= <- <-]). done.
Qed.

(** X22: one iteration of the loop of [act] writes only into the slot it
    was given: every frame of every other slot and the recurrent-state
    buffers of the other slots are as before; the buffer of its own slot
    holds the recurrent state the worker entered the iteration with. *)
Theorem act_body_isolation idx a sh a' sh' :
  act_body idx (a, sh) = Ok (a', sh') ->
  (forall k idx' t, idx' <> idx ->
     frame_at (storages sh') k idx' t = frame_at (storages sh) k idx' t) /\
  length (init_actor_state_storages sh') = length (init_actor_state_storages sh) /\
  (forall idx', idx' <> idx ->
     init_actor_state_storages sh' !! idx' = init_actor_state_storages sh !! idx') /\
  (forall i v, actor_state E a !! i = Some v ->
     entry (init_actor_state_storages sh') idx i = Some v).
Proof.
  unfold DistributedTrainer.act_body. intros H.
  apply bind_Ok in H as (stg1 & H1 & H).
  apply bind_Ok in H as (stg2 & H2 & H).
  apply bind_Ok in H as (buffers & Hbuf & H).
  destruct (ActFacts.write_dicts_inv _ _ _ _ _ _ _ H1 H2) as [_ Hw0].
  pose proof (rollout_buffers _ _ _ _ _ _ _ H) as Hb. simpl in Hb.
  apply ActFacts.rollout_inv in H as (Ho & _ & _). simpl in Ho.
  apply write_actor_state_inv in Hbuf as (Hlen & Hoth & Hnew & _).
  rewrite Hb. split; [|done].
  intros k idx' t Hne. rewrite Ho by (by left). apply Hw0. by left.
Qed.


(** *** Index and protocol safety in a pool of the allocated shapes *)

Lemma env_step_Ok action (self : Environment.t E) h :
  is_ok (item action) ->
  is_Some (Environment.episode_return self) ->
  is_Some (Environment.episode_step self) ->
  exists fr self' h',
    Environment.step E env_reset env_step action self h = Ok (fr, self', h') /\
    is_Some (Environment.episode_return self') /\
    is_Some (Environment.episode_step self').
Proof.
  intros Hitem [pr Hr] [ps Hs]. unfold Environment.step.
  destruct (item action) as [a|]; [|by destruct Hitem]. simpl.
  destruct (env_step a (Environment.env self)) as [[[[o r] te] tr] e].
  rewrite Hs, Hr.
  destruct (te || tr).
  - destruct (env_reset None e) as [o' e'].
    eexists _, _, _. split; [reflexivity|]. simpl. split; by eexists.
  - eexists _, _, _. split; [reflexivity|]. simpl. split; by eexists.
Qed.

Lemma rollout_step_Ok S L idx a sh t :
  policy_ok get_action L -> shaped S num_steps L sh -> idx < S ->
  t < num_steps -> actor_ok L a ->
  exists a' sh',
    rollout_step idx (a, sh) t = Ok (a', sh') /\
    shaped S num_steps L sh' /\ actor_ok L a'.
Proof.
  intros Hpol [Hstg Hbuf] Hidx Ht (Hr & Hs & Hst).
  unfold DistributedTrainer.rollout_step.
  destruct (Hpol (env_dict (heap E a) (env_output E a)) (actor_state E a))
    as [(v & Hv & Hitem) Hlen].
  destruct (get_action _ _) as [ao st']. simpl in Hv, Hlen.
  specialize (Hlen Hst). rewrite Hv. simpl.
  destruct (env_step_Ok v (env E a) (heap E a) Hitem Hr Hs)
    as (fr & env' & h' & -> & Hr' & Hs').
  simpl.
  destruct (write_dict_Ok S num_steps (storages sh) idx (t + 1) (env_dict h' fr)
              Hstg Hidx ltac:(lia)) as (stg1 & -> & Hstg1).
  simpl.
  destruct (write_dict_Ok S num_steps stg1 idx (t + 1) ao Hstg1 Hidx ltac:(lia))
    as (stg2 & -> & Hstg2).
  simpl. eexists _, _. split; [reflexivity|]. split; [by split|].
  by split.
Qed.

Lemma rollout_Ok S L idx n : forall i a sh,
  policy_ok get_action L -> shaped S num_steps L sh -> idx < S ->
  i + n <= num_steps -> actor_ok L a ->
  exists a' sh',
    for_each (rollout_step idx) (seq i n) (a, sh) = Ok (a', sh') /\
    shaped S num_steps L sh' /\ actor_ok L a'.
Proof.
  induction n as [|n IH]; intros i a sh Hpol Hsh Hidx Hn Ha.
  - by exists a, sh.
  - cbn [seq for_each].
    destruct (rollout_step_Ok S L idx a sh i Hpol Hsh Hidx ltac:(lia) Ha)
      as (a1 & sh1 & -> & Hsh1 & Ha1).
    cbn [mbind result_bind]. apply IH; try done. lia.
Qed.

(** [act_body] does not raise. *)
Lemma act_body_Ok S L idx a sh :
  policy_ok get_action L -> shaped S num_steps L sh -> idx < S ->
  actor_ok L a ->
  exists a' sh',
    act_body idx (a, sh) = Ok (a', sh') /\
    shaped S num_steps L sh' /\ actor_ok L a'.
Proof.
  intros Hpol [Hstg Hbuf] Hidx Ha.
  unfold DistributedTrainer.act_body.
  destruct (write_dict_Ok S num_steps (storages sh) idx 0
              (env_dict (heap E a) (env_output E a)) Hstg Hidx ltac:(lia))
    as (stg1 & -> & Hstg1).
  simpl.
  destruct (write_dict_Ok S num_steps stg1 idx 0 (actor_output E a)
              Hstg1 Hidx ltac:(lia)) as (stg2 & -> & Hstg2).
  simpl.
  destruct (write_actor_state_Ok S L (init_actor_state_storages sh) idx
              (actor_state E a) Hbuf Hidx) as (buffers & -> & Hbuf').
  { by destruct Ha as (_ & _ & ?). }
  simpl. by apply (rollout_Ok S L).
Qed.

(** The invariant of the pipeline: the pool keeps its shapes, every worker
    keeps a reset adapter and a state of [L] tensors, every index is a
    slot of the pool. *)
Lemma step_shaped S L s ev s' :
  policy_ok get_action L -> 0 < batch_size ->
  shaped S num_steps L (store s) ->
  Forall (fun w => actor_ok L (w_local w)) (workers s) ->
  free_indices s ++ full_queue s ++ in_flight s ++ abandoned s ≡ₚ seq 0 S ->
  step s ev s' ->
  protocol_event ev /\
  shaped S num_steps L (store s') /\
  Forall (fun w => actor_ok L (w_local w)) (workers s').
Proof.
  intros Hpol Hbs Hsh Hw Htok Hstep.
  assert (forall w pc a idx, workers s !! w = Some (mk_worker E pc a) ->
            idx ∈ held_by_worker pc -> idx < S) as Hheld.
  { intros w pc a idx Hlook Hin.
    assert (idx ∈ seq 0 S) as Hseq.
    { rewrite <- Htok. rewrite !elem_of_app. right. right. left.
      unfold in_flight. rewrite elem_of_app. left.
      apply list_elem_of_In, in_flat_map.
      exists (mk_worker E pc a). split.
      - by apply list_elem_of_In, list_elem_of_lookup_2 with w.
      - by apply list_elem_of_In. }
    apply elem_of_seq in Hseq. lia. }
  assert (forall l indices, learners s !! l = Some (LCollect indices) ->
            Forall (fun i => i < S) indices) as Hcoll.
  { intros l indices Hlook. apply Forall_forall. intros idx Hin.
    assert (idx ∈ seq 0 S) as Hseq.
    { rewrite <- Htok. rewrite !elem_of_app. right. right. left.
      unfold in_flight. rewrite elem_of_app. right.
      apply list_elem_of_In, in_flat_map.
      exists (LCollect indices). split.
      - by apply list_elem_of_In, list_elem_of_lookup_2 with l.
      - by apply list_elem_of_In. }
    apply elem_of_seq in Hseq. lia. }
  assert (forall w pc a, workers s !! w = Some (mk_worker E pc a) ->
            actor_ok L a) as Hlocal.
  { intros w pc a Hlook.
    exact (proj1 (Forall_forall _ _) Hw _ (list_elem_of_lookup_2 _ _ _ Hlook)). }
  destruct Hstep; simpl;
    try (split; [done|]; split; [done|];
         first [ done
               | apply Forall_insert; [done|]; simpl; by eapply Hlocal ]).
  - (* the rollout *)
    destruct (act_body_Ok S L idx a (store s)) as (a1 & sh1 & Hbody & Hsh1 & Ha1);
      try done.
    { eapply Hheld; [done|]. simpl. by apply list_elem_of_singleton. }
    { by eapply Hlocal. }
    match goal with H : act_body _ _ = Ok _ |- _ => rewrite Hbody in H;
      injection H as <- <- end.
    split; [done|]. split; [done|]. by apply Forall_insert.
  - (* an exception in the rollout: excluded *)
    destruct (act_body_Ok S L idx a (store s)) as (a1 & sh1 & Hbody & _);
      try done.
    { eapply Hheld; [done|]. simpl. by apply list_elem_of_singleton. }
    { by eapply Hlocal. }
    match goal with H : act_body _ _ = Raise _ |- _ => rewrite Hbody in H;
      discriminate H end.
  - (* an exception in the batch: excluded *)
    destruct (sample_build_Ok S num_steps L (store s) indices) as [r Hr];
      try done.
    { intros ->. simpl in *. lia. }
    { by eapply Hcoll. }
    match goal with H : sample_build _ _ = Raise _ |- _ => rewrite Hr in H;
      discriminate H end.
Qed.

Lemma exec_shaped S L s tr s' :
  policy_ok get_action L -> 0 < batch_size ->
  shaped S num_steps L (store s) ->
  Forall (fun w => actor_ok L (w_local w)) (workers s) ->
  free_indices s ++ full_queue s ++ in_flight s ++ abandoned s ≡ₚ seq 0 S ->
  exec s tr s' ->
  Forall protocol_event tr /\
  shaped S num_steps L (store s') /\
  Forall (fun w => actor_ok L (w_local w)) (workers s').
Proof.
  intros Hpol Hbs Hsh Hw Htok Hexec.
  induction Hexec as [s|s ev s1 tr s2 Hstep Hexec IH]; [done|].
  destruct (step_shaped S L s ev s1 Hpol Hbs Hsh Hw Htok Hstep)
    as (Hev & Hsh1 & Hw1).
  destruct IH as (Htr & Hsh2 & Hw2); try done.
  - by rewrite (PipelineFacts.step_tokens _ _ _ _ _ _ _ _ Hstep).
  - split; [by constructor|done].
Qed.

Lemma act_start_ok L gym_env seed :
  policy_ok get_action L -> length init_state = L ->
  actor_ok L (act_start E env_reset init_state get_action gym_env seed).
Proof.
  intros Hpol Hlen. unfold act_start, Environment.reset. simpl.
  destruct (env_reset (Some seed) gym_env) as [o e]. simpl.
  destruct (get_action _ _) as [ao st]. simpl.
  split; [by eexists|]. split; [by eexists|done].
Qed.

(** X23: index and protocol safety of the pipeline.  Take a pool of the
    allocated shapes ([S] slots of [num_steps + 1] timesteps, [S] state
    tuples of [L] tensors), workers started by [act] and a [batch_size]
    that is positive, and suppose that

    - the policy always gives an action of one element and keeps the [L]
      tensors of its state;
    - every tensor written fits the frame it is assigned to, and the
      policy output has only keys of the storages;
    - the environment and the policy do not raise themselves.

    The last two are built into the embedding, whose [write] can fail on
    an index only.  Then no run of the pipeline contains an exception in
    a worker or in a learner: every slot and timestep [act] writes to and
    every slot [sample] gathers exists (no [IndexError]), an adapter is
    reset before it is stepped (no [TypeError]), and [torch.stack] is
    given a list that is not empty.  The pool keeps its shapes and no
    index is abandoned. *)
Theorem pipeline_index_safety S L sh envs num_learners tr s :
  policy_ok get_action L -> length init_state = L ->
  shaped S num_steps L sh -> 0 < batch_size ->
  exec (initial E S sh
          (map (fun es : E * Z =>
                  act_start E env_reset init_state get_action es.1 es.2) envs)
          num_learners) tr s ->
  Forall protocol_event tr /\
  shaped S num_steps L (store s) /\
  abandoned s = [].
Proof.
  intros Hpol Hlen Hsh Hbs Hexec.
  set (actors := map (fun es : E * Z =>
                        act_start E env_reset init_state get_action es.1 es.2)
                   envs) in *.
  destruct (PipelineFacts.initial_tokens (E := E) S sh actors num_learners)
    as (Hfree & Hfull & Hfl & Hab).
  destruct (exec_shaped S L (initial E S sh actors num_learners) tr s Hpol Hbs)
    as (Htr & Hsh' & _).
  - done.
  - simpl. apply Forall_fmap, Forall_fmap, Forall_forall. intros es _. simpl.
    by apply act_start_ok.
  - rewrite Hfree, Hfull, Hfl, Hab. simpl. by rewrite app_nil_r.
  - done.
  - split; [done|]. split; [done|].
    pose proof (PipelineFacts.exec_abandoned _ _ _ _ _ _ _ _ Hexec Htr) as Hperm.
    rewrite Hab in Hperm. by apply Permutation_nil_r in Hperm.
Qed.


(** *** The action fed back to the environment *)

Lemma step_last_action action (self : Environment.t E) h fr self' h' :
  Environment.step E env_reset env_step action self h = Ok (fr, self', h') ->
  Environment.f_last_action fr = action.
Proof.
  unfold Environment.step. destruct (item action) as [a|]; [|done]. simpl.
  destruct (env_step a (Environment.env self)) as [[[[o r] te] tr] e].
  destruct (Environment.episode_step self) as [ps|]; [|done].
  destruct (Environment.episode_return self) as [pr|]; [|done].
  destruct (te || tr).
  - destruct (env_reset None e) as [o' e']. by intros [= <- _ _].
  - by intros [= <- _ _].
Qed.

Lemma rollout_step_action idx a sh t a' sh' :
  (forall d st, (get_action d st).1 Key.last_action = None) ->
  rollout_step idx (a, sh) t = Ok (a', sh') ->
  exists v,
    frame_at (storages sh') Key.last_action idx (t + 1) = Some v /\
    frame_at (storages sh') Key.action idx (t + 1) = Some v.
Proof.
  intros Hno H. unfold DistributedTrainer.rollout_step in H.
  specialize (Hno (env_dict (heap E a) (env_output E a)) (actor_state E a)).
  destruct (get_action _ _) as [ao st]. simpl in Hno.
  destruct (ao Key.action) as [act|] eqn:Hact; [|done]. simpl in H.
  apply bind_Ok in H as ([[fr env'] h'] & Hstep & H).
  apply bind_Ok in H as (stg1 & H1 & H).
  apply bind_Ok in H as (stg2 & H2 & [= <- <-]). simpl.
  apply step_last_action in Hstep.
  destruct (ActFacts.write_dicts_inv _ _ _ _ _ _ _ H1 H2) as [Hw _].
  exists act. split.
  - apply (Hw Key.last_action act). unfold merged. rewrite Hno. simpl.
    by rewrite Hstep.
  - apply (Hw Key.action act). unfold merged. by rewrite Hact.
Qed.

Lemma rollout_action idx n : forall i a sh a' sh',
  (forall d st, (get_action d st).1 Key.last_action = None) ->
  for_each (rollout_step idx) (seq i n) (a, sh) = Ok (a', sh') ->
  forall t, i < t <= i + n ->
  exists v,
    frame_at (storages sh') Key.last_action idx t = Some v /\
    frame_at (storages sh') Key.action idx t = Some v.
Proof.
  induction n as [|n IH]; intros i a sh a' sh' Hno H t Ht; [lia|].
  cbn [seq for_each] in H.
  apply bind_Ok in H as ([a1 sh1] & H1 & H).
  destruct (decide (t = i + 1)) as [->|Hne].
  - destruct (rollout_step_action _ _ _ _ _ _ Hno H1) as (v & Hl & Ha).
    apply ActFacts.rollout_inv in H as (Ho & _ & _).
    exists v. rewrite !Ho by (right; lia). done.
  - apply (IH (S i) a1 sh1 a' sh' Hno H). lia.
Qed.

(** X24: in every frame [1 .. num_steps] a rollout writes, [last_action]
    is the action stored in the same frame: the action handed to
    [env.step] comes back as [last_action] of the frame.  (For a policy
    whose output has no key [last_action].) *)
Theorem rollout_last_action idx a sh a' sh' :
  (forall d st, (get_action d st).1 Key.last_action = None) ->
  act_body idx (a, sh) = Ok (a', sh') ->
  forall t, 1 <= t <= num_steps ->
  exists v,
    frame_at (storages sh') Key.last_action idx t = Some v /\
    frame_at (storages sh') Key.action idx t = Some v.
Proof.
  intros Hno H t Ht. unfold DistributedTrainer.act_body in H.
  apply bind_Ok in H as (stg1 & _ & H).
  apply bind_Ok in H as (stg2 & _ & H).
  apply bind_Ok in H as (buffers & _ & H).
  apply (rollout_action idx num_steps 0 _ _ _ _ Hno H). lia.
Qed.

(** *** Counting sentinels and lock holders *)

Lemma length_flat_map_insert {A B} (f : A -> list B) (l : list A) i x y :
  l !! i = Some x ->
  length (flat_map f (<[i := y]> l)) + length (f x)
  = length (flat_map f l) + length (f y).
Proof.
  intros Hi.
  destruct (PipelineFacts.flat_map_insert_split f l i x y Hi) as (rest & H1 & H2).
  apply Permutation_length in H1, H2. rewrite length_app in H1, H2. lia.
Qed.

Lemma step_sentinels s ev s' :
  step s ev s' ->
  num_stopped s' + num_sentinels s'
  = num_stopped s + num_sentinels s + length (sentinel_event ev).
Proof.
  intros Hstep. unfold num_stopped, num_sentinels.
  destruct Hstep; simpl;
    repeat match goal with
    | H : free_queue _ = _ |- _ => rewrite H
    end;
    rewrite ?flat_map_app, ?length_app; simpl;
    try match goal with
    | H : workers _ !! _ = Some ?x |- context [<[_ := ?y]> (workers _)] =>
        pose proof (length_flat_map_insert
                      (fun w => stopped (w_pc w)) _ _ x y H) as Hl;
        simpl in Hl
    end;
    lia.
Qed.

(** X25: in every reachable state the workers that left their loop and
    the sentinels still on Free together are as many as the sentinels put
    on Free so far: a sentinel stops one worker, never two. *)
Theorem sentinel_accounting S sh actors num_learners tr s :
  exec (initial E S sh actors num_learners) tr s ->
  num_stopped s + num_sentinels s = length (flat_map sentinel_event tr).
Proof.
  intros Hexec.
  assert (forall s0 tr s1, exec s0 tr s1 ->
            num_stopped s1 + num_sentinels s1
            = num_stopped s0 + num_sentinels s0
              + length (flat_map sentinel_event tr)) as Hgen.
  { clear. induction 1 as [s|s ev s1 tr s2 Hstep _ IH]; simpl; [lia|].
    rewrite IH, (step_sentinels _ _ _ Hstep), length_app. lia. }
  rewrite (Hgen _ _ _ Hexec).
  assert (num_stopped (initial E S sh actors num_learners) = 0) as ->.
  { unfold num_stopped, initial. simpl.
    rewrite PipelineFacts.flat_map_nil; [done|].
    apply Forall_fmap, Forall_forall. by intros a _. }
  assert (num_sentinels (initial E S sh actors num_learners) = 0) as ->.
  { unfold num_sentinels, initial. simpl.
    rewrite PipelineFacts.flat_map_nil; [done|].
    apply Forall_fmap, Forall_forall. by intros i _. }
  done.
Qed.

Lemma step_collecting s ev s' :
  step s ev s' ->
  num_collecting s = (if lock s then 1 else 0) ->
  num_collecting s' = (if lock s' then 1 else 0).
Proof.
  intros Hstep. unfold num_collecting.
  destruct Hstep; simpl; try done;
    match goal with
    | H : learners _ !! _ = Some ?x |- context [<[_ := ?y]> (learners _)] =>
        pose proof (length_flat_map_insert collecting _ _ x y H) as Hl;
        simpl in Hl
    end;
    try match goal with H : lock _ = _ |- _ => rewrite H end;
    destruct (lock s); lia.
Qed.

Lemma flat_map_one {A B} (f : A -> list B) (l : list A) i x :
  l !! i = Some x -> length (f x) <= length (flat_map f l).
Proof.
  intros Hi.
  destruct (PipelineFacts.flat_map_insert_split f l i x x Hi) as (rest & H1 & _).
  apply Permutation_length in H1. rewrite length_app in H1. lia.
Qed.

Lemma flat_map_two {A B} (f : A -> list B) (l : list A) : forall i j x y,
  i <> j -> l !! i = Some x -> l !! j = Some y ->
  length (f x) + length (f y) <= length (flat_map f l).
Proof.
  induction l as [|a l IH]; intros i j x y Hne Hi Hj; [done|].
  simpl. rewrite length_app.
  destruct i as [|i], j as [|j]; simpl in *; try done.
  - injection Hi as <-. pose proof (flat_map_one f l j y Hj). lia.
  - injection Hj as <-. pose proof (flat_map_one f l i x Hi). lia.
  - pose proof (IH i j x y ltac:(lia) Hi Hj). lia.
Qed.

(** X26: the lock of [sample].  In every reachable state the lock is held
    exactly when a learner is inside the locked comprehension, and at most
    one learner is. *)
Theorem lock_mutual_exclusion S sh actors num_learners tr s :
  exec (initial E S sh actors num_learners) tr s ->
  num_collecting s = (if lock s then 1 else 0) /\
  forall l1 l2 ix1 ix2,
    learners s !! l1 = Some (LCollect ix1) ->
    learners s !! l2 = Some (LCollect ix2) -> l1 = l2.
Proof.
  intros Hexec.
  assert (forall s0 tr s1, exec s0 tr s1 ->
            num_collecting s0 = (if lock s0 then 1 else 0) ->
            num_collecting s1 = (if lock s1 then 1 else 0)) as Hgen.
  { clear. induction 1 as [s|s ev s1 tr s2 Hstep _ IH]; [done|].
    intros H0. apply IH. by apply (step_collecting _ _ _ Hstep). }
  assert (num_collecting s = (if lock s then 1 else 0)) as Hinv.
  { apply (Hgen _ _ _ Hexec). unfold num_collecting, initial. simpl.
    rewrite PipelineFacts.flat_map_nil; [done|]. by apply Forall_replicate. }
  split; [done|].
  intros l1 l2 ix1 ix2 H1 H2.
  destruct (decide (l1 = l2)) as [|Hne]; [done|].
  pose proof (flat_map_two collecting (learners s) l1 l2 _ _ Hne H1 H2) as Hle.
  unfold num_collecting in Hinv. simpl in Hle. destruct (lock s); lia.
Qed.

(** *** A pool smaller than the batch *)

Lemma step_no_batch S s ev s' :
  S < batch_size ->
  free_indices s ++ full_queue s ++ in_flight s ++ abandoned s ≡ₚ seq 0 S ->
  step s ev s' ->
  forall l, ev <> EvBatch l /\ forall e, ev <> EvBatchFault l e.
Proof.
  intros HS Htok Hstep l.
  assert (forall l indices, learners s !! l = Some (LCollect indices) ->
            length indices <= S) as Hcoll.
  { intros l' indices Hl.
    pose proof (flat_map_one held_by_learner (learners s) l' _ Hl) as Hle.
    simpl in Hle. apply Permutation_length in Htok.
    rewrite !length_app, length_seq in Htok. unfold in_flight in Htok.
    rewrite length_app in Htok. lia. }
  destruct Hstep; (split; [|intros ?]); try discriminate;
    intros _;
    match goal with
    | H : learners _ !! _ = Some (LCollect _) |- _ => apply Hcoll in H; lia
    end.
Qed.

(** X27: with fewer slots than [batch_size] no learner ever completes the
    locked comprehension: no run contains the construction of a batch,
    and no learner reaches the loop that puts indices back onto Free. *)
Theorem small_pool_never_batches S sh actors num_learners tr s :
  S < batch_size ->
  exec (initial E S sh actors num_learners) tr s ->
  Forall (fun ev => forall l, ev <> EvBatch l /\ forall e, ev <> EvBatchFault l e)
    tr /\
  Forall (fun pc => forall todo, pc <> LRelease todo) (learners s).
Proof.
  intros HS Hexec.
  assert (forall s0 tr s1, exec s0 tr s1 ->
            free_indices s0 ++ full_queue s0 ++ in_flight s0 ++ abandoned s0
              ≡ₚ seq 0 S ->
            Forall (fun pc => forall todo, pc <> LRelease todo) (learners s0) ->
            Forall (fun ev => forall l,
                      ev <> EvBatch l /\ forall e, ev <> EvBatchFault l e) tr /\
            Forall (fun pc => forall todo, pc <> LRelease todo) (learners s1))
    as Hgen.
  { clear Hexec. induction 1 as [s0|s0 ev s1 tr0 s2 Hstep _ IH]; intros Htok Hrel;
      [done|].
    pose proof (step_no_batch S _ _ _ HS Htok Hstep) as Hev.
    destruct IH as [Htr Hrel2].
    - by rewrite (PipelineFacts.step_tokens _ _ _ _ _ _ _ _ Hstep).
    - destruct Hstep
        as [|? w a idx q Hw Hq|? w a q Hw Hq|? w a idx a' sh' Hw Hb
            |? w a idx e sh' Hw Hb|? w a idx Hw|? l Hl Hlock
            |? l indices idx q Hl Hlen Hq|? l indices r Hl Hlen Hb
            |? l indices e Hl Hlen Hb|? l idx todo Hl|? l Hl];
        simpl; try done.
      + apply Forall_insert; [done|]. by intros todo'.
      + apply Forall_insert; [done|]. by intros todo'.
      + exfalso. destruct (Hev l) as [Hf _]. by apply Hf.
      + exfalso. destruct (Hev l) as [_ Hf]. by apply (Hf e).
      + exfalso. apply list_elem_of_lookup_2 in Hl.
        exact (proj1 (Forall_forall _ _) Hrel _ Hl _ eq_refl).
      + exfalso. apply list_elem_of_lookup_2 in Hl.
        exact (proj1 (Forall_forall _ _) Hrel _ Hl _ eq_refl).
    - split; [by constructor|done]. }
  apply (Hgen _ _ _ Hexec).
  - destruct (PipelineFacts.initial_tokens (E := E) S sh actors num_learners)
      as (-> & -> & -> & ->). simpl. by rewrite app_nil_r.
  - simpl. by apply Forall_replicate.
Qed.

End Worker.

(** An instance: the worker of the small pipeline fills slot 0 of two. *)
Lemma act_body_isolation_witness :
  exists a' sh',
    DistributedTrainer.act_body unit Toy.env_reset Toy.env_step Toy.get_action
      Toy.num_steps 0 (Toy.the_actor, Toy.pool 2) = Ok (a', sh') /\
    frame_at (storages sh') Key.obs 1 0 = frame_at (storages (Toy.pool 2)) Key.obs 1 0 /\
    init_actor_state_storages sh' !! 1 = init_actor_state_storages (Toy.pool 2) !! 1.
Proof.
  destruct (DistributedTrainer.act_body unit Toy.env_reset Toy.env_step
              Toy.get_action Toy.num_steps 0 (Toy.the_actor, Toy.pool 2))
    as [[a' sh']|e] eqn:Hbody; [|cbv in Hbody; discriminate Hbody].
  destruct (act_body_isolation Toy.env_reset Toy.env_step Toy.get_action
              Toy.num_steps 0 Toy.the_actor (Toy.pool 2) a' sh' Hbody)
    as (Hfr & _ & Hbuf & _).
  exists a', sh'. split; [reflexivity|].
  split; [apply Hfr; lia | apply Hbuf; lia].
Defined.


Lemma toy_shaped n : shaped n Toy.num_steps 1 (Toy.pool n).
Proof.
  split; [|split].
  - intros k. simpl. split; [by rewrite length_replicate|].
    apply Forall_replicate. reflexivity.
  - simpl. by rewrite length_replicate.
  - simpl. apply Forall_replicate. reflexivity.
Qed.

Lemma toy_policy_ok : policy_ok Toy.get_action 1.
Proof. intros d st. split; [by exists (TInt 1)|done]. Qed.

(** An instance: the run of the small pipeline. *)
Lemma pipeline_index_safety_witness :
  exists s,
    exec unit Toy.env_reset Toy.env_step Toy.get_action Toy.num_steps
      Toy.batch_size Toy.start Toy.trace s /\
    Forall protocol_event Toy.trace /\ abandoned s = [].
Proof.
  destruct PipelineFacts.toy_run as (s & Hexec & _).
  exists s. split; [exact Hexec|].
  destruct (pipeline_index_safety Toy.env_reset Toy.env_step Toy.init_state
              Toy.get_action Toy.num_steps Toy.batch_size 2 1 (Toy.pool 2)
              [(tt, 0%Z)] 1 Toy.trace s) as (Htr & _ & Hab).
  - exact toy_policy_ok.
  - reflexivity.
  - exact (toy_shaped 2).
  - unfold Toy.batch_size. lia.
  - exact Hexec.
  - split; [exact Htr | exact Hab].
Defined.

(** An instance: the worker of the small pipeline fills slot 0. *)
Lemma rollout_last_action_witness :
  exists a' sh' v,
    DistributedTrainer.act_body unit Toy.env_reset Toy.env_step Toy.get_action
      Toy.num_steps 0 (Toy.the_actor, Toy.pool 2) = Ok (a', sh') /\
    frame_at (storages sh') Key.last_action 0 1 = Some v /\
    frame_at (storages sh') Key.action 0 1 = Some v.
Proof.
  destruct (DistributedTrainer.act_body unit Toy.env_reset Toy.env_step
              Toy.get_action Toy.num_steps 0 (Toy.the_actor, Toy.pool 2))
    as [[a' sh']|e] eqn:Hbody; [|cbv in Hbody; discriminate Hbody].
  destruct (rollout_last_action Toy.env_reset Toy.env_step Toy.get_action
              Toy.num_steps 0 Toy.the_actor (Toy.pool 2) a' sh') with (t := 1)
    as (v & Hl & Ha).
  - intros d st. reflexivity.
  - exact Hbody.
  - unfold Toy.num_steps. lia.
  - exists a', sh', v. split; [reflexivity|]. split; [exact Hl | exact Ha].
Defined.

(** An instance: the run of the small pipeline, with its one sentinel. *)
Lemma sentinel_accounting_witness :
  exists s,
    exec unit Toy.env_reset Toy.env_step Toy.get_action Toy.num_steps
      Toy.batch_size Toy.start Toy.trace s /\
    num_stopped s + num_sentinels s = 1.
Proof.
  destruct PipelineFacts.toy_run as (s & Hexec & _).
  exists s. split; [exact Hexec|].
  exact (sentinel_accounting Toy.env_reset Toy.env_step Toy.get_action
           Toy.num_steps Toy.batch_size 2 (Toy.pool 2) [Toy.the_actor] 1
           Toy.trace s Hexec).
Defined.

(** An instance: the run of the small pipeline. *)
Lemma lock_mutual_exclusion_witness :
  exists s,
    exec unit Toy.env_reset Toy.env_step Toy.get_action Toy.num_steps
      Toy.batch_size Toy.start Toy.trace s /\
    num_collecting s = (if lock s then 1 else 0).
Proof.
  destruct PipelineFacts.toy_run as (s & Hexec & _).
  exists s. split; [exact Hexec|].
  exact (proj1 (lock_mutual_exclusion Toy.env_reset Toy.env_step Toy.get_action
           Toy.num_steps Toy.batch_size 2 (Toy.pool 2) [Toy.the_actor] 1
           Toy.trace s Hexec)).
Defined.

(** An instance: one slot and batches of two. *)
Lemma small_pool_never_batches_witness :
  exists s,
    exec unit Toy.env_reset Toy.env_step Toy.get_action Toy.num_steps 2
      Toy.start1
      [EvFreeGet 0 (Some 0); EvFill 0 0; EvFullPut 0 0; EvLock 0; EvFullGet 0 0]
      s /\
    Forall (fun pc => forall todo, pc <> LRelease todo) (learners s).
Proof.
  destruct (run unit Toy.env_reset Toy.env_step Toy.get_action Toy.num_steps 2
              Toy.start1
              [EvFreeGet 0 (Some 0); EvFill 0 0; EvFullPut 0 0; EvLock 0;
               EvFullGet 0 0]) as [s|] eqn:Hrun;
    [|vm_compute in Hrun; discriminate Hrun].
  apply PipelineFacts.run_sound in Hrun.
  exists s. split; [exact Hrun|].
  destruct (small_pool_never_batches Toy.env_reset Toy.env_step Toy.get_action
              Toy.num_steps 2 1 (Toy.pool 1) [Toy.the_actor] 1
              [EvFreeGet 0 (Some 0); EvFill 0 0; EvFullPut 0 0; EvLock 0;
               EvFullGet 0 0] s) as [_ Hrel].
  - lia.
  - exact Hrun.
  - exact Hrel.
Defined.

End WorkerFacts.

(** ** The trainers: learning-rate schedule and action spaces *)

Module TrainerFacts.
Import LrSchedule BasePolicyTrainer.

(** X28: the learning-rate factor [lr_lambda] of
    [DistributedTrainer.__init__].  For a positive [num_train_steps] it is
    1 at epoch 0, does not increase with the epoch, stays within [0, 1]
    and is 0 from the epoch on at which
    [epoch * num_steps * num_learners] reaches [num_train_steps]; for
    [num_train_steps = 0] it raises [ZeroDivisionError]. *)
Theorem lr_lambda_schedule num_steps num_learners num_train_steps e1 e2 :
  (0 < num_train_steps)%Z -> (0 <= num_steps)%Z -> (0 <= num_learners)%Z ->
  (0 <= e1 <= e2)%Z ->
  lr_lambda num_steps num_learners 0 e1 = Raise ZeroDivisionError /\
  exists r1 r2,
    lr_lambda num_steps num_learners num_train_steps e1 = Ok r1 /\
    lr_lambda num_steps num_learners num_train_steps e2 = Ok r2 /\
    (0 <= r2 <= r1)%R /\ (r1 <= 1)%R /\
    (e1 = 0%Z -> r1 = 1%R) /\
    ((num_train_steps <= e2 * num_steps * num_learners)%Z -> r2 = 0%R).
Proof.
  intros HN HT HL He. split; [done|].
  unfold lr_lambda. cbv zeta. rewrite !decide_False by lia.
  eexists _, _. split; [reflexivity|]. split; [reflexivity|].
  set (m1 := Z.min (e1 * num_steps * num_learners) num_train_steps).
  set (m2 := Z.min (e2 * num_steps * num_learners) num_train_steps).
  assert (0 <= m1 <= m2 /\ m2 <= num_train_steps)%Z as [[H0 H12] H2N].
  { assert (0 <= num_steps * num_learners)%Z as HTL by nia.
    assert (0 <= e1 * num_steps * num_learners
              <= e2 * num_steps * num_learners)%Z by nia.
    unfold m1, m2. lia. }
  assert (0 < IZR num_train_steps)%R as Hn by (by apply IZR_lt).
  assert (0 <= IZR m1)%R as Ha by (by apply IZR_le).
  assert (IZR m1 <= IZR m2)%R as Hab by (by apply IZR_le).
  assert (IZR m2 <= IZR num_train_steps)%R as Hbn by (by apply IZR_le).
  pose proof (Rinv_0_lt_compat _ Hn) as Hi.
  assert (IZR num_train_steps * / IZR num_train_steps = 1)%R as Hinv
    by (apply Rinv_r; lra).
  unfold Rdiv.
  split; [|split; [|split]].
  - split; nra.
  - nra.
  - intros ->. unfold m1.
    replace (0 * num_steps * num_learners)%Z with 0%Z by lia.
    rewrite Z.min_l by lia. lra.
  - intros Hdone. unfold m2. rewrite Z.min_r by lia. lra.
Qed.

(** An instance: 100 steps, 2 learners, 1000 training steps. *)
Lemma lr_lambda_schedule_witness :
  exists r1 r2,
    lr_lambda 100 2 1000 0 = Ok r1 /\ lr_lambda 100 2 1000 5 = Ok r2 /\
    r1 = 1%R /\ r2 = 0%R.
Proof.
  destruct (lr_lambda_schedule 100 2 1000 0 5)
    as (_ & r1 & r2 & H1 & H2 & _ & _ & Hone & Hzero); try lia.
  exists r1, r2. split; [exact H1|]. split; [exact H2|].
  split; [apply Hone; reflexivity | apply Hzero; lia].
Defined.

(** X29: from the action space of the environment to the storages.  For a
    [Discrete] space of [n] actions [_remake_observation_and_action_space]
    gives the shape [(n,)], the type ["Discrete"] and the range
    [[0, n - 1]]; for a [Box] of vectors the shape of the space, the type
    ["Box"] and the first lower and upper bound.  The constructors of
    [DistributedStorage] and [VanillaRolloutStorage] accept both results
    (action dimension 1, and the length of the vectors).  An empty [Box]
    raises [IndexError] and any other space [NotImplementedError] before
    a storage is built. *)
Theorem remake_then_storage observation_shape a junk junk_r junk_t
    num_steps num_storages num_envs batch_size discount gae_lambda shm :
  (forall n, a = Discrete n ->
   exists new self shm' s,
     _remake_observation_and_action_space observation_shape a
       = Ok (observation_shape, new) /\
     shape new = [n] /\ type new = "Discrete"%string /\
     range new = (0%R, IZR (Z.of_nat n - 1)) /\
     DistributedStorage.__init__ junk observation_shape (shape new) (type new)
       num_steps num_storages batch_size shm = (Ok self, shm') /\
     DistributedStorage._action_dim self = 1 /\
     VanillaRolloutStorage.__init__ junk_r junk_t (shape new) (type new)
       num_steps num_envs discount gae_lambda = Ok s /\
     VanillaRolloutStorage._action_dim s = 1) /\
  (forall low high l h lows highs, a = Box low high ->
   low = l :: lows -> high = h :: highs ->
   exists new self shm' s,
     _remake_observation_and_action_space observation_shape a
       = Ok (observation_shape, new) /\
     shape new = [length low] /\ type new = "Box"%string /\
     range new = (l, h) /\
     DistributedStorage.__init__ junk observation_shape (shape new) (type new)
       num_steps num_storages batch_size shm = (Ok self, shm') /\
     DistributedStorage._action_dim self = length low /\
     VanillaRolloutStorage.__init__ junk_r junk_t (shape new) (type new)
       num_steps num_envs discount gae_lambda = Ok s /\
     VanillaRolloutStorage._action_dim s = length low) /\
  (forall low high, a = Box low high -> low = [] \/ high = [] ->
   _remake_observation_and_action_space observation_shape a = Raise IndexError) /\
  (a = OtherSpace ->
   _remake_observation_and_action_space observation_shape a
     = Raise NotImplementedError).
Proof.
  split; [|split; [|split]].
  - intros n ->. simpl.
    eexists _, _, _, _. split; [reflexivity|]. simpl.
    do 3 (split; [reflexivity|]).
    split; [reflexivity|]. split; [reflexivity|].
    unfold VanillaRolloutStorage.__init__. simpl.
    unfold VanillaRolloutStorage.torch_empty.
    rewrite !setitem_Ok by (rewrite length_replicate; lia). simpl.
    split; reflexivity.
  - intros low high l h lows highs -> -> ->. simpl.
    eexists _, _, _, _. split; [reflexivity|]. simpl.
    do 3 (split; [reflexivity|]).
    split; [reflexivity|]. split; [reflexivity|].
    unfold VanillaRolloutStorage.__init__. simpl.
    unfold VanillaRolloutStorage.torch_empty.
    rewrite !setitem_Ok by (rewrite length_replicate; lia). simpl.
    split; reflexivity.
  - intros low high -> [->| ->]; [done|]. simpl.
    by destruct low.
  - intros ->. done.
Qed.

End TrainerFacts.
